(** * Website Watchdog: the incident lifecycle, verified over a shallow embedding

    The development follows [watchdog.py] (classes [WatchdogDB] and
    [Watchdog]) and [alerter.py] (class [Alerter]).

    - The SQLite tables are finite maps from rowid to row.  A statement
      that raises leaves the tables as they were, except where the program
      goes on using the connection after a [commit] that raised: the row
      then stays in the open transaction ([record_check]).
    - Everything the program reads from its surroundings (the HTTP probe,
      the wall clock behind [CURRENT_TIMESTAMP], store faults, the alert
      transports, the process environment, the alert configuration) is an
      oracle of an [Env] record; oracles that can answer differently from
      one call to the next are indexed by a logical tick that every
      interaction advances.
    - Python exceptions are the [Raise] outcome of a small
      reader/state/exception monad; [try_except] is [try: ... except:].
    - A chronological [trace] records the interactions, so that statements
      about order ("committed before the send") and about what was attempted can
      be stated on it.
    - What the program prints is not modelled: a [print] changes neither the
      store nor what is sent. *)

From Stdlib Require Import ZArith Ascii String Floats.PrimFloat.
From stdpp Require Import base tactics option list strings pretty gmap fin_maps.

Local Open Scope string_scope.
Local Open Scope list_scope.
Local Open Scope Z_scope.

(** ** Data model *)

(** The status taxonomy of a check ([result['status']], [checks.status]). *)
Inductive Status := success | failure | timeout | error.

(** [incidents.status]. *)
Inductive IncidentStatus := open | resolved.

#[global] Instance Status_eq_dec : EqDecision Status.
Proof. solve_decision. Defined.
#[global] Instance IncidentStatus_eq_dec : EqDecision IncidentStatus.
Proof. solve_decision. Defined.

(** A row of [targets], as [check_target] reads it; [alert_channels] is the
    column after [json.loads]. *)
Record Target := {
  t_id : Z;
  t_name : string;
  t_url : string;
  t_method : string;
  t_expected_status : Z;
  t_timeout : Z;
  t_contains : option string;
  t_enabled : bool;
  t_alert_channels : list string
}.

(** A row of [checks]. *)
Record Check := {
  c_target_id : Z;
  c_status : Status;
  c_status_code : option Z;
  c_response_time : option float;
  c_error_message : option string;
  c_timestamp : Z
}.

(** A row of [incidents] (the rowid is the key of the table). *)
Record Incident := {
  i_target_id : Z;
  i_status : IncidentStatus;
  i_started_at : Z;
  i_resolved_at : option Z;
  i_failure_count : Z;
  i_last_check_id : Z;
  i_slack_alerted : bool;
  i_email_alerted : bool;
  i_sms_alerted : bool
}.

(** The dict returned by [check_target] and consumed by [handle_result] and
    the alerter.  A key the dict may lack, or hold [None] under, is an
    option. *)
Record CheckResult := {
  r_target_id : Z;
  r_name : string;
  r_status : Status;
  r_status_code : option Z;
  r_response_time : option float;
  r_error_message : option string;
  r_check_id : Z;
  r_alert_channels : option (list string)
}.

(** ** Exceptions *)

Inductive exn :=
| RequestsTimeout (msg : string)   (* requests.Timeout *)
| StoreError (msg : string)        (* sqlite3 error of the store itself *)
| NoSuchColumn (column : string)   (* sqlite3.OperationalError: no such column *)
| ValueError (msg : string)
| OtherError (msg : string).       (* any other Exception *)

(** [str(e)]. *)
Definition str_exn (e : exn) : string :=
  match e with
  | RequestsTimeout m | StoreError m | ValueError m | OtherError m => m
  | NoSuchColumn c => "no such column: " +:+ c
  end.

(** [isinstance(e, requests.Timeout)]. *)
Definition is_timeout (e : exn) : bool :=
  match e with RequestsTimeout _ => true | _ => false end.

(** ** The alert configuration ([self.alert_config]) *)

Record SlackConfig := {
  slack_enabled : option bool;
  slack_channel : option string
}.

Record EmailConfig := {
  email_enabled : option bool;
  email_escalate_after : option Z;
  email_recipients : option (list string)
}.

Record SmsConfig := {
  sms_enabled : option bool;
  sms_escalate_after : option Z;
  sms_recipients : option (list string);
  sms_method : option string
}.

Record AlertConfig := {
  cfg_slack : option SlackConfig;
  cfg_email : option EmailConfig;
  cfg_sms : option SmsConfig
}.

(** The empty dict [{}] that [alert_config.get(channel, {})] falls back to. *)
Definition no_slack_config : SlackConfig := Build_SlackConfig None None.
Definition no_email_config : EmailConfig := Build_EmailConfig None None None.
Definition no_sms_config : SmsConfig := Build_SmsConfig None None None None.

(** ** Notifications

    The texts built by the alerter are kept as the data they render; the
    rendering itself (Markdown, the emoji, the time of day appended by
    [_format_failure_message]) plays no part in the lifecycle. *)

Inductive Headline :=
| AlertDown (name : string)                       (* "ALERT: {name} is DOWN" *)
| EscalationSubject (name : string) (failure_count : Z)
| Recovered (name : string)                       (* "RECOVERED: {name}" *)
| GatewaySubject.                                 (* "Watchdog Alert" *)

Inductive Message :=
| FailureMessage (name : string) (st : Status) (code : option Z)
    (err : option string) (failure_count : Z)     (* _format_failure_message *)
| RecoveryMessage (name : string) (downtime : Z) (response_time : option float)
| BriefMessage (name : string) (failure_count : Z) (err : option string)
| Prefix (n : nat) (m : Message).                 (* message[:n] *)

Inductive Color := danger | good.

(** ** SQL statements issued by [WatchdogDB] *)

Inductive Statement :=
| Connect
| SelectActiveTargets
| InsertCheck (target_id : Z) (st : Status)
| SelectOpenIncident (target_id : Z)
| InsertIncident (target_id check_id : Z)
| UpdateIncident (incident_id check_id : Z) (increment_count : bool)
| ResolveIncident (incident_id : Z)
| SetColumn (column : string) (incident_id : Z).

(** ** Trace of interactions *)

Inductive Event :=
| EvProbe (method url : string) (timeout_s : Z)          (* requests.request *)
| EvSql (s : Statement) (committed : bool)               (* execute + commit *)
| EvSendSlack (title : Headline) (m : Message) (c : Color)   (* _send_slack called *)
| EvSendEmail (subject : Headline) (body : Message) (recipients : list string)
                                                         (* _send_email called *)
| EvSendSms (m : Message)                                (* _send_sms called *)
| EvSubprocess (to : string) (title : Headline) (m : Message)  (* clawdbot CLI run *)
| EvSmtp (host : string) (port : Z) (to : list string)
    (subject : Headline) (body : Message)                (* SMTP session opened *)
| EvTwilio (to : string) (m : Message).                  (* client.messages.create *)

(** ** Environment and state *)

Inductive ProbeOutcome :=
| Response (status_code : Z) (text : string) (elapsed_ms : float)
| ProbeRaised (e : exn).

Record Env := {
  alert_config : AlertConfig;
  getenv : string → option string;                    (* os.getenv *)
  requests_request : nat → string → string → Z → ProbeOutcome;
  current_timestamp : nat → Z;                        (* CURRENT_TIMESTAMP *)
  db_fault : nat → option string;                     (* the store raises *)
  raised_by_commit : nat → bool;      (* ... at commit(), after the statement *)
  sqlite_text : nat → string → Z → gmap Z Incident → exn + gmap Z Incident;
                                      (* UPDATE incidents SET <SQL text> *)
  subprocess_run : nat → option exn;                  (* clawdbot CLI raises *)
  smtp_session : nat → option exn;                    (* smtplib raises *)
  twilio_installed : bool;                            (* import twilio *)
  twilio_create : nat → option exn                    (* twilio raises *)
}.

(** The tables are what the store holds.  [checks] can also hold a row
    that the connection has written and not yet committed: only
    [check_target] goes on after a [commit] that raised (see
    [record_check]); the trace tells which statements were committed. *)
Record World := {
  targets : list Target;
  checks : gmap Z Check;
  incidents : gmap Z Incident;
  tick : nat;
  trace : list Event
}.

(** ** The monad *)

Inductive Res (A : Type) :=
| Ok (a : A)
| Raise (e : exn).
Arguments Ok {A} a.
Arguments Raise {A} e.

Definition M (A : Type) : Type := Env → World → Res A * World.

Definition ret {A} (a : A) : M A := λ _ w, (Ok a, w).

Definition bind {A B} (m : M A) (k : A → M B) : M B :=
  λ env w,
    match m env w with
    | (Ok a, w') => k a env w'
    | (Raise e, w') => (Raise e, w')
    end.

Definition raise {A} (e : exn) : M A := λ _ w, (Raise e, w).

(** [try: body except Exception as e: handler(e)]. *)
Definition try_except {A} (body : M A) (handler : exn → M A) : M A :=
  λ env w,
    match body env w with
    | (Ok a, w') => (Ok a, w')
    | (Raise e, w') => handler e env w'
    end.

#[global] Instance M_ret : MRet M := @ret.
#[global] Instance M_bind : MBind M := λ A B k m, bind m k.

Definition ask : M Env := λ env w, (Ok env, w).
Definition get : M World := λ _ w, (Ok w, w).

(** One more entry in the trace; the tick moves with it. *)
Definition log (ev : Event) (w : World) : World :=
  {| targets := targets w; checks := checks w; incidents := incidents w;
     tick := S (tick w); trace := trace w ++ [ev] |}.

Definition with_checks (c : gmap Z Check) (w : World) : World :=
  {| targets := targets w; checks := c; incidents := incidents w;
     tick := tick w; trace := trace w |}.

Definition with_incidents (i : gmap Z Incident) (w : World) : World :=
  {| targets := targets w; checks := checks w; incidents := i;
     tick := tick w; trace := trace w |}.

Definition emit (ev : Event) : M unit := λ _ w, (Ok tt, log ev w).
Definition set_checks (c : gmap Z Check) : M unit :=
  λ _ w, (Ok tt, with_checks c w).
Definition set_incidents (i : gmap Z Incident) : M unit :=
  λ _ w, (Ok tt, with_incidents i w).

(** [for x in xs: body(x)]. *)
Fixpoint for_each {A} (xs : list A) (body : A → M unit) : M unit :=
  match xs with
  | [] => mret tt
  | x :: rest => body x ;; for_each rest body
  end.

(** ** Python helpers *)

(** Truthiness of an optional string ([None] and [''] are falsy). *)
Definition truthy (o : option string) : bool :=
  match o with
  | Some s => negb (bool_decide (s = ""))
  | None => false
  end.

(** [sub in s] on strings. *)
Fixpoint is_substring (sub s : string) : bool :=
  String.prefix sub s ||
  match s with
  | EmptyString => false
  | String _ rest => is_substring sub rest
  end.

(** [int(s)] on a string.  The bytes are the UTF-8 text of the string, as
    [os.environ] decodes the environment.  Python first turns every
    character above ASCII into a space when it is a Unicode blank and into
    its ASCII digit when it is a Unicode decimal digit (the call fails on
    any other), then reads ASCII: surrounding white space (tab to carriage
    return, and the space), an optional sign, then decimal digits, single
    underscores allowed between digits, 4300 digits at most
    ([sys.int_max_str_digits]).  [None] stands for [ValueError]. *)
Definition is_continuation (b : Z) : bool := (128 <=? b) && (b <=? 191).

(** The code points of UTF-8 bytes; [None] when the bytes are not UTF-8
    (Python decodes such bytes to lone surrogates, which are neither
    blanks nor digits). *)
Fixpoint utf8 (l : list Z) : option (list Z) :=
  match l with
  | [] => Some []
  | b0 :: l1 =>
      if b0 <? 128 then (b0 ::.) <$> utf8 l1
      else
        match l1 with
        | [] => None
        | b1 :: l2 =>
            if negb (is_continuation b1) then None
            else if (194 <=? b0) && (b0 <=? 223)
            then (((b0 - 192) * 64 + (b1 - 128)) ::.) <$> utf8 l2
            else
              match l2 with
              | [] => None
              | b2 :: l3 =>
                  if negb (is_continuation b2) then None
                  else if (224 <=? b0) && (b0 <=? 239)
                  then
                    let cp :=
                      (b0 - 224) * 4096 + (b1 - 128) * 64 + (b2 - 128) in
                    if (2048 <=? cp) &&
                       negb ((55296 <=? cp) && (cp <=? 57343))
                    then (cp ::.) <$> utf8 l3 else None
                  else
                    match l3 with
                    | [] => None
                    | b3 :: l4 =>
                        if negb (is_continuation b3) then None
                        else if (240 <=? b0) && (b0 <=? 244)
                        then
                          let cp :=
                            (b0 - 240) * 262144 + (b1 - 128) * 4096 +
                            (b2 - 128) * 64 + (b3 - 128) in
                          if (65536 <=? cp) && (cp <=? 1114111)
                          then (cp ::.) <$> utf8 l4 else None
                        else None
                    end
              end
        end
  end.

(** The blanks of Unicode above ASCII ([str.isspace]). *)
Definition unicode_spaces : list Z :=
  [133; 160; 5760; 8192; 8193; 8194; 8195; 8196; 8197; 8198; 8199; 8200;
   8201; 8202; 8232; 8233; 8239; 8287; 12288].

(** The digit zero of every run of decimal digits of Unicode 14 above
    ASCII; the nine other digits follow each. *)
Definition unicode_zeros : list Z :=
  [1632; 1776; 1984; 2406; 2534; 2662; 2790; 2918; 3046; 3174; 3302; 3430;
   3558; 3664; 3792; 3872; 4160; 4240; 6112; 6160; 6470; 6608; 6784; 6800;
   6992; 7088; 7232; 7248; 42528; 43216; 43264; 43472; 43504; 43600; 44016;
   65296; 66720; 68912; 69734; 69872; 69942; 70096; 70384; 70736; 70864;
   71248; 71360; 71472; 71904; 72016; 72784; 73040; 73120; 92768; 92864;
   93008; 120782; 120792; 120802; 120812; 120822; 123200; 123632; 125264;
   130032].

(** [_PyUnicode_TransformDecimalAndSpaceToASCII], one character. *)
Definition to_ascii (cp : Z) : option ascii :=
  if cp <? 127 then Some (ascii_of_nat (Z.to_nat cp))
  else if bool_decide (cp ∈ unicode_spaces) then Some " "%char
  else
    match filter (λ zero, zero ≤ cp < zero + 10) unicode_zeros with
    | zero :: _ => Some (ascii_of_nat (Z.to_nat (48 + (cp - zero))))
    | [] => None
    end.

Definition is_space (a : ascii) : bool :=
  let n := nat_of_ascii a in
  ((9 <=? n)%nat && (n <=? 13)%nat) || (n =? 32)%nat.

Definition digit_of (a : ascii) : option Z :=
  let n := nat_of_ascii a in
  if ((48 <=? n)%nat && (n <=? 57)%nat) then Some (Z.of_nat n - 48) else None.

Fixpoint int_digits (acc : Z) (after_digit : bool) (l : list ascii) : option Z :=
  match l with
  | [] => if after_digit then Some acc else None
  | a :: rest =>
      match digit_of a with
      | Some d => int_digits (10 * acc + d) true rest
      | None =>
          if bool_decide (a = "_"%char) && after_digit
          then int_digits acc false rest
          else None
      end
  end.

Fixpoint lstrip (l : list ascii) : list ascii :=
  match l with
  | a :: rest => if is_space a then lstrip rest else l
  | [] => []
  end.

Definition py_int (s : string) : option Z :=
  code_points ←
    utf8 ((λ a, Z.of_nat (nat_of_ascii a)) <$> list_ascii_of_string s);
  text ← mapM to_ascii code_points;
  let body := lstrip (rev (lstrip (rev text))) in
  if (4300 <? length (filter (λ a, is_Some (digit_of a)) body))%nat then None
  else
    match body with
    | "-"%char :: ds => Z.opp <$> int_digits 0 false ds
    | "+"%char :: ds => int_digits 0 false ds
    | ds => int_digits 0 false ds
    end.

(** ** WatchdogDB *)

(** The rowid SQLite gives to an inserted row is one more than the largest
    rowid in the table (1 in an empty table); it is what [cursor.lastrowid]
    returns. *)
Definition max_rowid {A} (m : gmap Z A) : Z :=
  map_fold (λ k _ acc, Z.max k acc) 0 m.

Definition lastrowid {A} (m : gmap Z A) : Z := max_rowid m + 1.

(** [cursor.execute(...)], followed by [self.conn.commit()] where the
    method has one: the store either raises, or runs the statement and
    commits it.  Everywhere but in [check_target] an error of the store
    ends the run: the connection is not used again and what it had not
    committed is lost with it, whether [execute] or [commit] raised.  The
    tables after such an error are therefore the tables before the
    statement.  ([check_target] does go on after an error of the store:
    see [record_check].) *)
Definition execute {A} (s : Statement) (run : M A) : M A :=
  env ← ask; w ← get;
  match db_fault env (tick w) with
  | Some msg => emit (EvSql s false) ;; raise (StoreError msg)
  | None => emit (EvSql s true) ;; run
  end.

Definition connect : M unit := execute Connect (mret tt).

Definition get_active_targets : M (list Target) :=
  execute SelectActiveTargets
    (w ← get; mret (filter (λ t, t_enabled t = true) (targets w))).

(** Modelled from the spec: [db/schema.sql] is not among the sources.  The
    spec's CheckResult carries a timestamp that no INSERT supplies, so the
    column defaults to the time of the statement. *)
Definition new_check (now target_id : Z) (status : Status)
    (status_code : option Z) (response_time : option float)
    (error_message : option string) : Check :=
  {| c_target_id := target_id; c_status := status;
     c_status_code := status_code; c_response_time := response_time;
     c_error_message := error_message; c_timestamp := now |}.

(** [cursor.execute(INSERT ...)], [self.conn.commit()], [cursor.lastrowid].
    The caller, [check_target], catches what this raises and uses the
    connection again, so the two calls that can raise are told apart.  When
    [execute] raises nothing was written.  When [commit] raises the row has
    been written and stays in the open transaction of the connection: the
    connection reads it, the next INSERT takes the rowid after it, and the
    next [commit] that succeeds stores both; if none does, the row is lost
    with the connection.  [checks] is the table as the connection reads
    it. *)
Definition record_check (target_id : Z) (status : Status)
    (status_code : option Z) (response_time : option float)
    (error_message : option string) : M Z :=
  env ← ask; w ← get;
  let id := lastrowid (checks w) in
  let row := new_check (current_timestamp env (S (tick w))) target_id status
               status_code response_time error_message in
  match db_fault env (tick w) with
  | Some msg =>
      emit (EvSql (InsertCheck target_id status) false) ;;
      (if raised_by_commit env (tick w)
       then set_checks (<[id := row]> (checks w)) else mret tt) ;;
      raise (StoreError msg)
  | None =>
      emit (EvSql (InsertCheck target_id status) true) ;;
      set_checks (<[id := row]> (checks w)) ;;
      mret id
  end.

(** [ORDER BY started_at DESC LIMIT 1].  SQL leaves the choice among rows
    with equal [started_at] open; here the row met last wins. *)
Fixpoint order_by_started_at_desc_limit_1 (rows : list (Z * Incident))
    : option (Z * Incident) :=
  match rows with
  | [] => None
  | row :: rest =>
      match order_by_started_at_desc_limit_1 rest with
      | None => Some row
      | Some best =>
          if i_started_at best.2 <? i_started_at row.2
          then Some row else Some best
      end
  end.

(** [WHERE target_id = ? AND status = 'open']. *)
Definition open_for (target_id : Z) (row : Z * Incident) : Prop :=
  i_target_id row.2 = target_id ∧ i_status row.2 = open.

#[global] Instance open_for_dec target_id row : Decision (open_for target_id row).
Proof. unfold open_for. apply _. Defined.

Definition select_open_incident (target_id : Z) (m : gmap Z Incident)
    : option (Z * Incident) :=
  order_by_started_at_desc_limit_1
    (filter (open_for target_id) (map_to_list m)).

Definition get_open_incident (target_id : Z) : M (option (Z * Incident)) :=
  execute (SelectOpenIncident target_id)
    (w ← get; mret (select_open_incident target_id (incidents w))).

(** Modelled from the spec: [db/schema.sql] is not among the sources.  The
    INSERT of [create_incident] names three columns; the others take the
    defaults of the spec's Incident: status [open], [started_at] the time
    of the statement, [resolved_at] null, the three alerted flags unset. *)
Definition new_incident (now target_id check_id : Z) : Incident :=
  {| i_target_id := target_id; i_status := open; i_started_at := now;
     i_resolved_at := None; i_failure_count := 1;
     i_last_check_id := check_id; i_slack_alerted := false;
     i_email_alerted := false; i_sms_alerted := false |}.

Definition create_incident (target_id check_id : Z) : M Z :=
  execute (InsertIncident target_id check_id)
    (env ← ask; w ← get;
     let id := lastrowid (incidents w) in
     set_incidents (<[id := new_incident (current_timestamp env (tick w))
                              target_id check_id]> (incidents w)) ;;
     mret id).

(** [SET last_check_id = ?, failure_count = failure_count + 1] and
    [SET last_check_id = ?]. *)
Definition updated (check_id : Z) (increment_count : bool) (i : Incident)
    : Incident :=
  {| i_target_id := i_target_id i; i_status := i_status i;
     i_started_at := i_started_at i; i_resolved_at := i_resolved_at i;
     i_failure_count :=
       if increment_count then i_failure_count i + 1 else i_failure_count i;
     i_last_check_id := check_id; i_slack_alerted := i_slack_alerted i;
     i_email_alerted := i_email_alerted i; i_sms_alerted := i_sms_alerted i |}.

Definition update_incident (incident_id check_id : Z) (increment_count : bool)
    : M unit :=
  execute (UpdateIncident incident_id check_id increment_count)
    (w ← get;
     set_incidents (alter (updated check_id increment_count) incident_id
                      (incidents w))).

(** [SET status = 'resolved', resolved_at = CURRENT_TIMESTAMP]. *)
Definition resolved_row (now : Z) (i : Incident) : Incident :=
  {| i_target_id := i_target_id i; i_status := resolved;
     i_started_at := i_started_at i; i_resolved_at := Some now;
     i_failure_count := i_failure_count i;
     i_last_check_id := i_last_check_id i;
     i_slack_alerted := i_slack_alerted i;
     i_email_alerted := i_email_alerted i; i_sms_alerted := i_sms_alerted i |}.

Definition resolve_incident (incident_id : Z) : M unit :=
  execute (ResolveIncident incident_id)
    (env ← ask; w ← get;
     set_incidents (alter (resolved_row (current_timestamp env (tick w)))
                      incident_id (incidents w))).

(** [SET {column} = 1]: what SQLite makes of the interpolated text.  Blanks
    before a name are skipped and names are matched without regard to the
    case of ASCII letters, so [Slack_alerted] and [ sms_alerted] are
    columns as well. *)
Definition is_sql_space (a : ascii) : bool :=
  let n := nat_of_ascii a in
  ((9 <=? n)%nat && (n <=? 13)%nat) || (n =? 32)%nat.

Fixpoint sql_lstrip (s : string) : string :=
  match s with
  | String a rest => if is_sql_space a then sql_lstrip rest else s
  | EmptyString => EmptyString
  end.

Definition is_letter (a : ascii) : bool :=
  let n := nat_of_ascii a in
  ((65 <=? n)%nat && (n <=? 90)%nat) || ((97 <=? n)%nat && (n <=? 122)%nat).

Definition lower (a : ascii) : ascii :=
  let n := nat_of_ascii a in
  if ((65 <=? n)%nat && (n <=? 90)%nat) then ascii_of_nat (n + 32) else a.

Fixpoint lowercase (s : string) : string :=
  match s with
  | String a rest => String (lower a) (lowercase rest)
  | EmptyString => EmptyString
  end.

Fixpoint name_chars (s : string) : bool :=
  match s with
  | String a rest =>
      (is_letter a || bool_decide (is_Some (digit_of a)) || bool_decide (a = "_"%char)) &&
      name_chars rest
  | EmptyString => true
  end.

(** One identifier and nothing else: a letter or an underscore, then
    letters, digits and underscores. *)
Definition plain_name (s : string) : bool :=
  match s with
  | String a rest =>
      (is_letter a || bool_decide (a = "_"%char)) && name_chars rest
  | EmptyString => false
  end.

(** The columns of [incidents] that the interpolated text can name. *)
Definition set_column (column : string) : option (Incident → Incident) :=
  let name := lowercase (sql_lstrip column) in
  if decide (name = "slack_alerted") then
    Some (λ i, {| i_target_id := i_target_id i; i_status := i_status i;
                  i_started_at := i_started_at i;
                  i_resolved_at := i_resolved_at i;
                  i_failure_count := i_failure_count i;
                  i_last_check_id := i_last_check_id i;
                  i_slack_alerted := true;
                  i_email_alerted := i_email_alerted i;
                  i_sms_alerted := i_sms_alerted i |})
  else if decide (name = "email_alerted") then
    Some (λ i, {| i_target_id := i_target_id i; i_status := i_status i;
                  i_started_at := i_started_at i;
                  i_resolved_at := i_resolved_at i;
                  i_failure_count := i_failure_count i;
                  i_last_check_id := i_last_check_id i;
                  i_slack_alerted := i_slack_alerted i;
                  i_email_alerted := true;
                  i_sms_alerted := i_sms_alerted i |})
  else if decide (name = "sms_alerted") then
    Some (λ i, {| i_target_id := i_target_id i; i_status := i_status i;
                  i_started_at := i_started_at i;
                  i_resolved_at := i_resolved_at i;
                  i_failure_count := i_failure_count i;
                  i_last_check_id := i_last_check_id i;
                  i_slack_alerted := i_slack_alerted i;
                  i_email_alerted := i_email_alerted i;
                  i_sms_alerted := true |})
  else None.

(** The channel goes into the statement as it is.  A name of one of the
    three columns sets the flag; any other plain name is refused by SQLite
    (no such column); and text that is not one plain name is SQL that the
    store parses and runs as part of the UPDATE: what comes of it (an
    error, or some other change of [incidents]) is left to the oracle
    [sqlite_text]. *)
Definition mark_alert_sent (incident_id : Z) (channel : string) : M unit :=
  let column := channel +:+ "_alerted" in
  match set_column column with
  | Some set =>
      execute (SetColumn column incident_id)
        (w ← get; set_incidents (alter set incident_id (incidents w)))
  | None =>
      if plain_name (sql_lstrip column)
      then
        emit (EvSql (SetColumn column incident_id) false) ;;
        raise (NoSuchColumn (sql_lstrip column))
      else
        env ← ask; w ← get;
        match sqlite_text env (tick w) column incident_id (incidents w) with
        | inl e =>
            emit (EvSql (SetColumn column incident_id) false) ;; raise e
        | inr m =>
            emit (EvSql (SetColumn column incident_id) true) ;;
            set_incidents m
        end
  end.

(** ** Alerter *)

(** [result.get('alert_channels', [])]. *)
Definition alert_channels_of (result : CheckResult) : list string :=
  default [] (r_alert_channels result).

Definition _format_failure_message (result : CheckResult) (failure_count : Z)
    : Message :=
  FailureMessage (r_name result) (r_status result) (r_status_code result)
    (r_error_message result) failure_count.

(** [subprocess.run(['clawdbot', 'message', ...], timeout=10)]: it raises
    (no such command, time out) or returns; the return code decides only
    what is printed. *)
Definition run_clawdbot (channel : string) (title : Headline)
    (message : Message) : M unit :=
  env ← ask; w ← get;
  emit (EvSubprocess channel title message) ;;
  match subprocess_run env (tick w) with
  | Some e => raise e
  | None => mret tt
  end.

Definition _send_slack (title : Headline) (message : Message) (color : Color)
    : M unit :=
  emit (EvSendSlack title message color) ;;
  env ← ask;
  let slack_config := default no_slack_config (cfg_slack (alert_config env)) in
  if negb (default true (slack_enabled slack_config)) then mret tt
  else
    let channel := default "#alerts" (slack_channel slack_config) in
    try_except (run_clawdbot channel title message) (λ _, mret tt).

(** [int(os.getenv(name, fallback))]. *)
Definition int_of_env (name : string) (fallback : Z) : M Z :=
  env ← ask;
  match getenv env name with
  | None => mret fallback
  | Some s =>
      match py_int s with
      | Some n => mret n
      | None =>
          raise (ValueError
                   ("invalid literal for int() with base 10: '" +:+ s +:+ "'"))
      end
  end.

(** [smtplib.SMTP(host, port)], [starttls], [login], [send_message], [quit]. *)
Definition smtp_deliver (host : string) (port : Z) (recipients : list string)
    (subject : Headline) (body : Message) : M unit :=
  env ← ask; w ← get;
  emit (EvSmtp host port recipients subject body) ;;
  match smtp_session env (tick w) with
  | Some e => raise e
  | None => mret tt
  end.

(** [SMTP_PORT] is read before the credentials are looked at and before the
    [try]. *)
Definition _send_email (subject : Headline) (body : Message)
    (recipients : list string) : M unit :=
  emit (EvSendEmail subject body recipients) ;;
  env ← ask;
  let smtp_host := getenv env "SMTP_HOST" in
  smtp_port ← int_of_env "SMTP_PORT" 587;
  let smtp_user := getenv env "SMTP_USER" in
  let smtp_pass := getenv env "SMTP_PASSWORD" in
  if negb (truthy smtp_host && truthy smtp_user && truthy smtp_pass)
  then mret tt
  else
    try_except
      (smtp_deliver (default "" smtp_host) smtp_port recipients subject body)
      (λ _, mret tt).

(** [from twilio.rest import Client] and one [client.messages.create] per
    recipient. *)
Definition twilio_send (recipient : string) (message : Message) : M unit :=
  env ← ask; w ← get;
  emit (EvTwilio recipient message) ;;
  match twilio_create env (tick w) with
  | Some e => raise e
  | None => mret tt
  end.

Definition _send_sms_twilio (message : Message) (sms_config : SmsConfig)
    : M unit :=
  try_except
    (env ← ask;
     if decide (twilio_installed env = false)
     then raise (OtherError "No module named 'twilio'")
     else
       if negb (truthy (getenv env "TWILIO_ACCOUNT_SID") &&
                truthy (getenv env "TWILIO_AUTH_TOKEN") &&
                truthy (getenv env "TWILIO_FROM_NUMBER"))
       then mret tt
       else
         for_each (default [] (sms_recipients sms_config))
           (λ recipient, twilio_send recipient message))
    (λ _, mret tt).

Definition _send_sms_email_gateway (message : Message) (sms_config : SmsConfig)
    : M unit :=
  env ← ask;
  let gateway := getenv env "SMS_EMAIL_GATEWAY" in
  if negb (truthy gateway) then mret tt
  else _send_email GatewaySubject (Prefix 160 message) [default "" gateway].

Definition _send_sms (message : Message) (sms_config : SmsConfig) : M unit :=
  emit (EvSendSms message) ;;
  let method := default "email_gateway" (sms_method sms_config) in
  if decide (method = "twilio")
  then _send_sms_twilio message sms_config
  else _send_sms_email_gateway message sms_config.

Definition send_initial_alert (result : CheckResult) : M unit :=
  let message := _format_failure_message result 1 in
  if decide ("slack" ∈ alert_channels_of result)
  then _send_slack (AlertDown (r_name result)) message danger
  else mret tt.

Definition send_escalation_alert (result : CheckResult)
    (incident : Z * Incident) (failure_count : Z) : M unit :=
  env ← ask;
  let alert_config := alert_config env in
  let email_config := default no_email_config (cfg_email alert_config) in
  let email_threshold := default 3 (email_escalate_after email_config) in
  (if bool_decide (failure_count = email_threshold) &&
      bool_decide ("email" ∈ alert_channels_of result) &&
      default true (email_enabled email_config)
   then
     let message := _format_failure_message result failure_count in
     _send_email (EscalationSubject (r_name result) failure_count) message
       (default [] (email_recipients email_config))
   else mret tt) ;;
  let sms_config := default no_sms_config (cfg_sms alert_config) in
  let sms_threshold := default 5 (sms_escalate_after sms_config) in
  if bool_decide (failure_count = sms_threshold) &&
     bool_decide ("sms" ∈ alert_channels_of result) &&
     default false (sms_enabled sms_config)
  then
    let brief_message :=
      BriefMessage (r_name result) failure_count (r_error_message result) in
    _send_sms brief_message sms_config
  else mret tt.

Definition send_recovery_alert (result : CheckResult) (incident : Z * Incident)
    : M unit :=
  let downtime := i_failure_count incident.2 in
  let message :=
    RecoveryMessage (r_name result) downtime (r_response_time result) in
  if decide ("slack" ∈ alert_channels_of result)
  then _send_slack (Recovered (r_name result)) message good
  else mret tt.

(** ** Watchdog *)

(** [requests.request(method=..., url=..., timeout=...)], with the elapsed
    milliseconds measured around it. *)
Definition request (method url : string) (timeout_s : Z)
    : M (Z * string * float) :=
  env ← ask; w ← get;
  emit (EvProbe method url timeout_s) ;;
  match requests_request env (tick w) method url timeout_s with
  | Response status_code text elapsed => mret (status_code, text, elapsed)
  | ProbeRaised e => raise e
  end.

Definition check_target (target : Target) : M CheckResult :=
  let target_id := t_id target in
  let name := t_name target in
  let url := t_url target in
  try_except
    (response ← request (t_method target) url (t_timeout target);
     let '(status_code, text, response_time) := response in
     let '(status, error_msg) :=
       if bool_decide (status_code ≠ t_expected_status target) then
         (failure,
          Some ("Expected " +:+ pretty (t_expected_status target) +:+
                ", got " +:+ pretty status_code))
       else if truthy (t_contains target) &&
               negb (is_substring (default "" (t_contains target)) text) then
         (failure,
          Some ("Expected content '" +:+ default "" (t_contains target) +:+
                "' not found"))
       else (success, None) in
     check_id ← record_check target_id status (Some status_code)
                  (Some response_time) error_msg;
     mret {| r_target_id := target_id; r_name := name; r_status := status;
             r_status_code := Some status_code;
             r_response_time := Some response_time;
             r_error_message := error_msg; r_check_id := check_id;
             r_alert_channels := Some (t_alert_channels target) |})
    (λ e,
       if is_timeout e then
         let msg := "Timeout after " +:+ pretty (t_timeout target) +:+ "s" in
         check_id ← record_check target_id timeout None None (Some msg);
         mret {| r_target_id := target_id; r_name := name;
                 r_status := timeout; r_status_code := None;
                 r_response_time := None; r_error_message := Some msg;
                 r_check_id := check_id;
                 r_alert_channels := Some (t_alert_channels target) |}
       else
         check_id ← record_check target_id error None None (Some (str_exn e));
         mret {| r_target_id := target_id; r_name := name;
                 r_status := error; r_status_code := None;
                 r_response_time := None;
                 r_error_message := Some (str_exn e);
                 r_check_id := check_id;
                 r_alert_channels := Some (t_alert_channels target) |}).

Definition handle_result (result : CheckResult) : M unit :=
  let target_id := r_target_id result in
  let status := r_status result in
  let check_id := r_check_id result in
  incident ← get_open_incident target_id;
  if decide (status = success) then
    match incident with
    | Some inc =>
        resolve_incident inc.1 ;;
        send_recovery_alert result inc
    | None => mret tt
    end
  else
    match incident with
    | Some inc =>
        update_incident inc.1 check_id true ;;
        let failure_count := i_failure_count inc.2 + 1 in
        send_escalation_alert result inc failure_count
    | None =>
        incident_id ← create_incident target_id check_id;
        send_initial_alert result ;;
        for_each (default ["slack"] (r_alert_channels result))
          (λ channel,
             if decide (channel ∈ ["slack"; "email"; "sms"])
             then mark_alert_sent incident_id channel
             else mret tt)
    end.

Definition run_checks : M unit :=
  connect ;;
  targets ← get_active_targets;
  match targets with
  | [] => mret tt
  | _ =>
      for_each targets
        (λ target, result ← check_target target; handle_result result)
  end.

(** Successive results handled one after the other, as successive runs of
    the job do: an exception ends the run it is raised in, and the next
    run starts from what the store holds. *)
Definition handle_results (env : Env) (results : list CheckResult) (w : World)
    : World :=
  foldl (λ w result, (handle_result result env w).2) w results.

(** * Vocabulary of the statements *)

(** At most one open incident per target. *)
Definition one_open_per_target (m : gmap Z Incident) : Prop :=
  ∀ id1 id2 i1 i2,
    m !! id1 = Some i1 → m !! id2 = Some i2 →
    i_target_id i1 = i_target_id i2 →
    i_status i1 = open → i_status i2 = open →
    id1 = id2.

(** No open incident for a target. *)
Definition none_open_for (target_id : Z) (m : gmap Z Incident) : Prop :=
  ∀ id i, m !! id = Some i → ¬ open_for target_id (id, i).

(** The world after some more interactions. *)
Definition add_events (evs : list Event) (w : World) : World :=
  foldl (λ w ev, log ev w) w evs.

(** The store raises at some point of the run. *)
Definition faulty (env : Env) (msg : string) : Prop :=
  ∃ n, db_fault env n = Some msg.

(** The store never raises. *)
Definition store_ok (env : Env) : Prop := ∀ n, db_fault env n = None.

(** The transport behind a Slack message. *)
Definition is_slack_transport (ev : Event) : bool :=
  match ev with EvSubprocess _ _ _ => true | _ => false end.

(** The transport behind a mail. *)
Definition is_smtp (ev : Event) : bool :=
  match ev with EvSmtp _ _ _ _ _ => true | _ => false end.

(** What carries an escalation once it is decided: the SMTP session, the
    Twilio call, the mail to the SMS gateway. *)
Definition is_escalation_carrier (ev : Event) : bool :=
  match ev with
  | EvSmtp _ _ _ _ _ | EvTwilio _ _ | EvSendEmail GatewaySubject _ _ => true
  | _ => false
  end.

(** [SMTP_PORT] is unset or reads as an integer. *)
Definition port_ok (env : Env) : Prop :=
  match getenv env "SMTP_PORT" with
  | Some s => is_Some (py_int s)
  | None => True
  end.

(** A send ends normally, or [int()] refused [SMTP_PORT]. *)
Definition absorbed (env : Env) (res : Res unit) : Prop :=
  res = Ok tt ∨ (¬ port_ok env ∧ ∃ msg, res = Raise (ValueError msg)).

(** The guards of [send_escalation_alert]. *)
Definition email_config_of (env : Env) : EmailConfig :=
  default no_email_config (cfg_email (alert_config env)).

Definition sms_config_of (env : Env) : SmsConfig :=
  default no_sms_config (cfg_sms (alert_config env)).

Definition email_threshold (env : Env) : Z :=
  default 3 (email_escalate_after (email_config_of env)).

Definition sms_threshold (env : Env) : Z :=
  default 5 (sms_escalate_after (sms_config_of env)).

Definition email_due (env : Env) (r : CheckResult) (failure_count : Z) : bool :=
  bool_decide (failure_count = email_threshold env) &&
  bool_decide ("email" ∈ alert_channels_of r) &&
  default true (email_enabled (email_config_of env)).

Definition sms_due (env : Env) (r : CheckResult) (failure_count : Z) : bool :=
  bool_decide (failure_count = sms_threshold env) &&
  bool_decide ("sms" ∈ alert_channels_of r) &&
  default false (sms_enabled (sms_config_of env)).

(** The events of the three entry points of the alerter. *)
Definition initial_events (r : CheckResult) (evs : list Event) : Prop :=
  if decide ("slack" ∈ alert_channels_of r)
  then ∃ tr,
         evs = EvSendSlack (AlertDown (r_name r))
                 (_format_failure_message r 1) danger :: tr ∧
         Forall (λ ev, is_slack_transport ev = true) tr
  else evs = [].

Definition recovery_events (r : CheckResult) (downtime : Z)
    (evs : list Event) : Prop :=
  if decide ("slack" ∈ alert_channels_of r)
  then ∃ tr,
         evs = EvSendSlack (Recovered (r_name r))
                 (RecoveryMessage (r_name r) downtime (r_response_time r))
                 good :: tr ∧
         Forall (λ ev, is_slack_transport ev = true) tr
  else evs = [].

Definition email_events (env : Env) (r : CheckResult) (n : Z)
    (evs : list Event) : Prop :=
  if email_due env r n
  then ∃ tr,
         evs = EvSendEmail (EscalationSubject (r_name r) n)
                 (_format_failure_message r n)
                 (default [] (email_recipients (email_config_of env))) :: tr ∧
         Forall (λ ev, is_smtp ev = true) tr
  else evs = [].

Definition sms_events (env : Env) (r : CheckResult) (n : Z)
    (evs : list Event) : Prop :=
  if sms_due env r n
  then ∃ tr,
         evs = EvSendSms (BriefMessage (r_name r) n (r_error_message r)) :: tr ∧
         Forall (λ ev, is_escalation_carrier ev = true) tr
  else evs = [].

Definition escalation_events (env : Env) (r : CheckResult) (n : Z)
    (res : Res unit) (evs : list Event) : Prop :=
  ∃ evs_e evs_s,
    evs = evs_e ++ evs_s ∧ email_events env r n evs_e ∧ absorbed env res ∧
    (sms_events env r n evs_s ∨ (evs_s = [] ∧ res ≠ Ok tt)).

(** The loop that marks the channels of a new incident. *)
Inductive marking (env : Env) (id : Z)
  : list string → gmap Z Incident → Res unit → list Event →
    gmap Z Incident → Prop :=
| marking_done m : marking env id [] m (Ok tt) [] m
| marking_skip c cs m res evs m' :
    c ∉ ["slack"; "email"; "sms"] →
    marking env id cs m res evs m' →
    marking env id (c :: cs) m res evs m'
| marking_fault c cs m set msg :
    c ∈ ["slack"; "email"; "sms"] →
    set_column (c +:+ "_alerted") = Some set →
    faulty env msg →
    marking env id (c :: cs) m (Raise (StoreError msg))
      [EvSql (SetColumn (c +:+ "_alerted") id) false] m
| marking_mark c cs m set res evs m' :
    c ∈ ["slack"; "email"; "sms"] →
    set_column (c +:+ "_alerted") = Some set →
    marking env id cs (alter set id m) res evs m' →
    marking env id (c :: cs) m res
      (EvSql (SetColumn (c +:+ "_alerted") id) true :: evs) m'.

(** One call, by cases: the table before, the outcome, the events added to
    the trace and the table after. *)
Inductive handled (env : Env) (r : CheckResult) (m : gmap Z Incident)
  : Res unit → list Event → gmap Z Incident → Prop :=
| handled_select_fault msg :
    faulty env msg →
    handled env r m (Raise (StoreError msg))
      [EvSql (SelectOpenIncident (r_target_id r)) false] m
| handled_idle :
    r_status r = success →
    select_open_incident (r_target_id r) m = None →
    handled env r m (Ok tt)
      [EvSql (SelectOpenIncident (r_target_id r)) true] m
| handled_resolve_fault id i msg :
    r_status r = success →
    select_open_incident (r_target_id r) m = Some (id, i) →
    faulty env msg →
    handled env r m (Raise (StoreError msg))
      [EvSql (SelectOpenIncident (r_target_id r)) true;
       EvSql (ResolveIncident id) false] m
| handled_resolved id i now evs :
    r_status r = success →
    select_open_incident (r_target_id r) m = Some (id, i) →
    recovery_events r (i_failure_count i) evs →
    handled env r m (Ok tt)
      ([EvSql (SelectOpenIncident (r_target_id r)) true;
        EvSql (ResolveIncident id) true] ++ evs)
      (alter (resolved_row now) id m)
| handled_update_fault id i msg :
    r_status r ≠ success →
    select_open_incident (r_target_id r) m = Some (id, i) →
    faulty env msg →
    handled env r m (Raise (StoreError msg))
      [EvSql (SelectOpenIncident (r_target_id r)) true;
       EvSql (UpdateIncident id (r_check_id r) true) false] m
| handled_updated id i res evs :
    r_status r ≠ success →
    select_open_incident (r_target_id r) m = Some (id, i) →
    escalation_events env r (i_failure_count i + 1) res evs →
    handled env r m res
      ([EvSql (SelectOpenIncident (r_target_id r)) true;
        EvSql (UpdateIncident id (r_check_id r) true) true] ++ evs)
      (alter (updated (r_check_id r) true) id m)
| handled_create_fault msg :
    r_status r ≠ success →
    select_open_incident (r_target_id r) m = None →
    faulty env msg →
    handled env r m (Raise (StoreError msg))
      [EvSql (SelectOpenIncident (r_target_id r)) true;
       EvSql (InsertIncident (r_target_id r) (r_check_id r)) false] m
| handled_created now evs_alert res evs_mark m' :
    r_status r ≠ success →
    select_open_incident (r_target_id r) m = None →
    initial_events r evs_alert →
    marking env (lastrowid m) (default ["slack"] (r_alert_channels r))
      (<[lastrowid m := new_incident now (r_target_id r) (r_check_id r)]> m)
      res evs_mark m' →
    handled env r m res
      ([EvSql (SelectOpenIncident (r_target_id r)) true;
        EvSql (InsertIncident (r_target_id r) (r_check_id r)) true]
         ++ evs_alert ++ evs_mark)
      m'.

(** Two rows that differ in their alerted flags at most. *)
Definition same_but_flags (i i' : Incident) : Prop :=
  i_target_id i' = i_target_id i ∧ i_status i' = i_status i ∧
  i_started_at i' = i_started_at i ∧ i_resolved_at i' = i_resolved_at i ∧
  i_failure_count i' = i_failure_count i ∧
  i_last_check_id i' = i_last_check_id i.

(** Row by row, what one call leaves in the table. *)
Definition row_after (r : CheckResult) (m : gmap Z Incident) (id : Z)
    (i' : Incident) : Prop :=
  match m !! id with
  | Some i =>
      i' = i ∨
      (select_open_incident (r_target_id r) m = Some (id, i) ∧
       if decide (r_status r = success)
       then ∃ now, i' = resolved_row now i
       else i' = updated (r_check_id r) true i)
  | None =>
      select_open_incident (r_target_id r) m = None ∧
      r_status r ≠ success ∧
      ∃ now, same_but_flags
               (new_incident now (r_target_id r) (r_check_id r)) i'
  end.

(** The one open incident of a target. *)
Definition the_open_incident (target_id : Z) (m : gmap Z Incident)
    (id : Z) (i : Incident) : Prop :=
  m !! id = Some i ∧ open_for target_id (id, i) ∧
  ∀ id' i', m !! id' = Some i' → open_for target_id (id', i') → id' = id.

(** A run of non-success results for one target. *)
Definition failures_of (target_id : Z) (results : list CheckResult) : Prop :=
  Forall (λ r, r_target_id r = target_id ∧ r_status r ≠ success) results.

(** The same decision order as a function, with the tests the code makes:
    status, error message, response time. *)
Definition classify (target : Target) (outcome : ProbeOutcome)
    : Status * option string * option float :=
  match outcome with
  | ProbeRaised e =>
      if is_timeout e
      then (timeout,
            Some ("Timeout after " +:+ pretty (t_timeout target) +:+ "s"),
            None)
      else (error, Some (str_exn e), None)
  | Response actual body elapsed =>
      if decide (actual ≠ t_expected_status target)
      then (failure,
            Some ("Expected " +:+ pretty (t_expected_status target) +:+
                  ", got " +:+ pretty actual),
            Some elapsed)
      else
        match t_contains target with
        | Some substring =>
            if is_substring substring body
            then (success, None, Some elapsed)
            else (failure,
                  Some ("Expected content '" +:+ substring +:+ "' not found"),
                  Some elapsed)
        | None => (success, None, Some elapsed)
        end
  end.

(** [body] holds [sub]. *)
Definition contains (sub body : string) : Prop :=
  ∃ before after, body = before +:+ sub +:+ after.

(** The decision order of the spec's Result Classifier (4.1), rule by rule
    and in its words: the status, the error message and the response time
    of a probe outcome.  Rule 1 asks of the message only that it include
    the configured timeout. *)
Inductive classified (target : Target)
  : ProbeOutcome → Status → option string → option float → Prop :=
| classified_timeout text msg :
    contains (pretty (t_timeout target)) msg →
    classified target (ProbeRaised (RequestsTimeout text))
      timeout (Some msg) None
| classified_error e :
    (∀ text, e ≠ RequestsTimeout text) →
    classified target (ProbeRaised e) error (Some (str_exn e)) None
| classified_status actual body elapsed :
    actual ≠ t_expected_status target →
    classified target (Response actual body elapsed)
      failure
      (Some ("Expected " +:+ pretty (t_expected_status target) +:+
             ", got " +:+ pretty actual))
      (Some elapsed)
| classified_content actual body elapsed sub :
    actual = t_expected_status target →
    t_contains target = Some sub → ¬ contains sub body →
    classified target (Response actual body elapsed)
      failure (Some ("Expected content '" +:+ sub +:+ "' not found"))
      (Some elapsed)
| classified_success actual body elapsed :
    actual = t_expected_status target →
    (∀ sub, t_contains target = Some sub → contains sub body) →
    classified target (Response actual body elapsed)
      success None (Some elapsed).

(** The body of the loop of [run_checks]. *)
Definition check_and_handle (target : Target) : M unit :=
  result ← check_target target; handle_result result.

Definition is_store_event (ev : Event) : bool :=
  match ev with EvSql _ _ => true | _ => false end.

(** A statement that names one of the alerted columns, or no column. *)
Definition well_formed (ev : Event) : Prop :=
  match ev with
  | EvSql (SetColumn column _) _ =>
      column ∈ ["slack_alerted"; "email_alerted"; "sms_alerted"]
  | _ => True
  end.

Definition is_slack_event (ev : Event) : bool :=
  match ev with EvSendSlack _ _ _ | EvSubprocess _ _ _ => true | _ => false end.

Definition is_email_or_sms_event (ev : Event) : bool :=
  match ev with
  | EvSendEmail _ _ _ | EvSendSms _ | EvSmtp _ _ _ _ _ | EvTwilio _ _ => true
  | _ => false
  end.

(** The three kinds of notification the lifecycle decides. *)
Definition is_initial_alert (ev : Event) : bool :=
  match ev with EvSendSlack (AlertDown _) _ _ => true | _ => false end.

Definition is_email_escalation (ev : Event) : bool :=
  match ev with EvSendEmail (EscalationSubject _ _) _ _ => true | _ => false end.

Definition is_sms_escalation (ev : Event) : bool :=
  match ev with EvSendSms _ => true | _ => false end.

Fixpoint count (p : Event → bool) (evs : list Event) : nat :=
  match evs with
  | [] => 0
  | ev :: rest => (if p ev then 1 else 0) + count p rest
  end.

(** The notifications of one call, between the statements before them and
    the statements after them. *)
Definition notifications_of (env : Env) (r : CheckResult)
    (m : gmap Z Incident) (res : Res unit) (notes : list Event) : Prop :=
  match select_open_incident (r_target_id r) m with
  | Some (id, i) =>
      if decide (r_status r = success)
      then notes = [] ∨ recovery_events r (i_failure_count i) notes
      else notes = [] ∨
           escalation_events env r (i_failure_count i + 1) res notes
  | None =>
      if decide (r_status r = success)
      then notes = []
      else notes = [] ∨ initial_events r notes
  end.

(** How often a guard that holds at the threshold only holds along a run
    whose first result brings the count to [n]. *)
Fixpoint due_count (due : CheckResult → Z → bool) (n : Z)
    (results : list CheckResult) : nat :=
  match results with
  | [] => 0
  | r :: rest => (if due r n then 1 else 0) + due_count due (n + 1) rest
  end.

(** The escalation of a channel with threshold [T] along a run of failures
    from a target without an open incident: once, on the result that
    brings the count to [T], if the channel is due then; never when
    [T < 2]. *)
Definition fires_once (due : CheckResult → Z → bool) (T : Z)
    (results : list CheckResult) : nat :=
  if decide (2 ≤ T)
  then match results !! Z.to_nat (T - 1) with
       | Some r => if due r T then 1 else 0
       | None => 0
       end
  else 0.

(** The alerted flag of a channel on a row; a channel without a column has
    none. *)
Definition alerted (channel : string) (i : Incident) : bool :=
  if decide (channel = "slack") then i_slack_alerted i
  else if decide (channel = "email") then i_email_alerted i
  else if decide (channel = "sms") then i_sms_alerted i
  else false.

(** The statements that create, update or resolve an incident. *)
Definition is_mutation (s : Statement) : bool :=
  match s with
  | InsertIncident _ _ | UpdateIncident _ _ _ | ResolveIncident _ => true
  | _ => false
  end.

(** What the table holds after a call that the store answered. *)
Definition persisted (r : CheckResult) (m m' : gmap Z Incident) : Prop :=
  match select_open_incident (r_target_id r) m with
  | Some (id, i) =>
      if decide (r_status r = success)
      then ∃ now, m' = alter (resolved_row now) id m
      else m' = alter (updated (r_check_id r) true) id m
  | None =>
      if decide (r_status r = success)
      then m' = m
      else ∃ now i',
             m' !! lastrowid m = Some i' ∧
             same_but_flags
               (new_incident now (r_target_id r) (r_check_id r)) i' ∧
             ∀ c, c ∈ default ["slack"] (r_alert_channels r) →
                  c ∈ ["slack"; "email"; "sms"] → alerted c i' = true
  end.

(** A result with the channels left out that [handle_result] has no column
    for. *)
Definition known_channels (r : CheckResult) : CheckResult :=
  {| r_target_id := r_target_id r; r_name := r_name r;
     r_status := r_status r; r_status_code := r_status_code r;
     r_response_time := r_response_time r;
     r_error_message := r_error_message r; r_check_id := r_check_id r;
     r_alert_channels :=
       filter (λ c, c ∈ ["slack"; "email"; "sms"]) <$> r_alert_channels r |}.

(** ** Configuration and traces of the senders *)

(** [self.alert_config.get('slack', {})]. *)
Definition slack_config_of (env : Env) : SlackConfig :=
  default no_slack_config (cfg_slack (alert_config env)).

(** What [_send_slack] adds to the trace: its own call, and the CLI when
    slack is enabled (it is when the configuration does not say). *)
Definition slack_trace (env : Env) (title : Headline) (m : Message)
    (c : Color) : list Event :=
  EvSendSlack title m c ::
  if default true (slack_enabled (slack_config_of env))
  then [EvSubprocess (default "#alerts" (slack_channel (slack_config_of env)))
          title m]
  else [].

(** [all([smtp_host, smtp_user, smtp_pass])]. *)
Definition smtp_configured (env : Env) : bool :=
  truthy (getenv env "SMTP_HOST") && truthy (getenv env "SMTP_USER") &&
  truthy (getenv env "SMTP_PASSWORD").

(** [all([account_sid, auth_token, from_number])]. *)
Definition twilio_configured (env : Env) : bool :=
  truthy (getenv env "TWILIO_ACCOUNT_SID") &&
  truthy (getenv env "TWILIO_AUTH_TOKEN") &&
  truthy (getenv env "TWILIO_FROM_NUMBER").

(** The port [_send_email] would use. *)
Definition smtp_port_is (env : Env) (port : Z) : Prop :=
  (getenv env "SMTP_PORT" = None ∧ port = 587) ∨
  (∃ text, getenv env "SMTP_PORT" = Some text ∧ py_int text = Some port).

(** ** The result and the row of [check_target] *)

(** The dict [check_target] returns. *)
Definition check_result (target : Target) (st : Status) (code : option Z)
    (rt : option float) (msg : option string) (check_id : Z) : CheckResult :=
  {| r_target_id := t_id target; r_name := t_name target; r_status := st;
     r_status_code := code; r_response_time := rt; r_error_message := msg;
     r_check_id := check_id;
     r_alert_channels := Some (t_alert_channels target) |}.

(** What the probe of a target meets in a world. *)
Definition outcome_of (env : Env) (target : Target) (w : World)
    : ProbeOutcome :=
  requests_request env (tick w) (t_method target) (t_url target)
    (t_timeout target).

Definition probe_of (target : Target) : Event :=
  EvProbe (t_method target) (t_url target) (t_timeout target).

(** The status code of a response, if there is one. *)
Definition code_of (outcome : ProbeOutcome) : option Z :=
  match outcome with
  | Response actual _ _ => Some actual
  | ProbeRaised _ => None
  end.

(** The world after one more check row. *)
Definition recorded (now : Z) (r : CheckResult) (w : World) : World :=
  with_checks
    (<[lastrowid (checks w) :=
         new_check now (r_target_id r) (r_status r) (r_status_code r)
           (r_response_time r) (r_error_message r)]> (checks w)) w.

(** The world after an INSERT of [record_check] that raised: the row is in
    the table the connection reads when it was [commit] that raised. *)
Definition refused (env : Env) (target_id : Z) (st : Status)
    (code : option Z) (rt : option float) (msg : option string) (w : World)
    : World :=
  let w1 := log (EvSql (InsertCheck target_id st) false) w in
  if raised_by_commit env (tick w)
  then with_checks
         (<[lastrowid (checks w) :=
              new_check (current_timestamp env (S (tick w))) target_id st
                code rt msg]> (checks w)) w1
  else w1.

(** A statement that was not committed. *)
Definition uncommitted (ev : Event) : Prop := ∀ s, ev ≠ EvSql s true.

(** ** Frames of [handle_result] and [run_checks] *)

(** An HTTP request. *)
Definition is_probe (ev : Event) : bool :=
  match ev with EvProbe _ _ _ => true | _ => false end.

(** Two rows that agree on what is written when an incident is created and
    never again: the target, the start and the three alerted flags. *)
Definition same_origin (i i' : Incident) : Prop :=
  i_target_id i' = i_target_id i ∧ i_started_at i' = i_started_at i ∧
  i_slack_alerted i' = i_slack_alerted i ∧
  i_email_alerted i' = i_email_alerted i ∧
  i_sms_alerted i' = i_sms_alerted i.

(** The targets [run_checks] goes through. *)
Definition active (w : World) : list Target :=
  filter (λ t, t_enabled t = true) (targets w).

(** The errors a run can end on: one of the store, or the [ValueError] of
    [int()] on a malformed [SMTP_PORT]. *)
Definition store_or_port_error (env : Env) (e : exn) : Prop :=
  (∃ msg, e = StoreError msg ∧ faulty env msg) ∨
  (∃ msg, e = ValueError msg ∧ ¬ port_ok env).

(** * Concrete runs:
    the fixture of [test_watchdog.py] ([temp_config]): two targets, email
    escalating after 3 failures and SMS after 5. *)

Definition test_config : AlertConfig :=
  {| cfg_slack := Some {| slack_enabled := Some true;
                          slack_channel := Some "#test-alerts" |};
     cfg_email := Some {| email_enabled := Some true;
                          email_escalate_after := Some 3;
                          email_recipients := Some ["test@example.com"] |};
     cfg_sms := Some {| sms_enabled := Some true;
                        sms_escalate_after := Some 5;
                        sms_recipients := Some ["+15551234567"];
                        sms_method := Some "email_gateway" |} |}.

(** As [test_config], with email escalating after 1 failure. *)
Definition escalate_after_1_config : AlertConfig :=
  {| cfg_slack := cfg_slack test_config;
     cfg_email := Some {| email_enabled := Some true;
                          email_escalate_after := Some 1;
                          email_recipients := Some ["test@example.com"] |};
     cfg_sms := cfg_sms test_config |}.

Definition test_service : Target :=
  {| t_id := 1; t_name := "Test Service";
     t_url := "https://example.com/api/health"; t_method := "GET";
     t_expected_status := 200; t_timeout := 10; t_contains := None;
     t_enabled := true; t_alert_channels := ["slack"; "email"] |}.

Definition slow_service : Target :=
  {| t_id := 2; t_name := "Slow Service";
     t_url := "https://slow.example.com"; t_method := "GET";
     t_expected_status := 200; t_timeout := 1; t_contains := None;
     t_enabled := true; t_alert_channels := ["slack"] |}.

(** [test_service] once the test has set its [contains] to ['healthy']. *)
Definition healthy_service : Target :=
  {| t_id := 1; t_name := "Test Service";
     t_url := "https://example.com/api/health"; t_method := "GET";
     t_expected_status := 200; t_timeout := 10; t_contains := Some "healthy";
     t_enabled := true; t_alert_channels := ["slack"; "email"] |}.

Definition fresh_store : World :=
  {| targets := [test_service; slow_service]; checks := ∅; incidents := ∅;
     tick := 0; trace := [] |}.

(** The environment variables of a configured mail account. *)
Definition smtp_env (port : string) (name : string) : option string :=
  if decide (name = "SMTP_HOST") then Some "smtp.test.com"
  else if decide (name = "SMTP_PORT") then Some port
  else if decide (name = "SMTP_USER") then Some "test@test.com"
  else if decide (name = "SMTP_PASSWORD") then Some "password"
  else if decide (name = "SMS_EMAIL_GATEWAY") then Some "5551234567@txt.example"
  else None.

(** An environment: the configuration, the value of [SMTP_PORT], what every
    probe meets, when the store raises, and what every transport raises. *)
Definition make_env (config : AlertConfig) (port : string)
    (outcome : ProbeOutcome) (fault : nat → option string)
    (transport : option exn) : Env :=
  {| alert_config := config;
     getenv := smtp_env port;
     requests_request := λ _ _ _ _, outcome;
     current_timestamp := λ n, 1700000000 + Z.of_nat n;
     db_fault := fault;
     raised_by_commit := λ _, false;
     sqlite_text := λ _ column _ _, inl (StoreError ("near " +:+ column));
     subprocess_run := λ _, transport;
     smtp_session := λ _, transport;
     twilio_installed := false;
     twilio_create := λ _, transport |}.

(** Every endpoint answers 500; store and transports work. *)
Definition test_env : Env :=
  make_env test_config "587" (Response 500 "Internal Server Error" 150.5)
    (λ _, None) None.

(** As [test_env], with every transport raising. *)
Definition unreachable_env : Env :=
  make_env test_config "587" (Response 500 "Internal Server Error" 150.5)
    (λ _, None) (Some (OtherError "Connection refused")).

(** As [test_env], with [SMTP_PORT] left empty. *)
Definition blank_port_env : Env :=
  make_env test_config "" (Response 500 "Internal Server Error" 150.5)
    (λ _, None) None.

(** As [test_env], with email escalating after 1 failure. *)
Definition escalate_after_1_env : Env :=
  make_env escalate_after_1_config "587"
    (Response 500 "Internal Server Error" 150.5) (λ _, None) None.

(** As [test_env], with the store reachable and refusing its fifth
    statement: the SELECT of the first [handle_result]. *)
Definition locked_env : Env :=
  make_env test_config "587" (Response 500 "Internal Server Error" 150.5)
    (λ n, if decide (n = 4%nat) then Some "database is locked" else None)
    None.

(** As [test_env], every probe meeting [outcome]. *)
Definition probe_env (outcome : ProbeOutcome) : Env :=
  make_env test_config "587" outcome (λ _, None) None.

(** A failed and a successful check of [test_service]. *)
Definition down (check_id : Z) (channels : list string) : CheckResult :=
  {| r_target_id := 1; r_name := "Test Service"; r_status := failure;
     r_status_code := Some 500; r_response_time := Some 150.5%float;
     r_error_message := Some "Expected 200, got 500";
     r_check_id := check_id; r_alert_channels := Some channels |}.

Definition up (check_id : Z) (channels : list string) : CheckResult :=
  {| r_target_id := 1; r_name := "Test Service"; r_status := success;
     r_status_code := Some 200; r_response_time := Some 150.5%float;
     r_error_message := None;
     r_check_id := check_id; r_alert_channels := Some channels |}.


(** What [check_target] returns on a fresh store, as the tests assert it:
    status, status code, error message. *)
Definition checked (target : Target) (outcome : ProbeOutcome)
    : option (Status * option Z * option string) :=
  match (check_target target (probe_env outcome) fresh_store).1 with
  | Ok r => Some (r_status r, r_status_code r, r_error_message r)
  | Raise _ => None
  end.

(** A healthy endpoint, the store refusing its second statement: the
    INSERT of the first [check_target]. *)
Definition busy_env : Env :=
  make_env test_config "587" (Response 200 "OK" 150.5)
    (λ n, if decide (n = 1%nat) then Some "database is locked" else None)
    None.

(** As [busy_env], with [commit] the call that raises. *)
Definition busy_commit_env : Env :=
  {| alert_config := alert_config busy_env;
     getenv := getenv busy_env;
     requests_request := requests_request busy_env;
     current_timestamp := current_timestamp busy_env;
     db_fault := db_fault busy_env;
     raised_by_commit := λ _, true;
     sqlite_text := sqlite_text busy_env;
     subprocess_run := subprocess_run busy_env;
     smtp_session := smtp_session busy_env;
     twilio_installed := twilio_installed busy_env;
     twilio_create := twilio_create busy_env |}.

(** A Twilio account, the client raising on its second message. *)
Definition twilio_env : Env :=
  {| alert_config := test_config;
     getenv :=
       λ name,
         if decide (name ∈ ["TWILIO_ACCOUNT_SID"; "TWILIO_AUTH_TOKEN";
                            "TWILIO_FROM_NUMBER"])
         then Some "set" else None;
     requests_request := λ _ _ _ _, Response 200 "OK" 150.5;
     current_timestamp := λ n, 1700000000 + Z.of_nat n;
     db_fault := λ _, None;
     raised_by_commit := λ _, false;
     sqlite_text := λ _ column _ _, inl (StoreError ("near " +:+ column));
     subprocess_run := λ _, None;
     smtp_session := λ _, None;
     twilio_installed := true;
     twilio_create :=
       λ n, if decide (n = 1%nat)
            then Some (OtherError "unreachable number") else None |}.

Definition three_numbers : SmsConfig :=
  {| sms_enabled := Some true; sms_escalate_after := Some 5;
     sms_recipients := Some ["+15551234567"; "+15557654321"; "+15550000000"];
     sms_method := Some "twilio" |}.

(** A failed check of [test_service] in a dict without [alert_channels]. *)
Definition bare (check_id : Z) : CheckResult :=
  {| r_target_id := 1; r_name := "Test Service"; r_status := failure;
     r_status_code := Some 500; r_response_time := Some 150.5%float;
     r_error_message := Some "Expected 200, got 500";
     r_check_id := check_id; r_alert_channels := None |}.

(** * Properties *)

(** ** Tables *)

Section tables.
Context {A : Type}.
Implicit Types m : gmap Z A.

Lemma max_rowid_bound m k x : m !! k = Some x → k ≤ max_rowid m.
Proof.
  unfold max_rowid. revert k x.
  apply (map_fold_weak_ind
           (λ acc m, ∀ k x, m !! k = Some x → k ≤ acc)).
  - intros k x Hk. by rewrite lookup_empty in Hk.
  - intros i y m' acc Hi IH k x Hk.
    destruct (decide (i = k)) as [->|Hne].
    + lia.
    + rewrite lookup_insert_ne in Hk by done.
      specialize (IH k x Hk). lia.
Qed.

Lemma lastrowid_fresh m : m !! lastrowid m = None.
Proof.
  destruct (m !! lastrowid m) as [x|] eqn:Hl; [|done].
  apply max_rowid_bound in Hl. unfold lastrowid in Hl. lia.
Qed.

Lemma lastrowid_ne m k x : m !! k = Some x → lastrowid m ≠ k.
Proof. intros Hk Heq. rewrite <- Heq, lastrowid_fresh in Hk. done. Qed.

Lemma max_rowid_nonneg m : 0 ≤ max_rowid m.
Proof.
  unfold max_rowid.
  apply (map_fold_weak_ind (λ acc _, 0 ≤ acc)); [done|]. intros. lia.
Qed.

(** The rowid after a row inserted under [lastrowid]. *)
Lemma lastrowid_insert m x :
  lastrowid (<[lastrowid m := x]> m) = lastrowid m + 1.
Proof.
  pose proof (max_rowid_nonneg m).
  unfold lastrowid at 1. unfold max_rowid at 1.
  rewrite map_fold_insert_L; [|intros; lia|apply lastrowid_fresh].
  fold (max_rowid m). unfold lastrowid. lia.
Qed.
End tables.

Lemma order_by_None rows :
  order_by_started_at_desc_limit_1 rows = None → rows = [].
Proof.
  destruct rows as [|row rest]; [done|]. simpl.
  destruct (order_by_started_at_desc_limit_1 rest); [|done].
  by case_match.
Qed.

Lemma order_by_Some rows best :
  order_by_started_at_desc_limit_1 rows = Some best →
  best ∈ rows ∧ ∀ row, row ∈ rows → i_started_at row.2 ≤ i_started_at best.2.
Proof.
  revert best. induction rows as [|row rest IH]; intros best; [done|].
  simpl. destruct (order_by_started_at_desc_limit_1 rest) as [b|] eqn:Hrest.
  - destruct (IH b eq_refl) as [Hin Hmax].
    destruct (Z.ltb_spec (i_started_at b.2) (i_started_at row.2));
      intros [= <-]; (split; [apply elem_of_cons; eauto|]);
      intros r [->|Hr]%elem_of_cons; try lia; specialize (Hmax r Hr); lia.
  - apply order_by_None in Hrest as ->. intros [= <-].
    split; [apply elem_of_cons; eauto|].
    intros r [->|Hr]%elem_of_cons; [lia|by apply elem_of_nil in Hr].
Qed.

Lemma select_open_incident_Some target_id m id i :
  select_open_incident target_id m = Some (id, i) →
  m !! id = Some i ∧ i_target_id i = target_id ∧ i_status i = open ∧
  ∀ id' i', m !! id' = Some i' → open_for target_id (id', i') →
            i_started_at i' ≤ i_started_at i.
Proof.
  unfold select_open_incident. intros [Hin Hmax]%order_by_Some.
  apply list_elem_of_filter in Hin as [[Ht Hs] Hin].
  apply elem_of_map_to_list in Hin. simpl in *. repeat split; try done.
  intros id' i' Hl Hopen.
  apply (Hmax (id', i')), list_elem_of_filter. split; [done|].
  by apply elem_of_map_to_list.
Qed.

Lemma select_open_incident_None target_id m :
  select_open_incident target_id m = None → none_open_for target_id m.
Proof.
  unfold select_open_incident. intros Hnil%order_by_None id i Hl Hopen.
  assert ((id, i) ∈ filter (open_for target_id) (map_to_list m)) as Hin.
  { apply list_elem_of_filter. split; [done|]. by apply elem_of_map_to_list. }
  rewrite Hnil in Hin. set_solver.
Qed.

(** Under the invariant the SELECT has nothing to choose between. *)
Lemma select_open_incident_unique target_id m id i :
  one_open_per_target m →
  m !! id = Some i → open_for target_id (id, i) →
  select_open_incident target_id m = Some (id, i).
Proof.
  intros Hinv Hl [Ht Hs]. simpl in *.
  destruct (select_open_incident target_id m) as [[id' i']|] eqn:Hsel.
  - apply select_open_incident_Some in Hsel as (Hl' & Ht' & Hs' & _).
    assert (id' = id) as -> by (eapply Hinv; eauto; congruence).
    congruence.
  - apply select_open_incident_None in Hsel. by destruct (Hsel id i Hl).
Qed.

(** What the statements do to the invariant. *)
Lemma one_open_alter (f : Incident → Incident) id m :
  (∀ i, i_target_id (f i) = i_target_id i) →
  (∀ i, i_status (f i) = open → i_status i = open) →
  one_open_per_target m → one_open_per_target (alter f id m).
Proof.
  intros Hft Hfs Hinv id1 id2 i1 i2 H1 H2 Ht Hs1 Hs2.
  apply lookup_alter_Some in H1, H2.
  destruct H1 as [(? & j1 & Hj1 & ?)|[? Hj1]],
           H2 as [(? & j2 & Hj2 & ?)|[? Hj2]]; simplify_eq; try done;
    rewrite ?Hft in Ht; (eapply Hinv; [exact Hj1|exact Hj2|done|eauto|eauto]).
Qed.

Lemma one_open_insert now target_id check_id m :
  none_open_for target_id m →
  one_open_per_target m →
  one_open_per_target
    (<[lastrowid m := new_incident now target_id check_id]> m).
Proof.
  intros Hnone Hinv id1 id2 i1 i2 H1 H2 Ht Hs1 Hs2.
  apply lookup_insert_Some in H1, H2.
  destruct H1 as [[<- <-]|[? H1]], H2 as [[<- <-]|[? H2]]; try done.
  - destruct (Hnone id2 i2 H2). split; simpl; [by rewrite <- Ht|done].
  - destruct (Hnone id1 i1 H1). split; simpl; [by rewrite Ht|done].
  - eapply Hinv; eauto.
Qed.

Lemma set_column_frame column set i :
  set_column column = Some set →
  i_target_id (set i) = i_target_id i ∧ i_status (set i) = i_status i ∧
  i_failure_count (set i) = i_failure_count i ∧
  i_started_at (set i) = i_started_at i ∧
  i_resolved_at (set i) = i_resolved_at i ∧
  i_last_check_id (set i) = i_last_check_id i.
Proof.
  unfold set_column. repeat case_decide; intros [= <-]; done.
Qed.

(** ** Worlds and traces *)

Lemma add_events_app evs1 evs2 w :
  add_events (evs1 ++ evs2) w = add_events evs2 (add_events evs1 w).
Proof. apply foldl_app. Qed.

Lemma trace_add_events evs w : trace (add_events evs w) = trace w ++ evs.
Proof.
  revert w. induction evs as [|ev evs IH]; intros w; simpl.
  - by rewrite app_nil_r.
  - rewrite IH. simpl. by rewrite <- app_assoc.
Qed.

Lemma incidents_add_events evs w : incidents (add_events evs w) = incidents w.
Proof. revert w. induction evs as [|ev evs IH]; intros w; simpl; [done|]. by rewrite IH. Qed.

Lemma checks_add_events evs w : checks (add_events evs w) = checks w.
Proof. revert w. induction evs as [|ev evs IH]; intros w; simpl; [done|]. by rewrite IH. Qed.

Lemma targets_add_events evs w : targets (add_events evs w) = targets w.
Proof. revert w. induction evs as [|ev evs IH]; intros w; simpl; [done|]. by rewrite IH. Qed.

Lemma tick_add_events evs w :
  tick (add_events evs w) = (tick w + length evs)%nat.
Proof.
  revert w. induction evs as [|ev evs IH]; intros w; simpl; [lia|].
  rewrite IH. simpl. lia.
Qed.

Lemma with_incidents_add_events m evs w :
  add_events evs (with_incidents m w) = with_incidents m (add_events evs w).
Proof. revert w. induction evs as [|ev evs IH]; intros w; simpl; [done|]. by rewrite <- IH. Qed.

(** ** The monad *)

Lemma bind_eq {A B} (m : M A) (k : A → M B) env w :
  (m ≫= k) env w =
  match m env w with
  | (Ok a, w') => k a env w'
  | (Raise e, w') => (Raise e, w')
  end.
Proof. done. Qed.

Lemma store_ok_not_faulty env msg : store_ok env → ¬ faulty env msg.
Proof. intros Hok [n Hn]. by rewrite Hok in Hn. Qed.

Lemma execute_cases {A} (s : Statement) (run : M A) env w :
  (∃ msg, faulty env msg ∧
          execute s run env w = (Raise (StoreError msg), log (EvSql s false) w))
  ∨ execute s run env w = run env (log (EvSql s true) w).
Proof.
  unfold execute, mbind, M_bind, bind, ask, get, emit, raise. simpl.
  destruct (db_fault env (tick w)) as [msg|] eqn:Hf.
  - left. exists msg. split; [by exists (tick w)|done].
  - by right.
Qed.

Lemma get_open_incident_cases target_id env w :
  (∃ msg, faulty env msg ∧
          get_open_incident target_id env w =
          (Raise (StoreError msg),
           log (EvSql (SelectOpenIncident target_id) false) w))
  ∨ get_open_incident target_id env w =
    (Ok (select_open_incident target_id (incidents w)),
     log (EvSql (SelectOpenIncident target_id) true) w).
Proof.
  destruct (execute_cases (SelectOpenIncident target_id)
              (w ← get; mret (select_open_incident target_id (incidents w)))
              env w) as [?|H]; [by left|right].
  exact H.
Qed.

Lemma create_incident_cases target_id check_id env w :
  (∃ msg, faulty env msg ∧
          create_incident target_id check_id env w =
          (Raise (StoreError msg),
           log (EvSql (InsertIncident target_id check_id) false) w))
  ∨ ∃ now,
      create_incident target_id check_id env w =
      (Ok (lastrowid (incidents w)),
       with_incidents
         (<[lastrowid (incidents w) := new_incident now target_id check_id]>
            (incidents w))
         (log (EvSql (InsertIncident target_id check_id) true) w)).
Proof.
  unfold create_incident.
  edestruct (execute_cases (A:=Z)) as [?|H]; [by left; eauto|right].
  rewrite H. eexists. reflexivity.
Qed.

Lemma update_incident_cases incident_id check_id incr env w :
  (∃ msg, faulty env msg ∧
          update_incident incident_id check_id incr env w =
          (Raise (StoreError msg),
           log (EvSql (UpdateIncident incident_id check_id incr) false) w))
  ∨ update_incident incident_id check_id incr env w =
    (Ok tt,
     with_incidents (alter (updated check_id incr) incident_id (incidents w))
       (log (EvSql (UpdateIncident incident_id check_id incr) true) w)).
Proof.
  unfold update_incident.
  edestruct (execute_cases (A:=unit)) as [?|H]; [by left; eauto|right].
  rewrite H. reflexivity.
Qed.

Lemma resolve_incident_cases incident_id env w :
  (∃ msg, faulty env msg ∧
          resolve_incident incident_id env w =
          (Raise (StoreError msg),
           log (EvSql (ResolveIncident incident_id) false) w))
  ∨ ∃ now,
      resolve_incident incident_id env w =
      (Ok tt,
       with_incidents (alter (resolved_row now) incident_id (incidents w))
         (log (EvSql (ResolveIncident incident_id) true) w)).
Proof.
  unfold resolve_incident.
  edestruct (execute_cases (A:=unit)) as [?|H]; [by left; eauto|right].
  rewrite H. eexists. reflexivity.
Qed.

Lemma mark_alert_sent_cases incident_id channel set env w :
  set_column (channel +:+ "_alerted") = Some set →
  (∃ msg, faulty env msg ∧
          mark_alert_sent incident_id channel env w =
          (Raise (StoreError msg),
           log (EvSql (SetColumn (channel +:+ "_alerted") incident_id) false) w))
  ∨ mark_alert_sent incident_id channel env w =
    (Ok tt,
     with_incidents (alter set incident_id (incidents w))
       (log (EvSql (SetColumn (channel +:+ "_alerted") incident_id) true) w)).
Proof.
  intros Hset. unfold mark_alert_sent. rewrite Hset.
  edestruct (execute_cases (A:=unit)) as [?|H]; [by left; eauto|right].
  rewrite H. reflexivity.
Qed.

(** ** What the alerter emits *)

Lemma is_smtp_carrier evs :
  Forall (λ ev, is_smtp ev = true) evs →
  Forall (λ ev, is_escalation_carrier ev = true) evs.
Proof. intros H. eapply Forall_impl; [exact H|]. by intros []. Qed.

Ltac monad_unfold :=
  unfold mbind, M_bind, bind, mret, M_ret, ret, ask, get, emit, raise,
    try_except; simpl.

Lemma _send_slack_spec title m c env w :
  ∃ evs,
    _send_slack title m c env w =
      (Ok tt, add_events (EvSendSlack title m c :: evs) w) ∧
    Forall (λ ev, is_slack_transport ev = true) evs.
Proof.
  unfold _send_slack, run_clawdbot. monad_unfold.
  destruct (negb _).
  - exists []. by split.
  - eexists [_]. monad_unfold.
    destruct (subprocess_run env _); (split; [reflexivity|by repeat constructor]).
Qed.

Lemma int_of_env_cases name fallback env w :
  (∃ n, int_of_env name fallback env w = (Ok n, w)) ∨
  (∃ s msg, getenv env name = Some s ∧ py_int s = None ∧
            int_of_env name fallback env w = (Raise (ValueError msg), w)).
Proof.
  unfold int_of_env. monad_unfold.
  destruct (getenv env name) as [s|] eqn:Hs; [|by left; eexists].
  destruct (py_int s) eqn:Hp; [by left; eexists|].
  right. by eexists _, _.
Qed.

Lemma _send_email_spec subject body recipients env w :
  ∃ res evs,
    _send_email subject body recipients env w =
      (res, add_events (EvSendEmail subject body recipients :: evs) w) ∧
    Forall (λ ev, is_smtp ev = true) evs ∧ absorbed env res.
Proof.
  unfold _send_email. rewrite bind_eq. unfold emit at 1.
  rewrite bind_eq. unfold ask at 1. rewrite bind_eq.
  destruct (int_of_env_cases "SMTP_PORT" 587 env
              (log (EvSendEmail subject body recipients) w))
    as [[n ->]|(s & msg & Hs & Hp & ->)].
  - destruct (negb _).
    + exists (Ok tt), []. repeat split; [by constructor|by left].
    + unfold smtp_deliver. monad_unfold. eexists (Ok tt), [_].
      destruct (smtp_session env _);
        (repeat split; [by repeat constructor|by left]).
  - eexists _, []. repeat split; [by constructor|right].
    split; [|by eexists]. unfold port_ok. rewrite Hs, Hp. by intros [? ?].
Qed.

Lemma twilio_loop_spec message recipients env w :
  ∃ res evs,
    for_each recipients (λ recipient, twilio_send recipient message) env w =
      (res, add_events evs w) ∧
    Forall (λ ev, is_escalation_carrier ev = true) evs.
Proof.
  revert w. induction recipients as [|r rs IH]; intros w.
  - by exists (Ok tt), [].
  - simpl. rewrite bind_eq. unfold twilio_send at 1. monad_unfold.
    destruct (twilio_create env (tick w)).
    + eexists _, [_]. split; [reflexivity|by repeat constructor].
    + destruct (IH (log (EvTwilio r message) w)) as (res & evs & -> & Hevs).
      exists res, (EvTwilio r message :: evs). split; [done|].
      by constructor.
Qed.

Lemma _send_sms_spec message sms_config env w :
  ∃ res evs,
    _send_sms message sms_config env w =
      (res, add_events (EvSendSms message :: evs) w) ∧
    Forall (λ ev, is_escalation_carrier ev = true) evs ∧ absorbed env res.
Proof.
  unfold _send_sms. rewrite bind_eq. unfold emit at 1.
  set (w1 := log (EvSendSms message) w).
  case_decide.
  - unfold _send_sms_twilio. unfold try_except, mbind, M_bind, bind, ask.
    case_decide; [by exists (Ok tt), []; repeat split; [constructor|left]|].
    destruct (negb _);
      [by exists (Ok tt), []; repeat split; [constructor|left]|].
    destruct (twilio_loop_spec message
                (default [] (sms_recipients sms_config)) env w1)
      as (res & evs & -> & Hevs).
    exists (Ok tt), evs. repeat split; [by destruct res as [[]|]|done|by left].
  - unfold _send_sms_email_gateway. unfold mbind, M_bind, bind, ask.
    destruct (negb _);
      [by exists (Ok tt), []; repeat split; [constructor|left]|].
    destruct (_send_email_spec GatewaySubject (Prefix 160 message)
                [default "" (getenv env "SMS_EMAIL_GATEWAY")] env w1)
      as (res & evs & -> & Hevs & Hres).
    eexists res, (_ :: evs). repeat split; [|done].
    constructor; [done|by apply is_smtp_carrier].
Qed.

Lemma send_initial_alert_spec r env w :
  ∃ evs, send_initial_alert r env w = (Ok tt, add_events evs w) ∧
         initial_events r evs.
Proof.
  unfold send_initial_alert, initial_events. case_decide.
  - destruct (_send_slack_spec (AlertDown (r_name r))
                (_format_failure_message r 1) danger env w) as (tr & -> & Htr).
    eauto.
  - by exists [].
Qed.

Lemma send_recovery_alert_spec r inc env w :
  ∃ evs, send_recovery_alert r inc env w = (Ok tt, add_events evs w) ∧
         recovery_events r (i_failure_count inc.2) evs.
Proof.
  unfold send_recovery_alert, recovery_events. case_decide.
  - destruct (_send_slack_spec (Recovered (r_name r))
                (RecoveryMessage (r_name r) (i_failure_count inc.2)
                   (r_response_time r)) good env w) as (tr & -> & Htr).
    eauto.
  - by exists [].
Qed.

Lemma send_escalation_alert_spec r inc n env w :
  ∃ res evs, send_escalation_alert r inc n env w = (res, add_events evs w) ∧
             escalation_events env r n res evs.
Proof.
  unfold send_escalation_alert, escalation_events, email_events, sms_events.
  unfold mbind, M_bind, bind at 1. unfold ask at 1.
  fold (email_config_of env) (sms_config_of env).
  fold (email_threshold env) (sms_threshold env).
  fold (email_due env r n) (sms_due env r n).
  unfold bind at 1.
  assert (∃ res1 evs_e,
            (if email_due env r n
             then _send_email (EscalationSubject (r_name r) n)
                    (_format_failure_message r n)
                    (default [] (email_recipients (email_config_of env)))
             else mret tt) env w = (res1, add_events evs_e w) ∧
            email_events env r n evs_e ∧ absorbed env res1)
    as (res1 & evs_e & -> & He & Hres1).
  { unfold email_events. destruct (email_due env r n).
    - destruct (_send_email_spec (EscalationSubject (r_name r) n)
                  (_format_failure_message r n)
                  (default [] (email_recipients (email_config_of env))) env w)
        as (res & tr & -> & Htr & Hres). eauto 10.
    - exists (Ok tt), []. repeat split. by left. }
  destruct res1 as [[]|e].
  - destruct (sms_due env r n) eqn:Hsms.
    + destruct (_send_sms_spec
                  (BriefMessage (r_name r) n (r_error_message r))
                  (sms_config_of env) env (add_events evs_e w))
        as (res & tr & -> & Htr & Hres).
      exists res, (evs_e ++ EvSendSms
                     (BriefMessage (r_name r) n (r_error_message r)) :: tr).
      split; [by rewrite add_events_app|].
      exists evs_e, (EvSendSms
                       (BriefMessage (r_name r) n (r_error_message r)) :: tr).
      split_and!; [done|done|done|left; eauto].
    + exists (Ok tt), evs_e. split; [done|].
      exists evs_e, []. rewrite app_nil_r. split_and!; auto.
  - exists (Raise e), evs_e. split; [done|].
    exists evs_e, []. rewrite app_nil_r. split_and!; auto.
Qed.

(** ** What one call of [handle_result] does *)

Lemma with_incidents_id w : with_incidents (incidents w) w = w.
Proof. by destruct w. Qed.

Lemma known_channel_column c :
  c ∈ ["slack"; "email"; "sms"] → is_Some (set_column (c +:+ "_alerted")).
Proof.
  rewrite !elem_of_cons, elem_of_nil.
  intros [->|[->|[->|[]]]]; by eexists.
Qed.

Lemma marking_loop env id channels w :
  ∃ res evs m',
    for_each channels
      (λ channel,
         if decide (channel ∈ ["slack"; "email"; "sms"])
         then mark_alert_sent id channel
         else mret tt) env w =
      (res, with_incidents m' (add_events evs w)) ∧
    marking env id channels (incidents w) res evs m'.
Proof.
  revert w. induction channels as [|c cs IH]; intros w.
  - exists (Ok tt), [], (incidents w). split; [|constructor].
    simpl. by rewrite with_incidents_id.
  - simpl. rewrite bind_eq. case_decide as Hc.
    + destruct (known_channel_column c Hc) as [set Hset].
      destruct (mark_alert_sent_cases id c set env w Hset)
        as [(msg & Hf & ->)| ->].
      * eexists _, [_], (incidents w). split; [|by econstructor].
        done.
      * destruct (IH (with_incidents (alter set id (incidents w))
                        (log (EvSql (SetColumn (c +:+ "_alerted") id) true) w)))
          as (res & evs & m' & -> & Hm).
        eexists res, (_ :: evs), m'. split; [|by econstructor].
        by rewrite with_incidents_add_events.
    + unfold mret at 1, M_ret at 1, ret at 1.
      destruct (IH w) as (res & evs & m' & -> & Hm).
      exists res, evs, m'. split; [done|by constructor].
Qed.

Lemma handle_result_handled r env w :
  ∃ res evs m',
    handle_result r env w = (res, with_incidents m' (add_events evs w)) ∧
    handled env r (incidents w) res evs m'.
Proof.
  unfold handle_result. rewrite bind_eq.
  destruct (get_open_incident_cases (r_target_id r) env w)
    as [(msg & Hf & ->)| ->].
  { eexists _, [_], _. split; [|by constructor].
    done. }
  set (w1 := log (EvSql (SelectOpenIncident (r_target_id r)) true) w).
  destruct (select_open_incident (r_target_id r) (incidents w))
    as [[id i]|] eqn:Hsel; case_decide as Hst; simpl.
  - (* recovery *)
    rewrite bind_eq.
    destruct (resolve_incident_cases id env w1) as [(msg & Hf & ->)|[now ->]].
    { eexists _, [_; _], _. split; [|by eapply handled_resolve_fault].
      done. }
    edestruct (send_recovery_alert_spec r (id, i)) as (evs & -> & Hevs).
    eexists _, (_ :: _ :: evs), _. split; [|by eapply handled_resolved].
    by rewrite with_incidents_add_events.
  - (* ongoing incident *)
    rewrite bind_eq.
    destruct (update_incident_cases id (r_check_id r) true env w1)
      as [(msg & Hf & ->)| ->].
    { eexists _, [_; _], _. split; [|by eapply handled_update_fault].
      done. }
    edestruct (send_escalation_alert_spec r (id, i)) as (res & evs & -> & Hevs).
    eexists _, (_ :: _ :: evs), _. split; [|by eapply handled_updated].
    by rewrite with_incidents_add_events.
  - (* nothing to do *)
    eexists _, [_], _. split; [|by constructor].
    done.
  - (* new incident *)
    rewrite bind_eq.
    destruct (create_incident_cases (r_target_id r) (r_check_id r) env w1)
      as [(msg & Hf & ->)|[now ->]].
    { eexists _, [_; _], _. split; [|by eapply handled_create_fault].
      done. }
    rewrite bind_eq.
    edestruct (send_initial_alert_spec r) as (evs_a & -> & Ha).
    edestruct (marking_loop env (lastrowid (incidents w)))
      as (res & evs_m & m' & -> & Hm).
    rewrite incidents_add_events in Hm. simpl in Hm.
    eexists res, (_ :: _ :: evs_a ++ evs_m), m'.
    split; [|by eapply handled_created].
    by rewrite <- add_events_app, with_incidents_add_events.
Qed.

(** ** The lifecycle invariant *)

Lemma same_but_flags_refl i : same_but_flags i i.
Proof. by repeat split. Qed.

Lemma same_but_flags_trans i1 i2 i3 :
  same_but_flags i1 i2 → same_but_flags i2 i3 → same_but_flags i1 i3.
Proof. unfold same_but_flags. intros H1 H2. destruct_and!. split_and!; congruence. Qed.

Lemma marking_rows env id cs m res evs m' :
  marking env id cs m res evs m' →
  (∀ k, k ≠ id → m' !! k = m !! k) ∧
  (∀ i, m !! id = Some i → ∃ i', m' !! id = Some i' ∧ same_but_flags i i').
Proof.
  induction 1 as [m|c cs m res evs m' Hc Hm IH|c cs m set msg Hc Hset Hf
                 |c cs m set res evs m' Hc Hset Hm IH].
  - split; [done|]. intros i Hi. exists i. split; [done|apply same_but_flags_refl].
  - done.
  - split; [done|]. intros i Hi. exists i. split; [done|apply same_but_flags_refl].
  - destruct IH as [IHne IHeq]. split.
    + intros k Hk. rewrite IHne by done. by rewrite lookup_alter_ne.
    + intros i Hi.
      destruct (IHeq (set i)) as (i' & Hi' & Hflags).
      { by rewrite lookup_alter_eq, Hi. }
      exists i'. split; [done|].
      eapply same_but_flags_trans; [|done].
      unfold same_but_flags.
      destruct (set_column_frame _ _ i Hset) as (?&?&?&?&?&?). by split_and!.
Qed.

Lemma marking_one_open env id cs m res evs m' :
  marking env id cs m res evs m' →
  one_open_per_target m → one_open_per_target m'.
Proof.
  induction 1 as [| | |c cs m set res evs m' Hc Hset Hm IH]; try done.
  intros Hinv. apply IH, one_open_alter; [| |done].
  - intros i. by destruct (set_column_frame _ _ i Hset) as (?&?&?).
  - intros i. destruct (set_column_frame _ _ i Hset) as (?&?&?). congruence.
Qed.

Lemma handled_one_open env r m res evs m' :
  handled env r m res evs m' →
  one_open_per_target m → one_open_per_target m'.
Proof.
  intros [] Hinv; try done.
  - by apply one_open_alter.
  - by apply one_open_alter.
  - eapply marking_one_open; [done|].
    apply one_open_insert; [|done]. by apply select_open_incident_None.
Qed.

Lemma handle_result_one_open r env w :
  one_open_per_target (incidents w) →
  one_open_per_target (incidents (handle_result r env w).2).
Proof.
  destruct (handle_result_handled r env w) as (res & evs & m' & -> & H).
  simpl. by eapply handled_one_open.
Qed.

Lemma handle_results_one_open env results w :
  one_open_per_target (incidents w) →
  one_open_per_target (incidents (handle_results env results w)).
Proof.
  revert w. induction results as [|r rs IH]; intros w Hinv; [done|].
  simpl. by apply IH, handle_result_one_open.
Qed.

Lemma handled_row_after env r m res evs m' id i' :
  handled env r m res evs m' → m' !! id = Some i' → row_after r m id i'.
Proof.
  unfold row_after.
  intros [msg Hf| Hst Hsel |id0 i0 msg Hst Hsel Hf | id0 i0 now evs0 Hst Hsel Hev
         | id0 i0 msg Hst Hsel Hf | id0 i0 res0 evs0 Hst Hsel Hev
         | msg Hst Hsel Hf | now evs_a res0 evs_m m0 Hst Hsel Hev Hm] Hl;
    try (rewrite Hl; by left).
  - apply lookup_alter_Some in Hl as [(-> & i & Hi & ->)|[? Hl]];
      rewrite ?Hi, ?Hl; [right|by left].
    apply select_open_incident_Some in Hsel as Hsel'.
    destruct Hsel' as (Hi0 & _). simplify_eq. split; [done|].
    rewrite decide_True by done. eauto.
  - apply lookup_alter_Some in Hl as [(-> & i & Hi & ->)|[? Hl]];
      rewrite ?Hi, ?Hl; [right|by left].
    apply select_open_incident_Some in Hsel as Hsel'.
    destruct Hsel' as (Hi0 & _). simplify_eq. split; [done|].
    by rewrite decide_False by done.
  - apply marking_rows in Hm as [Hne Heq].
    destruct (decide (id = lastrowid m)) as [->|Hid].
    + rewrite lastrowid_fresh. split_and!; [done..|].
      destruct (Heq _ (lookup_insert_eq _ _ _)) as (i1 & Hi1 & Hflags).
      simplify_eq. eauto.
    + rewrite Hne, lookup_insert_ne in Hl by done. rewrite Hl. by left.
Qed.

Lemma handle_result_row_after env r w id i' :
  incidents (handle_result r env w).2 !! id = Some i' →
  row_after r (incidents w) id i'.
Proof.
  destruct (handle_result_handled r env w) as (res & evs & m' & -> & H).
  simpl. by eapply handled_row_after.
Qed.

(** C1. Starting from a table with at most one open incident per target
    (the empty table of a fresh store, for one), whatever results
    [handle_result] is given, for whatever targets, and whatever the store
    and the transports do meanwhile, the table keeps at most one open
    incident per target.  Each call moreover leaves every row as it was,
    except that: a row that was not there was inserted, open and for the
    target of the result, only when the SELECT of [get_open_incident] found
    no open incident and the check is not a success; and a row that was
    there and has changed is the one open incident the SELECT returned,
    either counted once more (non-success) or resolved (success).
    Since the store can give up at any statement, the tables reached this
    way include those between two statements of one call. *)
Theorem C1_at_most_one_open_incident :
  (∀ env results w,
     one_open_per_target (incidents w) →
     one_open_per_target (incidents (handle_results env results w))) ∧
  (∀ env r w id i',
     incidents (handle_result r env w).2 !! id = Some i' →
     row_after r (incidents w) id i').
Proof.
  split.
  - intros env results w. apply handle_results_one_open.
  - intros env r w id i'. apply handle_result_row_after.
Qed.

(** ** Runs of failures *)

Lemma the_open_incident_select target_id m id i :
  the_open_incident target_id m id i →
  select_open_incident target_id m = Some (id, i).
Proof.
  intros (Hl & Hopen & Huniq).
  destruct (select_open_incident target_id m) as [[id' i']|] eqn:Hsel.
  - apply select_open_incident_Some in Hsel as (Hl' & Ht' & Hs' & _).
    assert (id' = id) as -> by (by eapply Huniq).
    congruence.
  - apply select_open_incident_None in Hsel. by destruct (Hsel id i Hl).
Qed.

Lemma created_the_open_incident env r m now res evs m' :
  select_open_incident (r_target_id r) m = None →
  marking env (lastrowid m) (default ["slack"] (r_alert_channels r))
    (<[lastrowid m := new_incident now (r_target_id r) (r_check_id r)]> m)
    res evs m' →
  ∃ i', the_open_incident (r_target_id r) m' (lastrowid m) i' ∧
        same_but_flags (new_incident now (r_target_id r) (r_check_id r)) i'.
Proof.
  intros Hsel%select_open_incident_None Hm.
  destruct (marking_rows _ _ _ _ _ _ _ Hm) as [Hne Heq].
  destruct (Heq _ (lookup_insert_eq _ _ _)) as (i' & Hi' & Hflags).
  exists i'. split; [|done]. split_and!; [done| |].
  - destruct Hflags as (Ht & Hs & _). by split; simpl; rewrite ?Ht, ?Hs.
  - intros id' j' Hl Hopen.
    destruct (decide (id' = lastrowid m)) as [|Hid]; [done|].
    rewrite Hne, lookup_insert_ne in Hl by done. by destruct (Hsel id' j' Hl).
Qed.

Lemma updated_the_open_incident target_id check_id m id i :
  the_open_incident target_id m id i →
  the_open_incident target_id (alter (updated check_id true) id m) id
    (updated check_id true i).
Proof.
  intros (Hl & [Ht Hs] & Huniq). split_and!.
  - by rewrite lookup_alter_eq, Hl.
  - done.
  - intros id' i' Hl' Hopen.
    apply lookup_alter_Some in Hl' as [(-> & _)|[? Hl']]; [done|].
    by eapply Huniq.
Qed.

(** One more failure on an open incident, the store answering. *)
Lemma failure_continues env r w id i :
  store_ok env → r_status r ≠ success →
  the_open_incident (r_target_id r) (incidents w) id i →
  the_open_incident (r_target_id r) (incidents (handle_result r env w).2) id
    (updated (r_check_id r) true i).
Proof.
  intros Hok Hst Hopen.
  destruct (handle_result_handled r env w) as (res & evs & m' & -> & H).
  simpl. apply the_open_incident_select in Hopen as Hsel.
  destruct H; try (exfalso; eapply store_ok_not_faulty; eassumption); simplify_eq.
  by apply updated_the_open_incident.
Qed.

(** A first failure, the store answering. *)
Lemma failure_opens env r w :
  store_ok env → r_status r ≠ success →
  select_open_incident (r_target_id r) (incidents w) = None →
  ∃ now i',
    the_open_incident (r_target_id r) (incidents (handle_result r env w).2)
      (lastrowid (incidents w)) i' ∧
    same_but_flags (new_incident now (r_target_id r) (r_check_id r)) i'.
Proof.
  intros Hok Hst Hsel.
  destruct (handle_result_handled r env w) as (res & evs & m' & -> & H).
  simpl. destruct H; try (exfalso; eapply store_ok_not_faulty; eassumption); simplify_eq.
  exists now. by eapply created_the_open_incident.
Qed.

Lemma failures_continue env target_id results w id i :
  store_ok env → failures_of target_id results →
  the_open_incident target_id (incidents w) id i →
  ∃ i', the_open_incident target_id
          (incidents (handle_results env results w)) id i' ∧
        i_failure_count i' = i_failure_count i + Z.of_nat (length results).
Proof.
  intros Hok Hrs. revert w i.
  induction Hrs as [|r rs [Ht Hst] Hrs IH]; intros w i Hopen.
  - exists i. split; [done|simpl; lia].
  - simpl. subst target_id.
    destruct (IH _ _ (failure_continues env r w id i Hok Hst Hopen))
      as (i' & Hopen' & Hcount).
    exists i'. split; [done|]. rewrite Hcount. simpl. lia.
Qed.

Lemma row_after_count r m id i i' :
  m !! id = Some i → row_after r m id i' →
  i_failure_count i ≤ i_failure_count i' ≤ i_failure_count i + 1.
Proof.
  unfold row_after. intros ->. intros [->|[_ H]]; [lia|].
  case_decide; [destruct H as [now ->]|subst i']; simpl; lia.
Qed.

(** C3. After N >= 1 consecutive non-success results for a target that had
    no open incident (the store answering every statement), the target has
    one open incident and its [failure_count] is N.  The count of a row is
    1 when the row is created, and no call ever lowers the count of a row,
    or raises it by more than one. *)
Theorem C3_failure_count_is_run_length :
  (∀ env target_id results w,
     store_ok env →
     select_open_incident target_id (incidents w) = None →
     failures_of target_id results →
     results ≠ [] →
     ∃ id i,
       select_open_incident target_id
         (incidents (handle_results env results w)) = Some (id, i) ∧
       i_failure_count i = Z.of_nat (length results)) ∧
  (∀ env r w id i',
     incidents w !! id = None →
     incidents (handle_result r env w).2 !! id = Some i' →
     i_failure_count i' = 1) ∧
  (∀ env r w id i i',
     incidents w !! id = Some i →
     incidents (handle_result r env w).2 !! id = Some i' →
     i_failure_count i ≤ i_failure_count i' ≤ i_failure_count i + 1).
Proof.
  split_and!.
  - intros env target_id results w Hok Hsel Hrs Hne.
    destruct Hrs as [|r rs [Ht Hst] Hrs]; [done|]. subst target_id.
    destruct (failure_opens env r w Hok Hst Hsel)
      as (now & i1 & Hopen & Hflags).
    destruct (failures_continue env _ rs _ _ _ Hok Hrs Hopen)
      as (i' & Hopen' & Hcount).
    exists (lastrowid (incidents w)), i'. split.
    + by apply the_open_incident_select.
    + destruct Hflags as (_ & _ & _ & _ & Hc & _).
      rewrite Hcount, Hc. simpl. lia.
  - intros env r w id i' Hnone Hl.
    apply handle_result_row_after in Hl.
    unfold row_after in Hl. rewrite Hnone in Hl.
    by destruct Hl as (_ & _ & now & _ & _ & _ & _ & Hc & _).
  - intros env r w id i i' Hi Hl.
    apply handle_result_row_after in Hl.
    by eapply row_after_count.
Qed.

(** ** Resolution *)

Lemma marking_row_kept env id cs m res evs m' k i :
  marking env id cs m res evs m' →
  m !! k = Some i → is_Some (m' !! k).
Proof.
  intros Hm Hk. destruct (marking_rows _ _ _ _ _ _ _ Hm) as [Hne Heq].
  destruct (decide (k = id)) as [->|Hid].
  - destruct (Heq i Hk) as (i' & -> & _). eauto.
  - rewrite Hne by done. eauto.
Qed.

Lemma handled_row_kept env r m res evs m' k i :
  handled env r m res evs m' → m !! k = Some i → is_Some (m' !! k).
Proof.
  intros [] Hk; eauto.
  - rewrite lookup_alter. case_decide; subst; rewrite Hk; eauto.
  - rewrite lookup_alter. case_decide; subst; rewrite Hk; eauto.
  - eapply marking_row_kept; [done|].
    rewrite lookup_insert_ne; [done|]. by eapply lastrowid_ne.
Qed.

(** A resolved row is left alone. *)
Lemma resolved_is_terminal env r w id i :
  incidents w !! id = Some i → i_status i = resolved →
  incidents (handle_result r env w).2 !! id = Some i.
Proof.
  intros Hi Hs.
  destruct (handle_result_handled r env w) as (res & evs & m' & Heq & H).
  destruct (handled_row_kept _ _ _ _ _ _ id i H Hi) as [i' Hi'].
  pose proof (handled_row_after _ _ _ _ _ _ _ _ H Hi') as Hrow.
  rewrite Heq. simpl. rewrite Hi'. f_equal.
  unfold row_after in Hrow. rewrite Hi in Hrow.
  destruct Hrow as [->|[Hsel _]]; [done|].
  apply select_open_incident_Some in Hsel as (_ & _ & Hopen & _). congruence.
Qed.

Lemma resolved_stays_terminal env results w id i :
  incidents w !! id = Some i → i_status i = resolved →
  incidents (handle_results env results w) !! id = Some i.
Proof.
  revert w. induction results as [|r rs IH]; intros w Hi Hs; [done|].
  simpl. apply IH; [|done]. by apply resolved_is_terminal.
Qed.

(** A success on an open incident, the store answering. *)
Lemma success_resolves env r w id i :
  store_ok env → r_status r = success →
  the_open_incident (r_target_id r) (incidents w) id i →
  ∃ now evs,
    handle_result r env w =
      (Ok tt,
       with_incidents (alter (resolved_row now) id (incidents w))
         (add_events
            ([EvSql (SelectOpenIncident (r_target_id r)) true;
              EvSql (ResolveIncident id) true] ++ evs) w)) ∧
    recovery_events r (i_failure_count i) evs.
Proof.
  intros Hok Hst Hopen.
  destruct (handle_result_handled r env w) as (res & evs & m' & -> & H).
  apply the_open_incident_select in Hopen as Hsel.
  destruct H; try (exfalso; eapply store_ok_not_faulty; eassumption);
    simplify_eq.
  eauto.
Qed.

Lemma resolved_none_open target_id m id i now :
  the_open_incident target_id m id i →
  select_open_incident target_id (alter (resolved_row now) id m) = None.
Proof.
  intros (Hl & Hopen & Huniq).
  destruct (select_open_incident _ _) as [[id' i']|] eqn:Hsel; [|done].
  apply select_open_incident_Some in Hsel as (Hl' & Ht & Hs & _).
  apply lookup_alter_Some in Hl' as [(-> & j & Hj & ->)|[Hne Hl']]; [done|].
  destruct Hne. symmetry. by eapply Huniq.
Qed.

(** C4. With an open incident of [failure_count] K for the target and the
    store answering, one success check ends normally and resolves that
    incident: its row becomes [resolved] with [resolved_at] set, every other
    column kept; the target is left without an open incident; and the
    trace gains the SELECT, the UPDATE that resolves, then what
    [send_recovery_alert] does with the row as it was read before the
    UPDATE, so that the Slack message, when slack is listed, reports K.
    A resolved row is never changed again by any later call.  A later
    non-success check for a target without an open incident inserts a row
    with [failure_count] 1 whose id is that of no row of the table, resolved
    ones included. *)
Theorem C4_resolution_is_terminal :
  (∀ env r w id i,
     store_ok env → r_status r = success →
     the_open_incident (r_target_id r) (incidents w) id i →
     let w' := (handle_result r env w).2 in
     (handle_result r env w).1 = Ok tt ∧
     (∃ now,
        incidents w' !! id = Some (resolved_row now i) ∧
        i_status (resolved_row now i) = resolved ∧
        i_resolved_at (resolved_row now i) = Some now ∧
        i_failure_count (resolved_row now i) = i_failure_count i) ∧
     select_open_incident (r_target_id r) (incidents w') = None ∧
     ∃ evs,
       trace w' =
         trace w ++ [EvSql (SelectOpenIncident (r_target_id r)) true;
                     EvSql (ResolveIncident id) true] ++ evs ∧
       recovery_events r (i_failure_count i) evs) ∧
  (∀ env results w id i,
     incidents w !! id = Some i → i_status i = resolved →
     incidents (handle_results env results w) !! id = Some i) ∧
  (∀ env r w,
     store_ok env → r_status r ≠ success →
     select_open_incident (r_target_id r) (incidents w) = None →
     let w' := (handle_result r env w).2 in
     ∃ id' i',
       select_open_incident (r_target_id r) (incidents w') = Some (id', i') ∧
       i_failure_count i' = 1 ∧
       (∀ id i, incidents w !! id = Some i →
                id' ≠ id ∧ incidents w' !! id = Some i)).
Proof.
  split_and!.
  - intros env r w id i Hok Hst Hopen.
    destruct (success_resolves env r w id i Hok Hst Hopen)
      as (now & evs & Heq & Hevs).
    rewrite Heq. simpl. split_and!; [done| | |].
    + exists now. split_and!; try done.
      destruct Hopen as (Hl & _). by rewrite lookup_alter_eq, Hl.
    + by eapply resolved_none_open.
    + exists evs. split; [|done].
      rewrite trace_add_events. simpl. by rewrite <- !app_assoc.
  - intros env results w id i. apply resolved_stays_terminal.
  - intros env r w Hok Hst Hsel.
    destruct (failure_opens env r w Hok Hst Hsel)
      as (now & i' & Hopen & Hflags).
    exists (lastrowid (incidents w)), i'. split_and!.
    + by apply the_open_incident_select.
    + by destruct Hflags as (_ & _ & _ & _ & Hc & _).
    + intros id i Hi. split; [by eapply lastrowid_ne|].
      destruct (handle_result_handled r env w) as (res & evs & m' & Heq & H).
      rewrite Heq. simpl.
      destruct (handled_row_kept _ _ _ _ _ _ id i H Hi) as [j Hj].
      pose proof (handled_row_after _ _ _ _ _ _ _ _ H Hj) as Hrow.
      unfold row_after in Hrow. rewrite Hi in Hrow.
      destruct Hrow as [->|[Hsel' _]]; [done|congruence].
Qed.

(** ** Classification *)

Lemma prefix_empty s : String.prefix "" s = true.
Proof. by destruct s. Qed.

Lemma is_substring_empty s : is_substring "" s = true.
Proof. by destruct s. Qed.

Lemma prefix_append s rest : String.prefix s (s +:+ rest) = true.
Proof.
  induction s as [|a s IH]; simpl; [apply prefix_empty|].
  destruct (Ascii.ascii_dec a a); [done|congruence].
Qed.

Lemma is_substring_prefix sub s :
  String.prefix sub s = true → is_substring sub s = true.
Proof. destruct s; simpl; by intros ->. Qed.

Lemma is_substring_append before s rest :
  is_substring s (before +:+ s +:+ rest) = true.
Proof.
  induction before as [|a before IH]; simpl.
  - apply is_substring_prefix, (prefix_append s rest).
  - rewrite IH. apply orb_true_r.
Qed.

Lemma request_eq method url timeout_s env w :
  request method url timeout_s env w =
  (match requests_request env (tick w) method url timeout_s with
   | Response status_code text elapsed => Ok (status_code, text, elapsed)
   | ProbeRaised e => Raise e
   end,
   log (EvProbe method url timeout_s) w).
Proof.
  unfold request. monad_unfold.
  by destruct (requests_request env (tick w) method url timeout_s).
Qed.

Lemma record_check_ok target_id st code rt msg env w :
  db_fault env (tick w) = None →
  record_check target_id st code rt msg env w =
  (Ok (lastrowid (checks w)),
   with_checks
     (<[lastrowid (checks w) :=
          new_check (current_timestamp env (S (tick w))) target_id st code rt
            msg]> (checks w))
     (log (EvSql (InsertCheck target_id st) true) w)).
Proof.
  intros Hok. unfold record_check, execute. monad_unfold. by rewrite Hok.
Qed.

Lemma prefix_contains sub s :
  String.prefix sub s = true → ∃ rest, s = sub +:+ rest.
Proof.
  revert s. induction sub as [|a sub IH]; intros s.
  - intros _. by exists s.
  - destruct s as [|b s]; simpl; [done|].
    destruct (Ascii.ascii_dec a b) as [->|]; [|done].
    intros [rest ->]%IH. by exists rest.
Qed.

(** [sub in s] is what it says. *)
Lemma is_substring_contains sub s :
  is_substring sub s = true ↔ contains sub s.
Proof.
  split.
  - induction s as [|a s IH]; cbn [is_substring].
    + rewrite orb_false_r. intros [rest ->]%prefix_contains.
      by exists "", rest.
    + intros [H|H]%orb_true_iff.
      * apply prefix_contains in H as [rest ->]. by exists "", rest.
      * destruct (IH H) as (before & after & ->).
        by exists (String a before), after.
  - intros (before & after & ->). apply is_substring_append.
Qed.

(** The function follows the rules. *)
Lemma classify_classified target outcome :
  classified target outcome (classify target outcome).1.1
    (classify target outcome).1.2 (classify target outcome).2.
Proof.
  destruct outcome as [actual body elapsed|e]; simpl.
  - case_decide as Hcode; [by constructor|].
    destruct (t_contains target) as [sub|] eqn:Hsub;
      [destruct (is_substring sub body) eqn:Hbody|]; simpl.
    + apply classified_success; [done|]. intros sub' Hsub'.
      rewrite Hsub in Hsub'. injection Hsub' as <-.
      by apply is_substring_contains.
    + eapply classified_content; [done..|].
      rewrite <- is_substring_contains. by rewrite Hbody.
    + apply classified_success; [done|]. intros sub' Hsub'.
      by rewrite Hsub in Hsub'.
  - destruct e; simpl; try (by apply classified_error).
    apply classified_timeout. by exists "Timeout after ", "s".
Qed.

(** The rules leave one status and one response time to an outcome, and
    one message unless it is a timeout. *)
Lemma classified_unique target outcome st msg rt st' msg' rt' :
  classified target outcome st msg rt →
  classified target outcome st' msg' rt' →
  st' = st ∧ rt' = rt ∧ (st ≠ timeout → msg' = msg).
Proof.
  intros H H'.
  destruct H; inversion H'; subst; try done; simplify_eq;
    try (by split_and!); exfalso; naive_solver.
Qed.

(** [check_target] when the store takes the INSERT that follows the
    probe: what it returns and records, by the tests it makes. *)
Lemma check_target_ok :
  ∀ env target w,
    db_fault env (S (tick w)) = None →
    let outcome :=
      requests_request env (tick w) (t_method target) (t_url target)
        (t_timeout target) in
    ∃ r w',
      check_target target env w = (Ok r, w') ∧
      (r_status r, r_error_message r, r_response_time r) =
        classify target outcome ∧
      r_status_code r =
        match outcome with
        | Response actual _ _ => Some actual
        | ProbeRaised _ => None
        end ∧
      (r_status r = timeout →
       ∃ msg, r_error_message r = Some msg ∧
              is_substring (pretty (t_timeout target)) msg = true) ∧
      (∃ now,
         checks w' !! r_check_id r =
           Some (new_check now (t_id target) (r_status r) (r_status_code r)
                   (r_response_time r) (r_error_message r))) ∧
      r_target_id r = t_id target ∧
      r_alert_channels r = Some (t_alert_channels target).
Proof.
  intros env target w Hok outcome.
  unfold check_target, try_except. rewrite bind_eq, request_eq.
  fold outcome.
  destruct outcome as [actual body elapsed|e]; cbv beta iota zeta.
  - destruct (bool_decide (actual ≠ t_expected_status target)) eqn:Hcode;
      [apply bool_decide_eq_true in Hcode
      |apply bool_decide_eq_false in Hcode;
       destruct (t_contains target) as [sub|] eqn:Hsub; simpl;
       [destruct (decide (sub = "")) as [->|Hne];
        [rewrite bool_decide_eq_true_2 by done
        |rewrite bool_decide_eq_false_2 by done;
         destruct (is_substring sub body) eqn:Hbody]|]];
      simpl; rewrite bind_eq, record_check_ok by done;
      (eexists _, _; split; [reflexivity|]); simpl;
      rewrite ?decide_True, ?decide_False, ?Hsub, ?is_substring_empty, ?Hbody
        by done;
      split_and!; try done; eexists; by rewrite lookup_insert_eq.
  - destruct (is_timeout e) eqn:Ht; rewrite bind_eq, record_check_ok by done;
      (eexists _, _; split; [reflexivity|]); simpl; rewrite Ht;
      split_and!; try done; try (eexists; by rewrite lookup_insert_eq).
    intros _. eexists. split; [done|]. apply is_substring_append.
Qed.


(** C5 (as the code has it). When the store takes the INSERT that follows
    the probe, [check_target] ends normally with the status, error message
    and response time that the decision order of the spec gives to the
    probe's outcome, and with no other: timeout first (the message holds
    the configured timeout), any other exception next ([error], the text
    of the exception), then a status code other than the expected one,
    then a required substring missing from the body, else [success]
    without a message; the response time is there exactly when the probe
    completed.  But the INSERT is made inside the [try] that watches the
    probe: when the store raises on it, the error of the store is
    classified as an error of the probe.  With an endpoint that answers
    the expected 200 and a store that refuses one INSERT, the target is
    reported with status [error], the message of the store, no status
    code and no response time, where the decision order says [success]. *)
Theorem C5_classification_unless_store_raises :
  (∀ env target w,
     db_fault env (S (tick w)) = None →
     ∃ r w',
       check_target target env w = (Ok r, w') ∧
       classified target (outcome_of env target w)
         (r_status r) (r_error_message r) (r_response_time r) ∧
       (∀ st msg rt,
          classified target (outcome_of env target w) st msg rt →
          st = r_status r ∧ rt = r_response_time r ∧
          (r_status r ≠ timeout → msg = r_error_message r)) ∧
       r_status_code r = code_of (outcome_of env target w) ∧
       (∃ now,
          checks w' !! r_check_id r =
            Some (new_check now (t_id target) (r_status r) (r_status_code r)
                    (r_response_time r) (r_error_message r)))) ∧
  outcome_of busy_env test_service fresh_store = Response 200 "OK" 150.5 ∧
  classified test_service (Response 200 "OK" 150.5)
    success None (Some 150.5%float) ∧
  (check_target test_service busy_env fresh_store).1 =
    Ok (check_result test_service error None None
          (Some "database is locked") 1).
Proof.
  split_and!.
  - intros env target w Hok.
    destruct (check_target_ok env target w Hok)
      as (r & w' & Hrun & Hclass & Hcode & _ & Hrow & _).
    cbv zeta in Hclass, Hcode. fold (outcome_of env target w) in Hclass, Hcode.
    pose proof (classify_classified target (outcome_of env target w)) as Hspec.
    rewrite <- Hclass in Hspec. simpl in Hspec.
    exists r, w'. split_and!; [done|done| |done|done].
    intros st msg rt H. by eapply classified_unique.
  - reflexivity.
  - by apply classified_success.
  - vm_compute. reflexivity.
Qed.

(** ** Reading the open incident *)


(** ** The run over the targets *)

Lemma for_each_aborts {A} (body : A → M unit) before x after env w e w1 w2 :
  for_each before body env w = (Ok tt, w1) →
  body x env w1 = (Raise e, w2) →
  for_each (before ++ x :: after) body env w = (Raise e, w2).
Proof.
  revert w. induction before as [|y ys IH]; intros w; simpl.
  - intros [= <-] Hx. by rewrite bind_eq, Hx.
  - rewrite !bind_eq. destruct (body y env w) as [[[]|e'] w'] eqn:Hy; [|done].
    apply IH.
Qed.

Lemma run_checks_unreachable env w msg :
  db_fault env (tick w) = Some msg →
  run_checks env w = (Raise (StoreError msg), log (EvSql Connect false) w).
Proof.
  intros Hf. unfold run_checks, connect, execute. monad_unfold. by rewrite Hf.
Qed.

Lemma run_checks_loop env w :
  db_fault env (tick w) = None → db_fault env (S (tick w)) = None →
  run_checks env w =
  for_each (filter (λ t, t_enabled t = true) (targets w)) check_and_handle env
    (log (EvSql SelectActiveTargets true) (log (EvSql Connect true) w)).
Proof.
  intros H0 H1. unfold run_checks, connect, get_active_targets, execute.
  monad_unfold. rewrite H0. simpl. rewrite H1. simpl.
  by destruct (filter _ (targets w)).
Qed.

(** C8 (as the code has it). [run_checks] has no handler of its own: when
    the store cannot be reached the run ends at [connect], before any
    target; and when the processing of one target ([check_target], then
    [handle_result]) raises, whatever the error, [run_checks] ends there
    with that error, in the world of that moment: the targets after it are
    not attempted. *)
Theorem C8_error_aborts_the_run :
  (∀ env w msg,
     db_fault env (tick w) = Some msg →
     run_checks env w = (Raise (StoreError msg), log (EvSql Connect false) w)) ∧
  (∀ env w before target after e w1 w2,
     db_fault env (tick w) = None → db_fault env (S (tick w)) = None →
     filter (λ t, t_enabled t = true) (targets w) = before ++ target :: after →
     for_each before check_and_handle env
       (log (EvSql SelectActiveTargets true) (log (EvSql Connect true) w)) =
       (Ok tt, w1) →
     (result ← check_target target; handle_result result) env w1 =
       (Raise e, w2) →
     run_checks env w = (Raise e, w2)).
Proof.
  split.
  - apply run_checks_unreachable.
  - intros env w before target after e w1 w2 H0 H1 Hts Hbefore Htarget.
    rewrite run_checks_loop, Hts by done.
    by eapply for_each_aborts.
Qed.

(** ** The dynamic column of [mark_alert_sent] *)

Lemma slack_events_well_formed evs :
  Forall (λ ev, is_slack_transport ev = true) evs → Forall well_formed evs.
Proof. intros H. eapply Forall_impl; [exact H|]. by intros []. Qed.

Lemma carrier_events_well_formed evs :
  Forall (λ ev, is_escalation_carrier ev = true) evs → Forall well_formed evs.
Proof. intros H. eapply Forall_impl; [exact H|]. by intros []. Qed.

Lemma initial_events_well_formed r evs :
  initial_events r evs → Forall well_formed evs.
Proof.
  unfold initial_events. case_decide; [|by intros ->].
  intros (tr & -> & Htr). constructor; [done|].
  by apply slack_events_well_formed.
Qed.

Lemma recovery_events_well_formed r k evs :
  recovery_events r k evs → Forall well_formed evs.
Proof.
  unfold recovery_events. case_decide; [|by intros ->].
  intros (tr & -> & Htr). constructor; [done|].
  by apply slack_events_well_formed.
Qed.

Lemma escalation_events_well_formed env r n res evs :
  escalation_events env r n res evs → Forall well_formed evs.
Proof.
  intros (evs_e & evs_s & -> & He & _ & Hs). apply Forall_app. split.
  - unfold email_events in He. destruct (email_due env r n); [|by subst].
    destruct He as (tr & -> & Htr). constructor; [done|].
    by apply carrier_events_well_formed, is_smtp_carrier.
  - destruct Hs as [Hs|[-> _]]; [|done].
    unfold sms_events in Hs. destruct (sms_due env r n); [|by subst].
    destruct Hs as (tr & -> & Htr). constructor; [done|].
    by apply carrier_events_well_formed.
Qed.

Lemma known_column c :
  c ∈ ["slack"; "email"; "sms"] →
  c +:+ "_alerted" ∈ ["slack_alerted"; "email_alerted"; "sms_alerted"].
Proof.
  rewrite !elem_of_cons, elem_of_nil.
  intros [->|[->|[->|[]]]]; simpl; set_solver.
Qed.

Lemma marking_well_formed env id cs m res evs m' :
  marking env id cs m res evs m' →
  Forall well_formed evs ∧ ∀ column, res ≠ Raise (NoSuchColumn column).
Proof.
  induction 1 as [| | |c cs m set res evs m' Hc Hset Hm [IH1 IH2]]; try done.
  - split; [|done]. constructor; [|done]. by apply known_column.
  - split; [|done]. constructor; [|done]. by apply known_column.
Qed.

Lemma handled_well_formed env r m res evs m' :
  handled env r m res evs m' →
  Forall well_formed evs ∧ ∀ column, res ≠ Raise (NoSuchColumn column).
Proof.
  intros [| | |id i now evs0 Hst Hsel Hev| |id i res0 evs0 Hst Hsel Hev|
          |now evs_a res0 evs_m m0 Hst Hsel Hev Hm];
    try (split; [by repeat constructor|done]).
  - split; [|done]. repeat constructor.
    by eapply recovery_events_well_formed.
  - split.
    + repeat constructor. by eapply escalation_events_well_formed.
    + destruct Hev as (_ & _ & _ & _ & [->|[_ [msg ->]]] & _); done.
  - destruct (marking_well_formed _ _ _ _ _ _ _ Hm) as [Hwf Hres].
    split; [|done]. repeat constructor. apply Forall_app. split; [|done].
    by eapply initial_events_well_formed.
Qed.

Lemma known_channels_elem_of r c :
  c ∈ ["slack"; "email"; "sms"] →
  c ∈ alert_channels_of (known_channels r) ↔ c ∈ alert_channels_of r.
Proof.
  intros Hc. unfold alert_channels_of, known_channels. simpl.
  destruct (r_alert_channels r) as [cs|]; simpl; [|done].
  rewrite list_elem_of_filter. tauto.
Qed.

Lemma send_initial_alert_known r env w :
  send_initial_alert (known_channels r) env w = send_initial_alert r env w.
Proof.
  unfold send_initial_alert.
  pose proof (known_channels_elem_of r "slack" ltac:(set_solver)) as H.
  repeat case_decide; try done; exfalso; tauto.
Qed.

Lemma send_recovery_alert_known r inc env w :
  send_recovery_alert (known_channels r) inc env w =
  send_recovery_alert r inc env w.
Proof.
  unfold send_recovery_alert.
  pose proof (known_channels_elem_of r "slack" ltac:(set_solver)) as H.
  repeat case_decide; try done; exfalso; tauto.
Qed.

Lemma send_escalation_alert_known r inc n env w :
  send_escalation_alert (known_channels r) inc n env w =
  send_escalation_alert r inc n env w.
Proof.
  unfold send_escalation_alert.
  assert (bool_decide ("email" ∈ alert_channels_of (known_channels r)) =
          bool_decide ("email" ∈ alert_channels_of r)) as ->
    by (apply bool_decide_ext, known_channels_elem_of; set_solver).
  assert (bool_decide ("sms" ∈ alert_channels_of (known_channels r)) =
          bool_decide ("sms" ∈ alert_channels_of r)) as ->
    by (apply bool_decide_ext, known_channels_elem_of; set_solver).
  done.
Qed.

Lemma marking_loop_known (body : string → M unit) cs env w :
  for_each (filter (λ c, c ∈ ["slack"; "email"; "sms"]) cs)
    (λ channel,
       if decide (channel ∈ ["slack"; "email"; "sms"])
       then body channel else mret tt) env w =
  for_each cs
    (λ channel,
       if decide (channel ∈ ["slack"; "email"; "sms"])
       then body channel else mret tt) env w.
Proof.
  revert w. induction cs as [|c cs IH]; intros w; [done|].
  destruct (decide (c ∈ ["slack"; "email"; "sms"])) as [Hc|Hc].
  - rewrite filter_cons_True by done. cbn [for_each]. rewrite !bind_eq.
    destruct (decide (c ∈ ["slack"; "email"; "sms"])); [|done].
    destruct (body c env w) as [[[]|err] w1]; [apply IH|done].
  - rewrite filter_cons_False by done. cbn [for_each]. rewrite bind_eq.
    destruct (decide (c ∈ ["slack"; "email"; "sms"])); [done|].
    apply IH.
Qed.

Lemma handle_result_known r env w :
  handle_result (known_channels r) env w = handle_result r env w.
Proof.
  unfold handle_result. rewrite !bind_eq.
  change (r_target_id (known_channels r)) with (r_target_id r).
  change (r_status (known_channels r)) with (r_status r).
  change (r_check_id (known_channels r)) with (r_check_id r).
  destruct (get_open_incident (r_target_id r) env w) as [[[inc|]|err] w1];
    [| |done]; case_decide; try done.
  - rewrite !bind_eq. destruct (resolve_incident inc.1 env w1) as [[[]|err] w2];
      [|done]. apply send_recovery_alert_known.
  - rewrite !bind_eq.
    destruct (update_incident inc.1 (r_check_id r) true env w1)
      as [[[]|err] w2]; [|done].
    apply send_escalation_alert_known.
  - rewrite !bind_eq.
    destruct (create_incident (r_target_id r) (r_check_id r) env w1)
      as [[id|err] w2]; [|done].
    rewrite !bind_eq, send_initial_alert_known.
    destruct (send_initial_alert r env w2) as [[[]|err] w3]; [|done].
    unfold known_channels; simpl.
    destruct (r_alert_channels r) as [cs|]; simpl; [|done].
    apply marking_loop_known.
Qed.

(** C9. [mark_alert_sent] puts the channel it is given into the statement
    as it is, followed by ["_alerted"]: that text is what the store is
    asked to set.  In a call of [handle_result], every such statement
    names [slack_alerted], [email_alerted] or [sms_alerted], letter for
    letter, and the call never ends on a refused column.  The other
    channels of the target are passed over: the call does exactly what it
    does for the result without them, so nothing is marked for them and
    nothing is reported. *)
Theorem C9_marked_columns_are_known :
  (∀ id channel env w,
     ∃ committed,
       trace (mark_alert_sent id channel env w).2 =
         trace w ++ [EvSql (SetColumn (channel +:+ "_alerted") id) committed]) ∧
  (∀ env r w,
     ∃ evs,
       trace (handle_result r env w).2 = trace w ++ evs ∧
       (∀ column id committed,
          EvSql (SetColumn column id) committed ∈ evs →
          column ∈ ["slack_alerted"; "email_alerted"; "sms_alerted"]) ∧
       ∀ column, (handle_result r env w).1 ≠ Raise (NoSuchColumn column)) ∧
  (∀ env r w,
     handle_result r env w = handle_result (known_channels r) env w).
Proof.
  split_and!.
  - intros id channel env w.
    destruct (set_column (channel +:+ "_alerted")) as [set|] eqn:Hset.
    + destruct (mark_alert_sent_cases id channel set env w Hset)
        as [(msg & Hf & ->)| ->]; by eexists.
    + unfold mark_alert_sent. rewrite Hset. monad_unfold.
      destruct (plain_name _); [by eexists|].
      destruct (sqlite_text env _ _ _ _); by eexists.
  - intros env r w.
    destruct (handle_result_handled r env w) as (res & evs & m' & -> & H).
    destruct (handled_well_formed _ _ _ _ _ _ H) as [Hwf Hres].
    exists evs. simpl. split_and!; [apply trace_add_events| |done].
    intros column id committed Hin.
    by apply (proj1 (Forall_forall _ _) Hwf) in Hin.
  - intros env r w. symmetry. apply handle_result_known.
Qed.

(** ** Who is notified, and when *)

Lemma count_app p evs1 evs2 :
  count p (evs1 ++ evs2) = (count p evs1 + count p evs2)%nat.
Proof. induction evs1 as [|ev evs1 IH]; simpl; [done|]. rewrite IH. lia. Qed.

Lemma count_none p evs :
  Forall (λ ev, p ev = false) evs → count p evs = 0%nat.
Proof. induction 1 as [|ev evs Hev _ IH]; simpl; [done|]. by rewrite Hev, IH. Qed.

Lemma Forall_class (p q : Event → bool) b evs :
  (∀ ev, p ev = true → q ev = b) →
  Forall (λ ev, p ev = true) evs → Forall (λ ev, q ev = b) evs.
Proof. intros Hpq H. eapply Forall_impl; [exact H|]. exact Hpq. Qed.

(** The events of one run of the marking loop are statements. *)
Lemma marking_store_events env id cs m res evs m' :
  marking env id cs m res evs m' → Forall (λ ev, is_store_event ev = true) evs.
Proof. induction 1; by repeat constructor. Qed.

(** Events of [send_initial_alert] and [send_recovery_alert]. *)
Lemma initial_events_slack r evs :
  initial_events r evs →
  Forall (λ ev, is_slack_event ev = true) evs ∧
  ("slack" ∉ alert_channels_of r → evs = []) ∧
  count is_initial_alert evs =
    (if decide ("slack" ∈ alert_channels_of r) then 1 else 0)%nat.
Proof.
  unfold initial_events. case_decide; [|by intros ->].
  intros (tr & -> & Htr). split_and!; [|done|].
  - constructor; [done|]. eapply Forall_class; [|done]. by intros [].
  - simpl. rewrite count_none; [done|].
    eapply Forall_class; [|done]. by intros [].
Qed.

Lemma recovery_events_slack r k evs :
  recovery_events r k evs →
  Forall (λ ev, is_slack_event ev = true) evs ∧
  ("slack" ∉ alert_channels_of r → evs = []) ∧
  count is_initial_alert evs = 0%nat.
Proof.
  unfold recovery_events. case_decide; [|by intros ->].
  intros (tr & -> & Htr). split_and!; [|done|].
  - constructor; [done|]. eapply Forall_class; [|done]. by intros [].
  - simpl. apply count_none. eapply Forall_class; [|done]. by intros [].
Qed.

(** Events of [send_escalation_alert]. *)
Lemma email_events_class env r n evs :
  email_events env r n evs →
  Forall (λ ev, is_email_or_sms_event ev = true) evs ∧
  (evs ≠ [] → email_due env r n = true) ∧
  count is_email_escalation evs = (if email_due env r n then 1 else 0)%nat ∧
  count is_sms_escalation evs = 0%nat.
Proof.
  unfold email_events. destruct (email_due env r n); [|by intros ->].
  intros (tr & -> & Htr). split_and!; [|done| |]; simpl.
  - constructor; [done|]. eapply Forall_class; [|done]. by intros [].
  - rewrite count_none; [done|]. eapply Forall_class; [|done]. by intros [].
  - apply count_none. eapply Forall_class; [|done]. by intros [].
Qed.

Lemma sms_events_class env r n evs :
  sms_events env r n evs →
  Forall (λ ev, is_email_or_sms_event ev = true) evs ∧
  (evs ≠ [] → sms_due env r n = true) ∧
  count is_sms_escalation evs = (if sms_due env r n then 1 else 0)%nat ∧
  count is_email_escalation evs = 0%nat.
Proof.
  unfold sms_events. destruct (sms_due env r n); [|by intros ->].
  intros (tr & -> & Htr). split_and!; [|done| |]; simpl.
  - constructor; [done|]. eapply Forall_class; [|done]. by intros [| | |[]| | | |].
  - rewrite count_none; [done|].
    eapply Forall_class; [|done]. by intros [| | |[]| | | |].
  - apply count_none.
    eapply Forall_class; [|done]. by intros [| | |[]| | | |].
Qed.

Lemma handled_notifications env r m res evs m' :
  handled env r m res evs m' →
  ∃ pre notes post,
    evs = pre ++ notes ++ post ∧
    Forall (λ ev, is_store_event ev = true) pre ∧
    Forall (λ ev, is_store_event ev = true) post ∧
    notifications_of env r m res notes.
Proof.
  unfold notifications_of.
  intros [msg Hf| Hst Hsel |id i msg Hst Hsel Hf | id i now evs0 Hst Hsel Hev
         | id i msg Hst Hsel Hf | id i res0 evs0 Hst Hsel Hev
         | msg Hst Hsel Hf | now evs_a res0 evs_m m0 Hst Hsel Hev Hm].
  - exists [EvSql (SelectOpenIncident (r_target_id r)) false], [], [].
    split_and!; [done|by repeat constructor|done|].
    repeat case_match; auto.
  - eexists [_], [], []. rewrite Hsel, decide_True by done.
    split_and!; [done|by repeat constructor|done|done].
  - eexists [_; _], [], []. rewrite Hsel, decide_True by done.
    split_and!; [done|by repeat constructor|done|by left].
  - eexists [_; _], evs0, []. rewrite Hsel, decide_True by done.
    split_and!; [by rewrite app_nil_r|by repeat constructor|done|by right].
  - eexists [_; _], [], []. rewrite Hsel, decide_False by done.
    split_and!; [done|by repeat constructor|done|by left].
  - eexists [_; _], evs0, []. rewrite Hsel, decide_False by done.
    split_and!; [by rewrite app_nil_r|by repeat constructor|done|by right].
  - eexists [_; _], [], []. rewrite Hsel, decide_False by done.
    split_and!; [done|by repeat constructor|done|by left].
  - eexists [_; _], evs_a, evs_m. rewrite Hsel, decide_False by done.
    split_and!; [done|by repeat constructor| |by right].
    by eapply marking_store_events.
Qed.

Lemma escalation_events_class env r n res evs :
  escalation_events env r n res evs →
  Forall (λ ev, is_email_or_sms_event ev = true) evs ∧
  (evs ≠ [] → email_due env r n = true ∨ sms_due env r n = true) ∧
  (0 < count is_email_escalation evs → email_due env r n = true)%nat ∧
  (0 < count is_sms_escalation evs → sms_due env r n = true)%nat.
Proof.
  intros (evs_e & evs_s & -> & He & _ & Hs).
  destruct (email_events_class _ _ _ _ He) as (Hce & Hde & Hne & Hnse).
  assert (Forall (λ ev, is_email_or_sms_event ev = true) evs_s ∧
          (evs_s ≠ [] → sms_due env r n = true) ∧
          (0 < count is_sms_escalation evs_s → sms_due env r n = true)%nat ∧
          count is_email_escalation evs_s = 0%nat) as (Hcs & Hds & Hns & Hnes).
  { destruct Hs as [Hs|[-> _]]; [|split_and!; try done; simpl; lia].
    destruct (sms_events_class _ _ _ _ Hs) as (? & ? & Hn & ?).
    split_and!; try done. rewrite Hn. case_match; [done|lia]. }
  rewrite !count_app, Hnes, Hnse, Hne. split_and!.
  - by apply Forall_app.
  - destruct evs_e; [|by left; apply Hde]. destruct evs_s; [done|].
    right. by apply Hds.
  - case_match; [done|lia].
  - simpl. done.
Qed.

Lemma count_pos p ev evs : ev ∈ evs → p ev = true → (0 < count p evs)%nat.
Proof.
  induction 1 as [ev evs|ev ev' evs Hin IH]; simpl; intros Hp.
  - rewrite Hp. lia.
  - specialize (IH Hp). lia.
Qed.

Lemma elem_of_store_event (p : Event → bool) ev evs :
  (∀ ev, is_store_event ev = true → p ev = false) →
  Forall (λ ev, is_store_event ev = true) evs →
  ev ∈ evs → p ev = true → False.
Proof.
  intros Hp Hevs Hin Hev.
  apply (proj1 (Forall_forall _ _) Hevs), Hp in Hin. congruence.
Qed.

(** Outside the escalation path. *)
Lemma notifications_slack env r m res notes :
  notifications_of env r m res notes →
  r_status r = success ∨ select_open_incident (r_target_id r) m = None →
  Forall (λ ev, is_slack_event ev = true) notes ∧
  ("slack" ∉ alert_channels_of r → notes = []).
Proof.
  unfold notifications_of. intros Hn Hcase.
  destruct (select_open_incident (r_target_id r) m) as [[id i]|];
    case_decide; try (by destruct Hcase).
  - destruct Hn as [->|Hn]; [done|].
    by destruct (recovery_events_slack _ _ _ Hn) as (? & ? & _).
  - by subst.
  - destruct Hn as [->|Hn]; [done|].
    by destruct (initial_events_slack _ _ Hn) as (? & ? & _).
Qed.

(** On the escalation path. *)
Lemma notifications_escalation env r m res notes id i :
  notifications_of env r m res notes →
  r_status r ≠ success →
  select_open_incident (r_target_id r) m = Some (id, i) →
  Forall (λ ev, is_email_or_sms_event ev = true) notes ∧
  (notes ≠ [] → email_due env r (i_failure_count i + 1) = true ∨
                sms_due env r (i_failure_count i + 1) = true) ∧
  (0 < count is_email_escalation notes →
   email_due env r (i_failure_count i + 1) = true)%nat ∧
  (0 < count is_sms_escalation notes →
   sms_due env r (i_failure_count i + 1) = true)%nat.
Proof.
  unfold notifications_of. intros Hn Hst Hsel.
  rewrite Hsel, decide_False in Hn by done.
  destruct Hn as [->|Hn]; [split_and!; try done; simpl; lia|].
  by apply escalation_events_class in Hn.
Qed.

(** C10. In a call of [handle_result], every notification event raised when
    an incident is created or resolved is a Slack one (the call of
    [_send_slack] and the CLI behind it), and there is one only when
    ["slack"] is among the result's [alert_channels]: without it the call
    adds nothing but statements to the trace.  An email or SMS event, of
    the alerter or of a transport, occurs only on a non-success check that
    continues an open incident and brings its count to the threshold of a
    channel due for it; the escalation mail only at the email threshold
    with email listed and enabled, the SMS only at the SMS threshold with
    sms listed and enabled.  No Slack event occurs on that path. *)
Theorem C10_slack_only_outside_escalation :
  ∀ env r w,
    ∃ evs,
      trace (handle_result r env w).2 = trace w ++ evs ∧
      (∀ ev, ev ∈ evs → is_slack_event ev = true →
             "slack" ∈ alert_channels_of r ∧
             (r_status r = success ∨
              select_open_incident (r_target_id r) (incidents w) = None)) ∧
      (∀ ev, ev ∈ evs → is_email_or_sms_event ev = true →
             r_status r ≠ success ∧
             ∃ id i,
               select_open_incident (r_target_id r) (incidents w) =
                 Some (id, i) ∧
               (email_due env r (i_failure_count i + 1) = true ∨
                sms_due env r (i_failure_count i + 1) = true) ∧
               (is_email_escalation ev = true →
                email_due env r (i_failure_count i + 1) = true) ∧
               (is_sms_escalation ev = true →
                sms_due env r (i_failure_count i + 1) = true)) ∧
      ((r_status r = success ∨
        select_open_incident (r_target_id r) (incidents w) = None) →
       "slack" ∉ alert_channels_of r →
       Forall (λ ev, is_store_event ev = true) evs).
Proof.
  intros env r w.
  destruct (handle_result_handled r env w) as (res & evs & m' & -> & H).
  exists evs. split; [apply trace_add_events|].
  destruct (handled_notifications _ _ _ _ _ _ H)
    as (pre & notes & post & -> & Hpre & Hpost & Hnotes).
  assert (∀ (p : Event → bool) ev,
            (∀ ev, is_store_event ev = true → p ev = false) →
            ev ∈ pre ++ notes ++ post → p ev = true → ev ∈ notes) as Hin.
  { intros p ev Hp [Hev|[Hev|Hev]%elem_of_app]%elem_of_app Hpev;
      [destruct (elem_of_store_event p ev pre Hp Hpre Hev Hpev)
      |done
      |destruct (elem_of_store_event p ev post Hp Hpost Hev Hpev)]. }
  destruct (decide (r_status r = success ∨
                    select_open_incident (r_target_id r) (incidents w) = None))
    as [Hcase|Hcase].
  - destruct (notifications_slack _ _ _ _ _ Hnotes Hcase) as [Hslack Hnone].
    split_and!.
    + intros ev Hev Hs. apply (Hin is_slack_event) in Hev; [|by intros []|done].
      split; [|done].
      destruct (decide ("slack" ∈ alert_channels_of r)) as [|Hno]; [done|].
      rewrite (Hnone Hno) in Hev. by apply elem_of_nil in Hev.
    + intros ev Hev He.
      apply (Hin is_email_or_sms_event) in Hev; [|by intros []|done].
      apply (proj1 (Forall_forall _ _) Hslack) in Hev. by destruct ev.
    + intros _ Hno. rewrite (Hnone Hno). by apply Forall_app.
  - assert (r_status r ≠ success) as Hst by tauto.
    destruct (select_open_incident (r_target_id r) (incidents w))
      as [[id i]|] eqn:Hsel; [|tauto].
    destruct (notifications_escalation _ _ _ _ _ _ _ Hnotes Hst Hsel)
      as (Hclass & Hdue & Hemail & Hsms).
    split_and!.
    + intros ev Hev Hs. apply (Hin is_slack_event) in Hev; [|by intros []|done].
      apply (proj1 (Forall_forall _ _) Hclass) in Hev. by destruct ev.
    + intros ev Hev He.
      apply (Hin is_email_or_sms_event) in Hev; [|by intros []|done].
      split; [done|]. exists id, i. split_and!; [done| | |].
      * apply Hdue. intros ->. by apply elem_of_nil in Hev.
      * intros Hp. apply Hemail. by eapply count_pos.
      * intros Hp. apply Hsms. by eapply count_pos.
    + tauto.
Qed.

(** ** Escalation *)

Lemma absorbed_port_ok env res : port_ok env → absorbed env res → res = Ok tt.
Proof. by intros Hport [->|[Hno _]]. Qed.

Lemma count_store_events p evs :
  (∀ ev, is_store_event ev = true → p ev = false) →
  Forall (λ ev, is_store_event ev = true) evs → count p evs = 0%nat.
Proof. intros Hp Hevs. apply count_none. by eapply Forall_class. Qed.

Lemma escalation_counts env r n res evs :
  port_ok env → escalation_events env r n res evs →
  count is_email_escalation evs = (if email_due env r n then 1 else 0)%nat ∧
  count is_sms_escalation evs = (if sms_due env r n then 1 else 0)%nat ∧
  count is_initial_alert evs = 0%nat.
Proof.
  intros Hport Hev.
  destruct (escalation_events_class _ _ _ _ _ Hev) as (Hclass & _).
  destruct Hev as (evs_e & evs_s & -> & He & Hres & Hs).
  apply absorbed_port_ok in Hres; [|done].
  destruct Hs as [Hs|[_ ?]]; [|done].
  destruct (email_events_class _ _ _ _ He) as (_ & _ & Hee & Hes).
  destruct (sms_events_class _ _ _ _ Hs) as (_ & _ & Hss & Hse).
  rewrite !count_app, Hee, Hes, Hss, Hse. split_and!; [lia|lia|].
  rewrite <- count_app. apply count_none.
  eapply Forall_class; [|done]. by intros [].
Qed.

(** The notifications of a failure that continues an open incident. *)
Lemma failure_continues_events env r w id i :
  store_ok env → port_ok env → r_status r ≠ success →
  the_open_incident (r_target_id r) (incidents w) id i →
  ∃ evs,
    trace (handle_result r env w).2 = trace w ++ evs ∧
    count is_email_escalation evs =
      (if email_due env r (i_failure_count i + 1) then 1 else 0)%nat ∧
    count is_sms_escalation evs =
      (if sms_due env r (i_failure_count i + 1) then 1 else 0)%nat ∧
    count is_initial_alert evs = 0%nat.
Proof.
  intros Hok Hport Hst Hopen.
  destruct (handle_result_handled r env w) as (res & evs & m' & -> & H).
  exists evs. split; [apply trace_add_events|].
  apply the_open_incident_select in Hopen as Hsel.
  destruct H; try (exfalso; eapply store_ok_not_faulty; eassumption);
    simplify_eq.
  simpl. by eapply escalation_counts.
Qed.

(** The notifications of a failure that opens an incident. *)
Lemma failure_opens_events env r w :
  store_ok env → r_status r ≠ success →
  select_open_incident (r_target_id r) (incidents w) = None →
  ∃ evs,
    trace (handle_result r env w).2 = trace w ++ evs ∧
    count is_email_escalation evs = 0%nat ∧
    count is_sms_escalation evs = 0%nat ∧
    count is_initial_alert evs =
      (if decide ("slack" ∈ alert_channels_of r) then 1 else 0)%nat.
Proof.
  intros Hok Hst Hsel.
  destruct (handle_result_handled r env w) as (res & evs & m' & -> & H).
  exists evs. split; [apply trace_add_events|].
  destruct H as [| | | | | | |now evs_a res0 evs_m m0 _ _ Hev Hm];
    try (exfalso; eapply store_ok_not_faulty; eassumption); simplify_eq.
  destruct (initial_events_slack _ _ Hev) as (Hslack & _ & Hcount).
  apply marking_store_events in Hm.
  simpl. rewrite !count_app, Hcount.
  rewrite !(count_store_events _ evs_m) by (done || by intros []).
  rewrite !(count_none _ evs_a); [done| |];
    (eapply Forall_class; [|done]); by intros [].
Qed.

Lemma due_count_once due T :
  (∀ r n, due r n = true → n = T) →
  ∀ results n,
    due_count due n results =
    if decide (n ≤ T)
    then match results !! Z.to_nat (T - n) with
         | Some r => if due r T then 1%nat else 0%nat
         | None => 0%nat
         end
    else 0%nat.
Proof.
  intros Hdue results.
  induction results as [|r rs IH]; intros n; simpl.
  - by case_decide.
  - rewrite IH. destruct (decide (n = T)) as [->|Hn].
    + rewrite (decide_False (P := T + 1 ≤ T)) by lia.
      rewrite (decide_True (P := T ≤ T)) by lia.
      replace (T - T) with 0 by lia. simpl. lia.
    + assert (due r n = false) as ->.
      { destruct (due r n) eqn:Hd; [|done]. by apply Hdue in Hd. }
      destruct (decide (n ≤ T)).
      * rewrite (decide_True (P := n + 1 ≤ T)) by lia.
        replace (Z.to_nat (T - n)) with (S (Z.to_nat (T - (n + 1)))) by lia.
        done.
      * by rewrite (decide_False (P := n + 1 ≤ T)) by lia.
Qed.

Lemma email_due_at_threshold env r n :
  email_due env r n = true → n = email_threshold env.
Proof.
  unfold email_due. intros H. apply andb_true_iff in H as [H _].
  apply andb_true_iff in H as [H _]. by apply bool_decide_eq_true in H.
Qed.

Lemma sms_due_at_threshold env r n :
  sms_due env r n = true → n = sms_threshold env.
Proof.
  unfold sms_due. intros H. apply andb_true_iff in H as [H _].
  apply andb_true_iff in H as [H _]. by apply bool_decide_eq_true in H.
Qed.

Lemma failures_continue_events env target_id results w id i :
  store_ok env → port_ok env → failures_of target_id results →
  the_open_incident target_id (incidents w) id i →
  ∃ evs,
    trace (handle_results env results w) = trace w ++ evs ∧
    count is_email_escalation evs =
      due_count (email_due env) (i_failure_count i + 1) results ∧
    count is_sms_escalation evs =
      due_count (sms_due env) (i_failure_count i + 1) results ∧
    count is_initial_alert evs = 0%nat.
Proof.
  intros Hok Hport Hrs. revert w i.
  induction Hrs as [|r rs [Ht Hst] Hrs IH]; intros w i Hopen.
  - exists []. by rewrite app_nil_r.
  - simpl. subst target_id.
    destruct (failure_continues_events env r w id i Hok Hport Hst Hopen)
      as (evs1 & Htr1 & He1 & Hs1 & Hi1).
    destruct (IH _ _ (failure_continues env r w id i Hok Hst Hopen))
      as (evs2 & Htr2 & He2 & Hs2 & Hi2).
    exists (evs1 ++ evs2). rewrite Htr2, Htr1, !count_app.
    rewrite He1, He2, Hs1, Hs2, Hi1, Hi2. split_and!; try done.
    by rewrite app_assoc.
Qed.

Lemma fires_once_cons due T r results :
  (∀ r n, due r n = true → n = T) →
  due_count due 2 results = fires_once due T (r :: results).
Proof.
  intros Hdue. rewrite (due_count_once due T Hdue). unfold fires_once.
  case_decide; [|done].
  by replace (Z.to_nat (T - 1)) with (S (Z.to_nat (T - 2))) by lia.
Qed.

(** C2 (as the code has it). Take a target without an open incident, a
    run of consecutive non-success results for it, the store answering
    and [SMTP_PORT] readable.  The result of rank k (from 0) brings the
    count to k + 1.  The initial alert is sent at rank 0 only, when slack
    is listed.  The escalation of a channel is decided only from rank 1 on,
    that is for counts of 2 and more: the escalation mail is sent at rank
    k >= 1 exactly when k + 1 is the email threshold, email is among the
    result's channels and email is enabled (it is when the configuration
    does not say); the SMS likewise with the SMS threshold (disabled when
    the configuration does not say).  Over the whole run each escalation
    is therefore sent once if the run reaches its threshold T >= 2 with
    the channel listed and enabled on that result, and never otherwise: in
    particular never for T <= 1. *)
Theorem C2_escalation_fires_once_at_threshold :
  ∀ env target_id results w,
    store_ok env → port_ok env →
    select_open_incident target_id (incidents w) = None →
    failures_of target_id results →
    (∀ k r,
       results !! k = Some r →
       let w_k := handle_results env (take k results) w in
       ∃ evs,
         trace (handle_result r env w_k).2 = trace w_k ++ evs ∧
         count is_email_escalation evs =
           (if bool_decide (1 ≤ k)%nat && email_due env r (Z.of_nat k + 1)
            then 1 else 0)%nat ∧
         count is_sms_escalation evs =
           (if bool_decide (1 ≤ k)%nat && sms_due env r (Z.of_nat k + 1)
            then 1 else 0)%nat ∧
         count is_initial_alert evs =
           (if bool_decide (k = 0%nat) &&
               bool_decide ("slack" ∈ alert_channels_of r)
            then 1 else 0)%nat) ∧
    (∃ evs,
       trace (handle_results env results w) = trace w ++ evs ∧
       count is_email_escalation evs =
         fires_once (email_due env) (email_threshold env) results ∧
       count is_sms_escalation evs =
         fires_once (sms_due env) (sms_threshold env) results ∧
       count is_initial_alert evs =
         match results with
         | r :: _ => if decide ("slack" ∈ alert_channels_of r) then 1 else 0
         | [] => 0
         end%nat) ∧
    (∀ r n,
       (email_due env r n = true ↔
        n = default 3 (email_escalate_after (email_config_of env)) ∧
        "email" ∈ alert_channels_of r ∧
        default true (email_enabled (email_config_of env)) = true) ∧
       (sms_due env r n = true ↔
        n = default 5 (sms_escalate_after (sms_config_of env)) ∧
        "sms" ∈ alert_channels_of r ∧
        default false (sms_enabled (sms_config_of env)) = true)).
Proof.
  intros env target_id results w Hok Hport Hsel Hrs. split_and!.
  - intros k r Hk w_k.
    destruct results as [|r0 rs]; [done|].
    apply Forall_cons in Hrs as [[Ht0 Hst0] Hrs]. subst target_id.
    destruct k as [|k]; simpl in Hk.
    + simplify_eq. subst w_k. simpl.
      destruct (failure_opens_events env r w Hok Hst0 Hsel)
        as (evs & Htr & He & Hs & Hi).
      exists evs. rewrite He, Hs, Hi. split_and!; try done.
      case_decide; [by rewrite bool_decide_eq_true_2
                   |by rewrite bool_decide_eq_false_2].
    + destruct (failure_opens env r0 w Hok Hst0 Hsel)
        as (now & i1 & Hopen & Hflags).
      assert (failures_of (r_target_id r0) (take k rs)) as Htake
        by (by apply Forall_take).
      destruct (failures_continue env _ _ _ _ _ Hok Htake Hopen)
        as (i' & Hopen' & Hcount).
      apply (proj1 (Forall_lookup _ _) Hrs) in Hk as Hr.
      destruct Hr as [Htr Hstr]. rewrite <- Htr in Hopen'.
      destruct (failure_continues_events env r _ _ _ Hok Hport Hstr Hopen')
        as (evs & Htrace & He & Hs & Hi).
      exists evs. subst w_k. simpl. rewrite He, Hs, Hi.
      destruct Hflags as (_ & _ & _ & _ & Hc & _).
      rewrite Hcount, Hc. simpl i_failure_count.
      apply lookup_lt_Some in Hk.
      rewrite length_take, Nat.min_l by lia.
      replace (1 + Z.of_nat k + 1) with (Z.of_nat (S k) + 1) by lia.
      done.
  - destruct Hrs as [|r0 rs [Ht0 Hst0] Hrs].
    { exists []. rewrite app_nil_r. unfold fires_once.
      split_and!; try done; by case_decide. }
    subst target_id. simpl.
    destruct (failure_opens_events env r0 w Hok Hst0 Hsel)
      as (evs0 & Htr0 & He0 & Hs0 & Hi0).
    destruct (failure_opens env r0 w Hok Hst0 Hsel)
      as (now & i1 & Hopen & Hflags).
    destruct (failures_continue_events env _ _ _ _ _ Hok Hport Hrs Hopen)
      as (evs & Htr & He & Hs & Hi).
    destruct Hflags as (_ & _ & _ & _ & Hc & _).
    rewrite Hc in He, Hs. simpl in He, Hs.
    exists (evs0 ++ evs). rewrite Htr, Htr0, !count_app.
    rewrite He0, Hs0, Hi0, He, Hs, Hi. split_and!.
    + by rewrite app_assoc.
    + apply fires_once_cons, email_due_at_threshold.
    + apply fires_once_cons, sms_due_at_threshold.
    + lia.
  - intros r n. unfold email_due, sms_due, email_threshold, sms_threshold.
    rewrite !andb_true_iff, !bool_decide_eq_true. tauto.
Qed.

(** ** Notification is best effort *)

Lemma set_column_alerted c set i :
  c ∈ ["slack"; "email"; "sms"] →
  set_column (c +:+ "_alerted") = Some set →
  alerted c (set i) = true ∧
  ∀ c', alerted c' i = true → alerted c' (set i) = true.
Proof.
  rewrite !elem_of_cons, elem_of_nil.
  intros [->|[->|[->|[]]]]; simpl; intros [= <-]; (split; [done|]);
    intros c'; unfold alerted; repeat case_decide; simpl; done.
Qed.

Lemma marking_marks env id cs m res evs m' :
  store_ok env → marking env id cs m res evs m' →
  res = Ok tt ∧
  ∀ i, m !! id = Some i →
       ∃ i', m' !! id = Some i' ∧
             (∀ c, c ∈ cs → c ∈ ["slack"; "email"; "sms"] →
                   alerted c i' = true) ∧
             (∀ c, alerted c i = true → alerted c i' = true).
Proof.
  intros Hok.
  induction 1 as [m|c cs m res evs m' Hc Hm [-> IH]|c cs m set msg Hc Hset Hf
                 |c cs m set res evs m' Hc Hset Hm [-> IH]].
  - split; [done|]. intros i Hi. exists i. split_and!; [done| |done].
    intros c Hin. by apply elem_of_nil in Hin.
  - split; [done|]. intros i Hi.
    destruct (IH i Hi) as (i' & Hi' & Hcs & Hmono).
    exists i'. split_and!; [done| |done].
    intros c' [->|Hin]%elem_of_cons Hk; [done|by apply Hcs].
  - by destruct (store_ok_not_faulty env msg).
  - split; [done|]. intros i Hi.
    destruct (IH (set i)) as (i' & Hi' & Hcs & Hmono).
    { by rewrite lookup_alter_eq, Hi. }
    destruct (set_column_alerted c set i Hc Hset) as [Hset_c Hset_mono].
    exists i'. split_and!; [done| |by eauto].
    intros c' [->|Hin]%elem_of_cons Hk; [by apply Hmono|by apply Hcs].
Qed.

Lemma mutation_first e1 s evs before ev after :
  is_store_event e1 = true →
  e1 :: EvSql s true :: evs = before ++ ev :: after →
  is_store_event ev = false →
  EvSql s true ∈ before.
Proof.
  intros He1 Heq Hev.
  destruct before as [|e1' [|e2 before]]; simpl in Heq.
  - injection Heq as <- _. congruence.
  - injection Heq as _ <- _. done.
  - injection Heq as _ <- _. apply elem_of_cons. right. apply list_elem_of_here.
Qed.

(** C6 (as the code has it). When the store answers, and whatever the
    transports do (the Slack CLI, the SMTP session and the Twilio client
    may raise or fail at will, credentials may be missing): the table
    after a call of [handle_result] is the one the transition calls for,
    the same as if every send had succeeded; in the trace, every event of
    the alerter or of a transport comes after the committed statement
    that creates, updates or resolves the incident; on creation every
    channel of the result's [alert_channels] that is one of slack, email,
    sms has its flag set on the new row; and, [SMTP_PORT] being unset or
    an integer, the call ends normally. *)
Theorem C6_notification_is_best_effort :
  ∀ env r w,
    store_ok env →
    persisted r (incidents w) (incidents (handle_result r env w).2) ∧
    (∃ evs,
       trace (handle_result r env w).2 = trace w ++ evs ∧
       ∀ before ev after,
         evs = before ++ ev :: after → is_store_event ev = false →
         ∃ s, is_mutation s = true ∧ EvSql s true ∈ before) ∧
    (port_ok env → (handle_result r env w).1 = Ok tt).
Proof.
  intros env r w Hok.
  destruct (handle_result_handled r env w) as (res & evs & m' & -> & H).
  unfold persisted. simpl.
  destruct H as [| Hst Hsel | |id i now evs0 Hst Hsel Hev
                | |id i res evs0 Hst Hsel Hev
                | |now evs_a res evs_m m' Hst Hsel Hev Hm];
    try (exfalso; eapply store_ok_not_faulty; eassumption);
    rewrite Hsel, ?decide_True, ?decide_False by done.
  - split_and!; [done| |done].
    eexists. split; [apply trace_add_events|].
    intros [|? [|? ?]] ev after Heq Hev; simplify_eq/=.
  - split_and!; [by eauto| |done].
    eexists. split; [apply trace_add_events|].
    intros before ev after Heq Hev'. exists (ResolveIncident id).
    split; [done|]. by eapply mutation_first; [|exact Heq|].
  - split_and!; [done| |].
    + eexists. split; [apply trace_add_events|].
      intros before ev after Heq Hev'.
      exists (UpdateIncident id (r_check_id r) true).
      split; [done|]. by eapply mutation_first; [|exact Heq|].
    + intros Hport. destruct Hev as (_ & _ & _ & _ & Hres & _).
      by apply absorbed_port_ok in Hres.
  - destruct (marking_marks _ _ _ _ _ _ _ Hok Hm) as [-> Hmarks].
    destruct (Hmarks _ (lookup_insert_eq _ _ _)) as (i' & Hi' & Hcs & _).
    destruct (created_the_open_incident _ _ _ _ _ _ _ Hsel Hm)
      as (i'' & (Hi'' & _) & Hflags).
    simplify_eq. split_and!; [by eauto 10| |done].
    eexists. split; [apply trace_add_events|].
    intros before ev after Heq Hev'.
    exists (InsertIncident (r_target_id r) (r_check_id r)).
    split; [done|]. by eapply mutation_first; [|exact Heq|].
Qed.

(** ** Concrete runs *)

Lemma store_ok_test_env : store_ok test_env.
Proof. intros n. reflexivity. Defined.

Lemma one_open_empty : one_open_per_target ∅.
Proof. intros id1 id2 i1 i2 H1. by rewrite lookup_empty in H1. Defined.

(** The one open incident, read off the rows of the table. *)
Lemma the_open_incident_listed target_id m id i :
  filter (open_for target_id) (map_to_list m) = [(id, i)] →
  the_open_incident target_id m id i.
Proof.
  intros Hl.
  assert (∀ id' i', m !! id' = Some i' → open_for target_id (id', i') →
                    (id', i') = (id, i)) as Honly.
  { intros id' i' Hm Hopen.
    assert ((id', i') ∈ filter (open_for target_id) (map_to_list m)) as Hin.
    { apply list_elem_of_filter. split; [done|]. by apply elem_of_map_to_list. }
    rewrite Hl in Hin. by apply list_elem_of_singleton in Hin. }
  assert ((id, i) ∈ filter (open_for target_id) (map_to_list m)) as Hin
    by (rewrite Hl; apply list_elem_of_here).
  apply list_elem_of_filter in Hin as [Hopen Hin].
  apply elem_of_map_to_list in Hin.
  split_and!; [done|done|]. intros id' i' Hm' Hopen'.
  by injection (Honly id' i' Hm' Hopen').
Defined.

(** Two failures, a recovery, a failure: one open incident at most. *)
Lemma C1_witness :
  one_open_per_target (incidents fresh_store) ∧
  one_open_per_target
    (incidents
       (handle_results test_env
          [down 1 ["slack"; "email"]; down 2 ["slack"; "email"];
           up 3 ["slack"; "email"]; down 4 ["slack"; "email"]]
          fresh_store)).
Proof.
  split; [exact one_open_empty|].
  apply (proj1 C1_at_most_one_open_incident). exact one_open_empty.
Defined.

(** Five failures with email after 3 and SMS after 5, all three channels
    listed: one initial alert, one escalation mail, one SMS. *)
Lemma C2_witness :
  ∃ evs,
    trace
      (handle_results test_env
         [down 1 ["slack"; "email"; "sms"]; down 2 ["slack"; "email"; "sms"];
          down 3 ["slack"; "email"; "sms"]; down 4 ["slack"; "email"; "sms"];
          down 5 ["slack"; "email"; "sms"]] fresh_store) =
      trace fresh_store ++ evs ∧
    count is_email_escalation evs = 1%nat ∧
    count is_sms_escalation evs = 1%nat ∧
    count is_initial_alert evs = 1%nat.
Proof.
  destruct (C2_escalation_fires_once_at_threshold test_env 1
              [down 1 ["slack"; "email"; "sms"];
               down 2 ["slack"; "email"; "sms"];
               down 3 ["slack"; "email"; "sms"];
               down 4 ["slack"; "email"; "sms"];
               down 5 ["slack"; "email"; "sms"]] fresh_store)
    as (_ & (evs & Htrace & He & Hs & Hi) & _).
  - exact store_ok_test_env.
  - unfold port_ok. simpl. by eexists.
  - reflexivity.
  - repeat constructor; done.
  - exists evs. split; [exact Htrace|]. rewrite He, Hs, Hi.
    split_and!; vm_compute; reflexivity.
Defined.

(** With email escalating after 1 failure, listed and enabled: the count
    is 1 after the first failure, and no escalation mail is sent then or
    later. *)
Lemma C2_counterexample :
  email_threshold escalate_after_1_env = 1 ∧
  email_due escalate_after_1_env (down 1 ["slack"; "email"]) 1 = true ∧
  i_failure_count <$>
    incidents
      (handle_results escalate_after_1_env [down 1 ["slack"; "email"]]
         fresh_store) !! 1 = Some 1 ∧
  count is_email_escalation
    (trace
       (handle_results escalate_after_1_env
          [down 1 ["slack"; "email"]; down 2 ["slack"; "email"];
           down 3 ["slack"; "email"]] fresh_store)) = 0%nat.
Proof. split_and!; vm_compute; reflexivity. Qed.

(** Three failures: the count is 3. *)
Lemma C3_witness :
  ∃ id i,
    select_open_incident 1
      (incidents
         (handle_results test_env
            [down 1 ["slack"]; down 2 ["slack"]; down 3 ["slack"]]
            fresh_store)) = Some (id, i) ∧
    i_failure_count i = 3.
Proof.
  apply (proj1 C3_failure_count_is_run_length test_env 1
           [down 1 ["slack"]; down 2 ["slack"]; down 3 ["slack"]] fresh_store).
  - exact store_ok_test_env.
  - reflexivity.
  - repeat constructor; done.
  - done.
Defined.

(** After two failures, a success: the incident is resolved, the target
    has no open incident, and the call ends normally. *)
Lemma C4_witness :
  (handle_result (up 3 ["slack"; "email"]) test_env
     (handle_results test_env
        [down 1 ["slack"; "email"]; down 2 ["slack"; "email"]]
        fresh_store)).1 = Ok tt ∧
  select_open_incident 1
    (incidents
       (handle_result (up 3 ["slack"; "email"]) test_env
          (handle_results test_env
             [down 1 ["slack"; "email"]; down 2 ["slack"; "email"]]
             fresh_store)).2) = None.
Proof.
  destruct (proj1 C4_resolution_is_terminal test_env (up 3 ["slack"; "email"])
              (handle_results test_env
                 [down 1 ["slack"; "email"]; down 2 ["slack"; "email"]]
                 fresh_store)
              1
              {| i_target_id := 1; i_status := open;
                 i_started_at := 1700000002; i_resolved_at := None;
                 i_failure_count := 2; i_last_check_id := 2;
                 i_slack_alerted := true; i_email_alerted := true;
                 i_sms_alerted := false |})
    as (Hres & _ & Hnone & _).
  - exact store_ok_test_env.
  - reflexivity.
  - apply the_open_incident_listed. vm_compute. reflexivity.
  - split; [exact Hres|exact Hnone].
Defined.

(** The probe of [test_service] answers 500. *)
Lemma C5_witness :
  ∃ r w',
    check_target test_service test_env fresh_store = (Ok r, w') ∧
    (r_status r, r_error_message r, r_response_time r) =
      (failure, Some "Expected 200, got 500", Some 150.5%float).
Proof.
  destruct (proj1 C5_classification_unless_store_raises test_env test_service
              fresh_store eq_refl)
    as (r & w' & Hrun & _ & Honly & _).
  destruct (Honly failure (Some "Expected 200, got 500") (Some 150.5%float))
    as (Hst & Hrt & Hmsg).
  { by apply (classified_status test_service 500). }
  exists r, w'. split; [exact Hrun|].
  rewrite <- Hst, <- Hrt, <- Hmsg; [reflexivity|].
  rewrite <- Hst. discriminate.
Defined.

(** The scenarios of the spec and of [TestWatchdogChecking]. *)
Example checked_healthy :
  checked healthy_service (Response 200 "Status: healthy" 150.5) =
  Some (success, Some 200, None).
Proof. vm_compute. reflexivity. Qed.

Example checked_degraded :
  checked healthy_service (Response 200 "Status: degraded" 150.5) =
  Some (failure, Some 200, Some "Expected content 'healthy' not found").
Proof. vm_compute. reflexivity. Qed.

Example checked_500 :
  checked healthy_service (Response 500 "Internal Server Error" 150.5) =
  Some (failure, Some 500, Some "Expected 200, got 500").
Proof. vm_compute. reflexivity. Qed.

Example checked_timeout :
  checked healthy_service (ProbeRaised (RequestsTimeout "Connection timeout")) =
  Some (timeout, None, Some "Timeout after 10s").
Proof. vm_compute. reflexivity. Qed.

Example checked_connection_error :
  checked healthy_service (ProbeRaised (OtherError "Connection refused")) =
  Some (error, None, Some "Connection refused").
Proof. vm_compute. reflexivity. Qed.

(** A first failure while no transport can be reached: the call ends
    normally and the incident is there, marked for both channels. *)
Lemma C6_witness :
  (handle_result (down 1 ["slack"; "email"]) unreachable_env fresh_store).1 =
    Ok tt ∧
  persisted (down 1 ["slack"; "email"]) (incidents fresh_store)
    (incidents
       (handle_result (down 1 ["slack"; "email"]) unreachable_env
          fresh_store).2).
Proof.
  destruct (C6_notification_is_best_effort unreachable_env
              (down 1 ["slack"; "email"]) fresh_store)
    as (Hpersisted & _ & Hres).
  - intros n. reflexivity.
  - split; [|exact Hpersisted]. apply Hres.
    unfold port_ok. simpl. by eexists.
Defined.

(** A channel that is none of slack, email, sms is listed and not marked:
    the call ends normally, one statement sets [slack_alerted], none names
    another column.  And a send can end the call with an error: with
    [SMTP_PORT] empty, the third failure raises [ValueError] out of
    [handle_result], the incident having been updated. *)
Lemma C6_counterexample :
  handle_result (down 1 ["slack"; "pagerduty"]) test_env fresh_store =
    (Ok tt,
     {| targets := [test_service; slow_service];
        checks := ∅;
        incidents :=
          {[ 1 := {| i_target_id := 1; i_status := open;
                     i_started_at := 1700000002; i_resolved_at := None;
                     i_failure_count := 1; i_last_check_id := 1;
                     i_slack_alerted := true; i_email_alerted := false;
                     i_sms_alerted := false |} ]};
        tick := 5;
        trace :=
          [EvSql (SelectOpenIncident 1) true;
           EvSql (InsertIncident 1 1) true;
           EvSendSlack (AlertDown "Test Service")
             (FailureMessage "Test Service" failure (Some 500)
                (Some "Expected 200, got 500") 1) danger;
           EvSubprocess "#test-alerts" (AlertDown "Test Service")
             (FailureMessage "Test Service" failure (Some 500)
                (Some "Expected 200, got 500") 1);
           EvSql (SetColumn "slack_alerted" 1) true] |}) ∧
  (handle_result (down 3 ["slack"; "email"]) blank_port_env
     (handle_results blank_port_env
        [down 1 ["slack"; "email"]; down 2 ["slack"; "email"]]
        fresh_store)).1 =
    Raise (ValueError "invalid literal for int() with base 10: ''") ∧
  i_failure_count <$>
    incidents
      (handle_results blank_port_env
         [down 1 ["slack"; "email"]; down 2 ["slack"; "email"];
          down 3 ["slack"; "email"]] fresh_store) !! 1 = Some 3.
Proof. split_and!; vm_compute; reflexivity. Qed.


(** The store is reached, [test_service] is probed and its check recorded,
    then the SELECT of [handle_result] is refused: [run_checks] ends on that
    error and [slow_service] is never probed. *)
Lemma C8_counterexample :
  (run_checks locked_env fresh_store).1 =
    Raise (StoreError "database is locked") ∧
  trace (run_checks locked_env fresh_store).2 =
    [EvSql Connect true; EvSql SelectActiveTargets true;
     EvProbe "GET" "https://example.com/api/health" 10;
     EvSql (InsertCheck 1 failure) true;
     EvSql (SelectOpenIncident 1) false].
Proof. split; vm_compute; reflexivity. Qed.

Lemma C8_witness :
  filter (λ t, t_enabled t = true) (targets fresh_store) =
    [] ++ test_service :: [slow_service] ∧
  (run_checks locked_env fresh_store).1 =
    Raise (StoreError "database is locked").
Proof.
  split; [reflexivity|].
  erewrite (proj2 C8_error_aborts_the_run locked_env fresh_store []
              test_service [slow_service]); [reflexivity|..].
  - reflexivity.
  - reflexivity.
  - reflexivity.
  - reflexivity.
  - vm_compute. reflexivity.
Defined.

(** A target with a channel that has no column: the first failure marks
    slack and passes the other channel over. *)
Lemma C9_witness :
  handle_result (down 1 ["slack"; "pagerduty"]) test_env fresh_store =
  handle_result (down 1 ["slack"]) test_env fresh_store.
Proof.
  exact (proj2 (proj2 C9_marked_columns_are_known) test_env
           (down 1 ["slack"; "pagerduty"]) fresh_store).
Defined.

(** What the store makes of a channel given to [mark_alert_sent] itself:
    a name without a column is refused, and a name of a column is taken
    whatever its case and after blanks. *)
Example marked_pagerduty :
  (mark_alert_sent 1 "pagerduty" test_env fresh_store).1 =
  Raise (NoSuchColumn "pagerduty_alerted").
Proof. vm_compute. reflexivity. Qed.

Example marked_capital_slack :
  i_slack_alerted <$>
    incidents
      (mark_alert_sent 1 "Slack" test_env
         (create_incident 1 1 test_env fresh_store).2).2 !! 1 = Some true.
Proof. vm_compute. reflexivity. Qed.

Example marked_blank_sms :
  i_sms_alerted <$>
    incidents
      (mark_alert_sent 1 " sms" test_env
         (create_incident 1 1 test_env fresh_store).2).2 !! 1 = Some true.
Proof. vm_compute. reflexivity. Qed.

(** Without slack among the channels, a first failure notifies nobody. *)
Lemma C10_witness :
  ∃ evs,
    trace (handle_result (down 1 ["email"; "sms"]) test_env fresh_store).2 =
      trace fresh_store ++ evs ∧
    Forall (λ ev, is_store_event ev = true) evs.
Proof.
  destruct (C10_slack_only_outside_escalation test_env
              (down 1 ["email"; "sms"]) fresh_store)
    as (evs & Htrace & _ & _ & Hquiet).
  exists evs. split; [exact Htrace|]. apply Hquiet.
  - right. reflexivity.
  - by apply (proj1 (bool_decide_eq_false _)).
Defined.

(** * Senders, probes and whole runs *)

(** ** The senders of the alerter *)

Lemma _send_slack_trace title m c env w :
  _send_slack title m c env w = (Ok tt, add_events (slack_trace env title m c) w).
Proof.
  unfold _send_slack, run_clawdbot, slack_trace, slack_config_of.
  monad_unfold.
  destruct (default true _); simpl; [|done].
  by destruct (subprocess_run env _).
Qed.

(** X1. The initial alert and the recovery alert never raise, whatever the
    Slack CLI does (missing command, time out, non-zero exit).  Each
    reaches the CLI exactly when slack is among the result's channels and
    slack is enabled in the configuration (enabled when the configuration
    does not say), with the configured channel or [#alerts]; when slack is
    listed and disabled only the call of [_send_slack] is on the trace, and
    when it is not listed nothing is.  The recovery message reports the
    [failure_count] of the row it is given.  (The result is a dict as
    [check_target] builds it: its [response_time] is a number or is left
    out, which is all that [None] stands for here.) *)
Theorem X1_slack_alerts_never_raise :
  ∀ env r inc w,
    send_initial_alert r env w =
      (Ok tt,
       add_events
         (if decide ("slack" ∈ alert_channels_of r)
          then slack_trace env (AlertDown (r_name r))
                 (_format_failure_message r 1) danger
          else []) w) ∧
    send_recovery_alert r inc env w =
      (Ok tt,
       add_events
         (if decide ("slack" ∈ alert_channels_of r)
          then slack_trace env (Recovered (r_name r))
                 (RecoveryMessage (r_name r) (i_failure_count inc.2)
                    (r_response_time r)) good
          else []) w).
Proof.
  intros env r inc w. unfold send_initial_alert, send_recovery_alert.
  case_decide; [|done]. by rewrite !_send_slack_trace.
Qed.

Lemma _send_email_bad_port subject body recipients env w text :
  getenv env "SMTP_PORT" = Some text → py_int text = None →
  _send_email subject body recipients env w =
    (Raise (ValueError
              ("invalid literal for int() with base 10: '" +:+ text +:+ "'")),
     add_events [EvSendEmail subject body recipients] w).
Proof.
  intros Hport Hint. unfold _send_email, int_of_env. monad_unfold.
  by rewrite Hport, Hint.
Qed.

Lemma _send_email_good_port subject body recipients env w port :
  smtp_port_is env port →
  _send_email subject body recipients env w =
    (Ok tt,
     add_events
       (EvSendEmail subject body recipients ::
        if smtp_configured env
        then [EvSmtp (default "" (getenv env "SMTP_HOST")) port recipients
                subject body]
        else []) w).
Proof.
  intros Hport. unfold _send_email, int_of_env, smtp_deliver, smtp_configured.
  monad_unfold.
  destruct Hport as [[-> ->]|(text & -> & ->)]; simpl;
    (destruct (truthy (getenv env "SMTP_HOST") &&
               truthy (getenv env "SMTP_USER") &&
               truthy (getenv env "SMTP_PASSWORD")); simpl; [|done]);
    by destruct (smtp_session env _).
Qed.

(** X2. [_send_email] raises [ValueError] when [SMTP_PORT] is set to
    something [int()] refuses, the empty string included, and it does so
    before looking at the credentials: with host, user or password
    missing the mail is not skipped, the error is raised all the same.
    With [SMTP_PORT] unset (port 587) or an integer it never raises,
    whatever the SMTP session does, and it opens the session exactly when
    host, user and password are all set and non-empty. *)
Theorem X2_send_email_port_before_credentials :
  ∀ env subject body recipients w,
    (∀ text,
       getenv env "SMTP_PORT" = Some text → py_int text = None →
       _send_email subject body recipients env w =
         (Raise (ValueError
                   ("invalid literal for int() with base 10: '" +:+ text +:+
                    "'")),
          add_events [EvSendEmail subject body recipients] w)) ∧
    (∀ port,
       smtp_port_is env port →
       _send_email subject body recipients env w =
         (Ok tt,
          add_events
            (EvSendEmail subject body recipients ::
             if smtp_configured env
             then [EvSmtp (default "" (getenv env "SMTP_HOST")) port
                     recipients subject body]
             else []) w)).
Proof.
  intros env subject body recipients w. split.
  - intros text. apply _send_email_bad_port.
  - intros port. apply _send_email_good_port.
Qed.

Lemma twilio_loop_trace message recipients env w :
  ∃ res k,
    for_each recipients (λ recipient, twilio_send recipient message) env w =
      (res, add_events ((λ to, EvTwilio to message) <$> take k recipients) w) ∧
    (k ≤ length recipients)%nat ∧
    (∀ j, (S j < k)%nat → twilio_create env (tick w + j) = None) ∧
    match res with
    | Ok _ =>
        k = length recipients ∧
        ((0 < k)%nat → twilio_create env (tick w + (k - 1)) = None)
    | Raise e =>
        (0 < k)%nat ∧ twilio_create env (tick w + (k - 1)) = Some e
    end.
Proof.
  revert w. induction recipients as [|r rs IH]; intros w.
  - exists (Ok tt), 0%nat. simpl. split_and!; [done|lia|lia|done|lia].
  - simpl. rewrite bind_eq. unfold twilio_send at 1. monad_unfold.
    destruct (twilio_create env (tick w)) as [e|] eqn:Hc.
    + exists (Raise e), 1%nat. simpl. rewrite ?take_0.
      split_and!; [done|lia|lia|lia|].
      by replace (tick w + 0)%nat with (tick w) by lia.
    + destruct (IH (log (EvTwilio r message) w))
        as (res & k & -> & Hk & Hbefore & Hlast).
      exists res, (S k). simpl. split_and!; [done|lia| |].
      * intros [|j] Hj.
        -- by replace (tick w + 0)%nat with (tick w) by lia.
        -- replace (tick w + S j)%nat with (S (tick w) + j)%nat by lia.
           apply Hbefore. lia.
      * replace (k - 0)%nat with k by lia.
        destruct res as [[]|e].
        -- destruct Hlast as [-> Hlast]. split; [done|]. intros _.
           destruct rs as [|r' rs]; simpl in *.
           ++ by replace (tick w + 0)%nat with (tick w) by lia.
           ++ replace (tick w + S (length rs))%nat
                with (S (tick w) + (S (length rs) - 1))%nat by lia.
              apply Hlast. lia.
        -- destruct Hlast as [Hpos Hlast]. split; [lia|].
           by replace (tick w + k)%nat
             with (S (tick w) + (k - 1))%nat by lia.
Qed.

(** X3. [_send_sms_twilio] never raises: a missing [twilio] package, missing
    credentials and errors of the client all end the call normally.
    Without the package or without one of the three credentials no
    message is created.  Otherwise the recipients are tried in the order
    of the configuration, and the first one for which the client raises
    ends the loop: every recipient after it is left out, and the caller is
    not told. *)
Theorem X3_twilio_stops_at_first_failure :
  ∀ env message sms_config w,
    let recipients := default [] (sms_recipients sms_config) in
    ∃ k,
      _send_sms_twilio message sms_config env w =
        (Ok tt,
         add_events ((λ to, EvTwilio to message) <$> take k recipients) w) ∧
      (k ≤ length recipients)%nat ∧
      (twilio_installed env = false ∨ twilio_configured env = false →
       k = 0%nat) ∧
      (∀ j, (S j < k)%nat → twilio_create env (tick w + j) = None) ∧
      (twilio_installed env = true → twilio_configured env = true →
       (k < length recipients)%nat →
       (0 < k)%nat ∧ is_Some (twilio_create env (tick w + (k - 1)))).
Proof.
  intros env message sms_config w recipients.
  unfold _send_sms_twilio, try_except, mbind, M_bind, bind, ask.
  fold (twilio_configured env).
  case_decide as Hinst.
  { exists 0%nat. rewrite take_0. split_and!; try done; try lia.
    intros Hi. congruence. }
  destruct (twilio_configured env) eqn:Hconf; simpl.
  2:{ exists 0%nat. rewrite take_0. split_and!; try done; lia. }
  destruct (twilio_loop_trace message recipients env w)
    as (res & k & Heq & Hk & Hbefore & Hlast).
  fold recipients. rewrite Heq.
  exists k. split_and!; [by destruct res as [[]|]|done| |done|].
  - intros [Hno|?]; [|done]. by destruct (twilio_installed env).
  - intros _ _ Hlt. destruct res as [[]|e].
    + destruct Hlast as [-> _]. lia.
    + destruct Hlast as [Hpos ->]. by split.
Qed.

Lemma _send_sms_gateway_eq message sms_config env w :
  sms_method sms_config ≠ Some "twilio" →
  _send_sms message sms_config env w =
    if truthy (getenv env "SMS_EMAIL_GATEWAY")
    then _send_email GatewaySubject (Prefix 160 message)
           [default "" (getenv env "SMS_EMAIL_GATEWAY")] env
           (log (EvSendSms message) w)
    else (Ok tt, log (EvSendSms message) w).
Proof.
  intros Hmethod. unfold _send_sms, _send_sms_email_gateway. monad_unfold.
  case_decide as Hm.
  - destruct (sms_method sms_config); simpl in Hm; congruence.
  - by destruct (truthy (getenv env "SMS_EMAIL_GATEWAY")).
Qed.

(** X4. Unless the configured method is [twilio], an SMS goes through the
    mail gateway, and the recipients of the SMS configuration play no
    part: two such configurations behave alike, and the one mail goes to
    the address in [SMS_EMAIL_GATEWAY], with the gateway's subject and
    the message cut at 160.  With that variable unset or empty nothing is
    sent and the call ends normally, whatever [SMTP_PORT] holds, since the
    port is read only after the gateway is known.  No Twilio call is made
    on this path. *)
Theorem X4_sms_gateway_ignores_recipients :
  ∀ env message sms_config w,
    sms_method sms_config ≠ Some "twilio" →
    (∀ other,
       sms_method other ≠ Some "twilio" →
       _send_sms message other env w = _send_sms message sms_config env w) ∧
    (truthy (getenv env "SMS_EMAIL_GATEWAY") = false →
     _send_sms message sms_config env w =
       (Ok tt, add_events [EvSendSms message] w)) ∧
    (∀ gateway port,
       getenv env "SMS_EMAIL_GATEWAY" = Some gateway → gateway ≠ "" →
       smtp_port_is env port →
       _send_sms message sms_config env w =
         (Ok tt,
          add_events
            (EvSendSms message ::
             EvSendEmail GatewaySubject (Prefix 160 message) [gateway] ::
             if smtp_configured env
             then [EvSmtp (default "" (getenv env "SMTP_HOST")) port [gateway]
                     GatewaySubject (Prefix 160 message)]
             else []) w)).
Proof.
  intros env message sms_config w Hmethod. split_and!.
  - intros other Hother. by rewrite !_send_sms_gateway_eq.
  - intros Hno. by rewrite _send_sms_gateway_eq, Hno.
  - intros gateway port Hg Hne Hport.
    rewrite _send_sms_gateway_eq, Hg by done. simpl.
    rewrite bool_decide_eq_false_2 by done. simpl.
    by rewrite (_send_email_good_port _ _ _ _ _ port).
Qed.

Lemma send_escalation_alert_eq r inc n env w :
  send_escalation_alert r inc n env w =
  match
    (if email_due env r n
     then _send_email (EscalationSubject (r_name r) n)
            (_format_failure_message r n)
            (default [] (email_recipients (email_config_of env)))
     else mret tt) env w
  with
  | (Ok _, w') =>
      (if sms_due env r n
       then _send_sms (BriefMessage (r_name r) n (r_error_message r))
              (sms_config_of env)
       else mret tt) env w'
  | (Raise e, w') => (Raise e, w')
  end.
Proof. done. Qed.

(** X5. In [send_escalation_alert] the mail comes first and nothing guards
    it: when the email escalation is due and [SMTP_PORT] is not an
    integer, the call raises [ValueError] right after entering
    [_send_email], and the SMS escalation is not attempted, due or not,
    by Twilio or by the gateway.  When neither escalation is due the call
    does nothing at all.  The incident row passed in is never used. *)
Theorem X5_failed_mail_skips_sms :
  ∀ env r inc n w,
    (∀ text,
       email_due env r n = true →
       getenv env "SMTP_PORT" = Some text → py_int text = None →
       send_escalation_alert r inc n env w =
         (Raise (ValueError
                   ("invalid literal for int() with base 10: '" +:+ text +:+
                    "'")),
          add_events
            [EvSendEmail (EscalationSubject (r_name r) n)
               (_format_failure_message r n)
               (default [] (email_recipients (email_config_of env)))] w)) ∧
    (email_due env r n = false → sms_due env r n = false →
     send_escalation_alert r inc n env w = (Ok tt, w)) ∧
    (∀ other, send_escalation_alert r other n env w =
              send_escalation_alert r inc n env w).
Proof.
  intros env r inc n w. split_and!.
  - intros text Hdue Hport Hint.
    rewrite send_escalation_alert_eq, Hdue.
    by rewrite (_send_email_bad_port _ _ _ _ _ text).
  - intros He Hs. by rewrite send_escalation_alert_eq, He, Hs.
  - intros other. by rewrite !send_escalation_alert_eq.
Qed.

(** ** [check_target], whatever the store does *)

Lemma record_check_fault target_id st code rt msg env w fault :
  db_fault env (tick w) = Some fault →
  record_check target_id st code rt msg env w =
  (Raise (StoreError fault), refused env target_id st code rt msg w).
Proof.
  intros Hf. unfold record_check, refused. monad_unfold. rewrite Hf.
  by destruct (raised_by_commit env (tick w)).
Qed.

Lemma classify_eq target actual body elapsed :
  (if bool_decide (actual ≠ t_expected_status target) then
     (failure,
      Some ("Expected " +:+ pretty (t_expected_status target) +:+
            ", got " +:+ pretty actual))
   else if truthy (t_contains target) &&
           negb (is_substring (default "" (t_contains target)) body) then
     (failure,
      Some ("Expected content '" +:+ default "" (t_contains target) +:+
            "' not found"))
   else (success, None)) =
  ((classify target (Response actual body elapsed)).1.1,
   (classify target (Response actual body elapsed)).1.2).
Proof.
  unfold classify.
  destruct (decide (actual ≠ t_expected_status target)) as [Hne|Heq].
  - by rewrite bool_decide_eq_true_2.
  - rewrite bool_decide_eq_false_2 by done.
    destruct (t_contains target) as [sub|]; simpl; [|done].
    destruct (decide (sub = "")) as [->|Hsub].
    + by rewrite bool_decide_eq_true_2, is_substring_empty.
    + rewrite bool_decide_eq_false_2 by done. simpl.
      by destruct (is_substring sub body).
Qed.

Lemma classify_response_time target actual body elapsed :
  (classify target (Response actual body elapsed)).2 = Some elapsed.
Proof. unfold classify. by repeat case_match. Qed.

(** [check_target] in full: the probe, then one INSERT, or two when the
    first raises after a response. *)
Lemma check_target_cases target env w :
  let outcome := outcome_of env target w in
  let st := (classify target outcome).1.1 in
  let msg := (classify target outcome).1.2 in
  let rt := (classify target outcome).2 in
  check_target target env w =
  match db_fault env (S (tick w)) with
  | None =>
      let r :=
        check_result target st (code_of outcome) rt msg
          (lastrowid (checks w)) in
      (Ok r,
       recorded (current_timestamp env (S (S (tick w)))) r
         (add_events
            [probe_of target; EvSql (InsertCheck (t_id target) st) true] w))
  | Some fault =>
      let w1 :=
        refused env (t_id target) st (code_of outcome) rt msg
          (log (probe_of target) w) in
      match outcome with
      | ProbeRaised _ => (Raise (StoreError fault), w1)
      | Response _ _ _ =>
          match db_fault env (S (S (tick w))) with
          | None =>
              let r :=
                check_result target error None None (Some fault)
                  (lastrowid (checks w1)) in
              (Ok r,
               recorded (current_timestamp env (S (S (S (tick w))))) r
                 (log (EvSql (InsertCheck (t_id target) error) true) w1))
          | Some again =>
              (Raise (StoreError again),
               refused env (t_id target) error None None (Some fault) w1)
          end
      end
  end.
Proof.
  intros outcome st msg rt.
  assert (∀ tid s c r m w0,
            tick (refused env tid s c r m w0) = S (tick w0)) as Htick.
  { intros. unfold refused. by destruct (raised_by_commit env _). }
  unfold check_target, try_except. rewrite bind_eq, request_eq.
  fold (outcome_of env target w) outcome.
  subst st msg rt. destruct outcome as [actual body elapsed|e] eqn:Hout;
    cbv beta iota zeta.
  - rewrite classify_eq with (elapsed := elapsed).
    rewrite classify_response_time.
    destruct (db_fault env (S (tick w))) as [fault|] eqn:H1.
    + rewrite bind_eq, (record_check_fault _ _ _ _ _ _ _ fault) by done.
      cbv beta iota. change (is_timeout (StoreError fault)) with false.
      cbv iota. simpl str_exn.
      destruct (db_fault env (S (S (tick w)))) as [again|] eqn:H2.
      * rewrite bind_eq, (record_check_fault _ _ _ _ _ _ _ again); [done|].
        by rewrite Htick.
      * rewrite bind_eq, record_check_ok; [|by rewrite Htick].
        by rewrite Htick.
    + by rewrite bind_eq, record_check_ok.
  - destruct (db_fault env (S (tick w))) as [fault|] eqn:H1;
      unfold classify; destruct (is_timeout e) eqn:Ht.
    + by rewrite bind_eq, (record_check_fault _ _ _ _ _ _ _ fault).
    + by rewrite bind_eq, (record_check_fault _ _ _ _ _ _ _ fault).
    + by rewrite bind_eq, record_check_ok.
    + by rewrite bind_eq, record_check_ok.
Qed.

(** The table of checks after an INSERT that raised. *)
Lemma refused_frames env target_id st code rt msg w :
  incidents (refused env target_id st code rt msg w) = incidents w ∧
  targets (refused env target_id st code rt msg w) = targets w ∧
  trace (refused env target_id st code rt msg w) =
    trace w ++ [EvSql (InsertCheck target_id st) false] ∧
  tick (refused env target_id st code rt msg w) = S (tick w) ∧
  (if raised_by_commit env (tick w)
   then ∃ now,
          checks (refused env target_id st code rt msg w) =
            <[lastrowid (checks w) :=
                new_check now target_id st code rt msg]> (checks w) ∧
          lastrowid (checks (refused env target_id st code rt msg w)) =
            lastrowid (checks w) + 1
   else checks (refused env target_id st code rt msg w) = checks w).
Proof.
  unfold refused. destruct (raised_by_commit env (tick w)); simpl;
    split_and!; try done.
  eexists. split; [done|]. apply lastrowid_insert.
Qed.

(** X6. The [try] of [check_target] covers the INSERT as well as the probe.
    When the endpoint answered and the store raises on the INSERT, the
    error of the store is caught like an error of the probe: a second
    INSERT is made and, if the store takes it, the target is reported with
    status [error] and the message of the store, without status code or
    response time, even if the response was the expected one.  If it was
    [execute] that raised, that is the one check recorded.  If it was
    [commit], the row of the first INSERT was left in the open
    transaction and is stored by the second: two checks are recorded for
    one request, the first with the status the response deserves, and the
    result reports the id of the second.  If the second INSERT raises too,
    or if the probe itself had raised when the INSERT raises, the error of
    the store leaves [check_target] and no INSERT was committed. *)
Theorem X6_store_error_inside_try :
  ∀ env target w fault,
    db_fault env (S (tick w)) = Some fault →
    let id := lastrowid (checks w) in
    (∀ actual body elapsed,
       outcome_of env target w = Response actual body elapsed →
       db_fault env (S (S (tick w))) = None →
       ∃ w' now,
         if raised_by_commit env (S (tick w))
         then
           check_target target env w =
             (Ok (check_result target error None None (Some fault) (id + 1)),
              w') ∧
           ∃ before st msg,
             classified target (Response actual body elapsed) st msg
               (Some elapsed) ∧
             checks w' =
               <[id + 1 :=
                   new_check now (t_id target) error None None (Some fault)]>
                 (<[id :=
                      new_check before (t_id target) st (Some actual)
                        (Some elapsed) msg]> (checks w))
         else
           check_target target env w =
             (Ok (check_result target error None None (Some fault) id), w') ∧
           checks w' =
             <[id := new_check now (t_id target) error None None (Some fault)]>
               (checks w)) ∧
    (∀ actual body elapsed again,
       outcome_of env target w = Response actual body elapsed →
       db_fault env (S (S (tick w))) = Some again →
       ∃ w' st,
         check_target target env w = (Raise (StoreError again), w') ∧
         trace w' =
           trace w ++
           [probe_of target; EvSql (InsertCheck (t_id target) st) false;
            EvSql (InsertCheck (t_id target) error) false]) ∧
    (∀ e,
       outcome_of env target w = ProbeRaised e →
       ∃ w' st,
         check_target target env w = (Raise (StoreError fault), w') ∧
         trace w' =
           trace w ++
           [probe_of target; EvSql (InsertCheck (t_id target) st) false]).
Proof.
  intros env target w fault H1 id.
  pose proof (check_target_cases target env w) as Hcases.
  cbv zeta in Hcases. rewrite H1 in Hcases.
  set (outcome := outcome_of env target w) in *.
  set (w0 := log (probe_of target) w) in *.
  pose proof (refused_frames env (t_id target)
                (classify target outcome).1.1 (code_of outcome)
                (classify target outcome).2 (classify target outcome).1.2 w0)
    as (_ & _ & Htr1 & _ & Hchecks1).
  change (tick w0) with (S (tick w)) in Hchecks1.
  change (checks w0) with (checks w) in Hchecks1.
  split_and!.
  - intros actual body elapsed Hout H2. rewrite Hout, H2 in Hcases.
    rewrite ?classify_response_time in Hcases.
    pose proof (classify_classified target (Response actual body elapsed))
      as Hspec.
    rewrite classify_response_time in Hspec.
    rewrite Hout in Hchecks1. rewrite ?classify_response_time in Hchecks1.
    eexists _, _.
    destruct (raised_by_commit env (S (tick w))).
    + destruct Hchecks1 as (before & Hc & Hid). fold id in Hid, Hc.
      rewrite Hid in Hcases. split; [exact Hcases|].
      eexists before, _, _. split; [exact Hspec|].
      unfold recorded. cbn [checks with_checks log]. rewrite Hid, Hc. done.
    + rewrite Hchecks1 in Hcases. fold id in Hcases.
      split; [exact Hcases|].
      unfold recorded. cbn [checks with_checks log]. by rewrite Hchecks1.
  - intros actual body elapsed again Hout H2. rewrite Hout, H2 in Hcases.
    eexists _, _. split; [exact Hcases|].
    destruct (refused_frames env (t_id target) error None None (Some fault)
                (refused env (t_id target) (classify target outcome).1.1
                   (code_of outcome) (classify target outcome).2
                   (classify target outcome).1.2 w0))
      as (_ & _ & Htr2 & _).
    rewrite Hout in Htr1, Htr2. rewrite Htr2, Htr1. simpl.
    by rewrite <- !app_assoc.
  - intros e Hout. rewrite Hout in Hcases.
    eexists _, _. split; [exact Hcases|].
    rewrite Hout in Htr1. rewrite Htr1. simpl. by rewrite <- !app_assoc.
Qed.

Lemma refused_checks env target_id st code rt msg w :
  (∀ id row,
     checks w !! id = Some row →
     checks (refused env target_id st code rt msg w) !! id = Some row) ∧
  (∀ id row,
     checks w !! id = None →
     checks (refused env target_id st code rt msg w) !! id = Some row →
     id = lastrowid (checks w) ∧ c_target_id row = target_id ∧
     raised_by_commit env (tick w) = true).
Proof.
  unfold refused. destruct (raised_by_commit env (tick w)); simpl; split.
  - intros id row Hl. rewrite lookup_insert_ne; [done|]. by eapply lastrowid_ne.
  - intros id row Hnone Hl.
    apply lookup_insert_Some in Hl as [[<- <-]|[_ Hl]]; [done|congruence].
  - done.
  - congruence.
Qed.

Lemma recorded_checks now r w :
  (∀ id row,
     checks w !! id = Some row → checks (recorded now r w) !! id = Some row) ∧
  (∀ id row,
     checks w !! id = None → checks (recorded now r w) !! id = Some row →
     id = lastrowid (checks w) ∧ c_target_id row = r_target_id r) ∧
  checks (recorded now r w) !! lastrowid (checks w) =
    Some (new_check now (r_target_id r) (r_status r) (r_status_code r)
            (r_response_time r) (r_error_message r)) ∧
  (∀ id row,
     checks (recorded now r w) !! id = Some row → id ≤ lastrowid (checks w)).
Proof.
  unfold recorded. simpl. split_and!.
  - intros id row Hl. rewrite lookup_insert_ne; [done|]. by eapply lastrowid_ne.
  - intros id row Hnone Hl.
    apply lookup_insert_Some in Hl as [[<- <-]|[_ Hl]]; [done|congruence].
  - apply lookup_insert_eq.
  - intros id row Hl.
    apply lookup_insert_Some in Hl as [[<- <-]|[_ Hl]]; [lia|].
    apply max_rowid_bound in Hl. unfold lastrowid. lia.
Qed.

(** What [check_target] leaves, whatever the probe and the store do. *)
Lemma check_target_frames target env w :
  incidents (check_target target env w).2 = incidents w ∧
  targets (check_target target env w).2 = targets w ∧
  (∀ id row,
     checks w !! id = Some row →
     checks (check_target target env w).2 !! id = Some row) ∧
  ∃ evs,
    trace (check_target target env w).2 = trace w ++ probe_of target :: evs ∧
    Forall (λ ev, is_store_event ev = true) evs ∧
    match (check_target target env w).1 with
    | Ok r =>
        r_target_id r = t_id target ∧
        r_alert_channels r = Some (t_alert_channels target) ∧
        checks w !! r_check_id r = None ∧
        (∃ now,
           checks (check_target target env w).2 !! r_check_id r =
             Some (new_check now (t_id target) (r_status r) (r_status_code r)
                     (r_response_time r) (r_error_message r))) ∧
        (∀ id row,
           checks (check_target target env w).2 !! id = Some row →
           id ≤ r_check_id r) ∧
        (∀ id row,
           checks w !! id = None →
           checks (check_target target env w).2 !! id = Some row →
           c_target_id row = t_id target ∧
           (id = r_check_id r ∨
            (id + 1 = r_check_id r ∧ r_status r = error ∧
             raised_by_commit env (S (tick w)) = true))) ∧
        ∃ failed,
          evs = failed ++ [EvSql (InsertCheck (t_id target) (r_status r)) true] ∧
          Forall uncommitted failed
    | Raise e =>
        (∃ msg, e = StoreError msg ∧ faulty env msg) ∧
        Forall uncommitted evs
    end.
Proof.
  rewrite (check_target_cases target env w). cbv zeta.
  set (outcome := outcome_of env target w).
  set (st := (classify target outcome).1.1).
  set (w0 := log (probe_of target) w).
  destruct (db_fault env (S (tick w))) as [fault|] eqn:H1.
  - set (w1 := refused env (t_id target) st _ _ _ w0).
    destruct (refused_frames env (t_id target) st (code_of outcome)
                (classify target outcome).2 (classify target outcome).1.2 w0)
      as (Hi1 & Ht1 & Htr1 & Htick1 & Hlast1).
    destruct (refused_checks env (t_id target) st (code_of outcome)
                (classify target outcome).2 (classify target outcome).1.2 w0)
      as (Hold1 & Hnew1).
    fold w1 in Hi1, Ht1, Htr1, Htick1, Hlast1, Hold1, Hnew1.
    change (checks w0) with (checks w) in *.
    change (tick w0) with (S (tick w)) in *.
    assert (faulty env fault) as Hf1 by (by exists (S (tick w))).
    assert (uncommitted (EvSql (InsertCheck (t_id target) st) false)) as Hu1
      by (by intros s).
    destruct outcome as [actual body elapsed|e] eqn:Hout.
    + destruct (db_fault env (S (S (tick w)))) as [again|] eqn:H2.
      * set (w2 := refused env (t_id target) error None None (Some fault) w1).
        destruct (refused_frames env (t_id target) error None None
                    (Some fault) w1) as (Hi2 & Ht2 & Htr2 & _).
        destruct (refused_checks env (t_id target) error None None
                    (Some fault) w1) as (Hold2 & _).
        fold w2 in Hi2, Ht2, Htr2, Hold2. cbn [fst snd].
        split_and!; [by rewrite Hi2, Hi1|by rewrite Ht2, Ht1|by eauto|].
        eexists [_; _]. split_and!.
        -- rewrite Htr2, Htr1. simpl. by rewrite <- !app_assoc.
        -- by repeat constructor.
        -- exists again. split; [done|]. by exists (S (S (tick w))).
        -- repeat constructor; [done|]. by intros s.
      * cbn [fst snd].
        set (r := check_result target error None None (Some fault) _).
        set (w2 := log _ w1).
        destruct (recorded_checks
                    (current_timestamp env (S (S (S (tick w))))) r w2)
          as (Hold2 & Hnew2 & Hrow2 & Hbound2).
        change (checks w2) with (checks w1) in *.
        unfold recorded at 1 2. cbn [incidents targets trace with_checks].
        split_and!; [exact Hi1|exact Ht1|by eauto|].
        eexists [_; _]. split_and!.
        -- unfold w2, recorded. cbn [trace with_checks log]. rewrite Htr1.
           simpl. by rewrite <- !app_assoc.
        -- by repeat constructor.
        -- done.
        -- done.
        -- simpl. destruct (checks w !! lastrowid (checks w1)) as [row|] eqn:Hl;
             [|done].
           apply Hold1 in Hl. by rewrite lastrowid_fresh in Hl.
        -- eexists. exact Hrow2.
        -- exact Hbound2.
        -- intros id row Hnone Hl. simpl.
           destruct (checks w1 !! id) as [row1|] eqn:Hl1.
           ++ pose proof (Hold2 _ _ Hl1) as Hl'. rewrite Hl in Hl'.
              injection Hl' as ->.
              destruct (Hnew1 _ _ Hnone Hl1) as (-> & Htid & Hcommit).
              split; [done|]. right. split_and!; [|done|done].
              rewrite Hcommit in Hlast1. destruct Hlast1 as (_ & _ & ->). done.
           ++ destruct (Hnew2 _ _ Hl1 Hl) as [-> Htid]. by split; [|left].
        -- exists [EvSql (InsertCheck (t_id target) st) false].
           split; [done|]. by repeat constructor.
    + cbn [fst snd]. split_and!; [done|done|done|].
      eexists [_]. split; [rewrite Htr1; simpl; by rewrite <- !app_assoc|].
      split_and!; [by repeat constructor|by eauto|by repeat constructor].
  - cbn [fst snd].
    set (r := check_result target st _ _ _ _).
    set (w2 := add_events _ w).
    destruct (recorded_checks (current_timestamp env (S (S (tick w)))) r w2)
      as (Hold2 & Hnew2 & Hrow2 & Hbound2).
    change (checks w2) with (checks w) in *.
    unfold recorded at 1 2. cbn [incidents targets trace with_checks].
    split_and!; [done|done|done|].
    eexists [_]. split.
    { unfold recorded, w2. cbn [trace with_checks].
      rewrite trace_add_events. reflexivity. }
    split_and!; try done.
    + by repeat constructor.
    + apply lastrowid_fresh.
    + eexists. exact Hrow2.
    + intros id row Hnone Hl.
      destruct (Hnew2 _ _ Hnone Hl) as [-> Htid]. by split; [|left].
    + exists []. by split.
Qed.

(** X7. Whatever the probe and the store do, [check_target] makes one
    request, before anything else, and leaves the incidents and the
    targets as they were and every check that was there.  No exception of
    the probe leaves it: the only error it can end on is one of the
    store, and then none of its INSERTs was committed.  When it returns,
    its result carries the id and the channels of the target, exactly one
    INSERT was committed, the last, and the row it wrote is under the id
    the result reports, which was not in use and is the largest of the
    table; it holds the reported status, code, time and message.  At most
    one more row was added, under the id before it: that happens only
    when the result is an [error] and [commit] raised on a first INSERT. *)
Theorem X7_check_target_records_once :
  ∀ env target w,
    incidents (check_target target env w).2 = incidents w ∧
    targets (check_target target env w).2 = targets w ∧
    (∀ id row,
       checks w !! id = Some row →
       checks (check_target target env w).2 !! id = Some row) ∧
    ∃ evs,
      trace (check_target target env w).2 =
        trace w ++ probe_of target :: evs ∧
      Forall (λ ev, is_store_event ev = true) evs ∧
      match (check_target target env w).1 with
      | Ok r =>
          r_target_id r = t_id target ∧
          r_alert_channels r = Some (t_alert_channels target) ∧
          checks w !! r_check_id r = None ∧
          (∃ now,
             checks (check_target target env w).2 !! r_check_id r =
               Some (new_check now (t_id target) (r_status r)
                       (r_status_code r) (r_response_time r)
                       (r_error_message r))) ∧
          (∀ id row,
             checks (check_target target env w).2 !! id = Some row →
             id ≤ r_check_id r) ∧
          (∀ id row,
             checks w !! id = None →
             checks (check_target target env w).2 !! id = Some row →
             c_target_id row = t_id target ∧
             (id = r_check_id r ∨
              (id + 1 = r_check_id r ∧ r_status r = error ∧
               raised_by_commit env (S (tick w)) = true))) ∧
          ∃ failed,
            evs =
              failed ++
              [EvSql (InsertCheck (t_id target) (r_status r)) true] ∧
            Forall uncommitted failed
      | Raise e =>
          (∃ msg, e = StoreError msg ∧ faulty env msg) ∧
          Forall uncommitted evs
      end.
Proof. intros env target w. apply check_target_frames. Qed.

(** ** [handle_result] and the rest of the store *)

Lemma handled_no_probe env r m res evs m' :
  handled env r m res evs m' →
  ∃ committed evs',
    evs = EvSql (SelectOpenIncident (r_target_id r)) committed :: evs' ∧
    Forall (λ ev, is_probe ev = false) evs'.
Proof.
  intros [msg Hf| Hst Hsel |id i msg Hst Hsel Hf | id i now evs0 Hst Hsel Hev
         | id i msg Hst Hsel Hf | id i res0 evs0 Hst Hsel Hev
         | msg Hst Hsel Hf | now evs_a res0 evs_m m0 Hst Hsel Hev Hm];
    eexists _, _; (split; [reflexivity|]); try (by repeat constructor).
  - constructor; [done|].
    apply recovery_events_slack in Hev as (Hev & _).
    eapply Forall_class; [|done]. by intros [].
  - constructor; [done|].
    apply escalation_events_class in Hev as (Hev & _).
    eapply Forall_class; [|done]. by intros [].
  - constructor; [done|]. apply Forall_app. split.
    + apply initial_events_slack in Hev as (Hev & _).
      eapply Forall_class; [|done]. by intros [].
    + apply marking_store_events in Hm.
      eapply Forall_class; [|done]. by intros [].
Qed.

Lemma handled_new_row env r m res evs m' id :
  handled env r m res evs m' →
  m !! id = None → is_Some (m' !! id) → id = lastrowid m.
Proof.
  intros [msg Hf| Hst Hsel |id0 i0 msg Hst Hsel Hf | id0 i0 now evs0 Hst Hsel Hev
         | id0 i0 msg Hst Hsel Hf | id0 i0 res0 evs0 Hst Hsel Hev
         | msg Hst Hsel Hf | now evs_a res0 evs_m m0 Hst Hsel Hev Hm] Hnone [i' Hl];
    try congruence.
  - apply lookup_alter_Some in Hl as [(-> & i & Hi & ->)|[? Hl]]; congruence.
  - apply lookup_alter_Some in Hl as [(-> & i & Hi & ->)|[? Hl]]; congruence.
  - destruct (decide (id = lastrowid m)) as [|Hid]; [done|].
    apply marking_rows in Hm as [Hne _].
    rewrite Hne, lookup_insert_ne in Hl by done. congruence.
Qed.

Lemma handled_same_origin env r m res evs m' id i :
  handled env r m res evs m' → m !! id = Some i →
  ∃ i', m' !! id = Some i' ∧ same_origin i i' ∧
        (i_target_id i ≠ r_target_id r → i' = i).
Proof.
  intros H Hi.
  destruct (handled_row_kept _ _ _ _ _ _ id i H Hi) as [i' Hi'].
  pose proof (handled_row_after _ _ _ _ _ _ _ _ H Hi') as Hrow.
  exists i'. split; [done|].
  unfold row_after in Hrow. rewrite Hi in Hrow.
  destruct Hrow as [->|[Hsel Hrow]]; [by repeat split|].
  apply select_open_incident_Some in Hsel as (_ & Ht & _).
  split; [|by intros []].
  case_decide; [destruct Hrow as [now ->]|subst i']; by repeat split.
Qed.

(** X8. [handle_result] works on the table of incidents only: whatever the
    result, the store and the transports, it leaves the checks and the
    targets as they were and makes no HTTP request, and the first thing it
    does is the SELECT of the open incident of the result's target.  It
    deletes no incident.  Of a row that was there it never changes the
    target, the start or an alerted flag (the flags are written for a new
    incident only: an escalation mail or SMS sets none), and it leaves
    every row of another target exactly as it was.  It adds at most one
    row, under the next rowid. *)
Theorem X8_handle_result_keeps_history :
  ∀ env r w,
    checks (handle_result r env w).2 = checks w ∧
    targets (handle_result r env w).2 = targets w ∧
    (∃ committed evs,
       trace (handle_result r env w).2 =
         trace w ++
         EvSql (SelectOpenIncident (r_target_id r)) committed :: evs ∧
       Forall (λ ev, is_probe ev = false) evs) ∧
    (∀ id i,
       incidents w !! id = Some i →
       ∃ i', incidents (handle_result r env w).2 !! id = Some i' ∧
             same_origin i i' ∧
             (i_target_id i ≠ r_target_id r → i' = i)) ∧
    (∀ id,
       incidents w !! id = None →
       is_Some (incidents (handle_result r env w).2 !! id) →
       id = lastrowid (incidents w)).
Proof.
  intros env r w.
  destruct (handle_result_handled r env w) as (res & evs & m' & -> & H).
  cbn [fst snd with_incidents checks targets trace incidents].
  rewrite checks_add_events, targets_add_events, trace_add_events.
  split_and!; try done.
  - destruct (handled_no_probe _ _ _ _ _ _ H) as (c & evs' & -> & Hevs). eauto.
  - intros id i. by eapply handled_same_origin.
  - intros id. by eapply handled_new_row.
Qed.

(** ** From the check to the incident *)

Lemma marking_ok env id cs m res evs m' :
  marking env id cs m res evs m' → store_ok env → res = Ok tt.
Proof.
  induction 1; intros Hok; auto.
  exfalso. by eapply store_ok_not_faulty.
Qed.

Lemma handled_ok env r m res evs m' :
  handled env r m res evs m' → store_ok env → port_ok env → res = Ok tt.
Proof.
  intros [msg Hf| Hst Hsel |id i msg Hst Hsel Hf | id i now evs0 Hst Hsel Hev
         | id i msg Hst Hsel Hf | id i res0 evs0 Hst Hsel Hev
         | msg Hst Hsel Hf | now evs_a res0 evs_m m0 Hst Hsel Hev Hm] Hok Hport;
    try done; try (exfalso; eapply store_ok_not_faulty; eassumption).
  - destruct Hev as (? & ? & _ & _ & Habs & _). by apply (absorbed_port_ok env).
  - by eapply marking_ok.
Qed.

Lemma select_the_open_incident target_id m id i :
  one_open_per_target m →
  select_open_incident target_id m = Some (id, i) →
  the_open_incident target_id m id i.
Proof.
  intros Hinv (Hl & Ht & Hs & _)%select_open_incident_Some.
  split_and!; [done|done|].
  intros id' i' Hl' [Ht' Hs']. simpl in *.
  eapply Hinv; eauto. congruence.
Qed.

(** The open incident of the target of a result, after the call. *)
Lemma handled_open_after env r m res evs m' :
  handled env r m res evs m' → store_ok env → one_open_per_target m →
  if decide (r_status r = success)
  then select_open_incident (r_target_id r) m' = None
  else ∃ id i,
         select_open_incident (r_target_id r) m' = Some (id, i) ∧
         i_last_check_id i = r_check_id r ∧
         i_failure_count i =
           match select_open_incident (r_target_id r) m with
           | Some before => i_failure_count before.2 + 1
           | None => 1
           end.
Proof.
  intros [msg Hf| Hst Hsel |id i msg Hst Hsel Hf | id i now evs0 Hst Hsel Hev
         | id i msg Hst Hsel Hf | id i res0 evs0 Hst Hsel Hev
         | msg Hst Hsel Hf | now evs_a res0 evs_m m0 Hst Hsel Hev Hm] Hok Hinv;
    try (exfalso; eapply store_ok_not_faulty; eassumption).
  - by rewrite decide_True by done.
  - rewrite decide_True by done.
    eapply resolved_none_open. by apply select_the_open_incident.
  - rewrite decide_False by done. rewrite Hsel.
    exists id, (updated (r_check_id r) true i). split_and!; [|done|done].
    apply the_open_incident_select, updated_the_open_incident.
    by apply select_the_open_incident.
  - rewrite decide_False by done. rewrite Hsel.
    destruct (created_the_open_incident _ _ _ _ _ _ _ Hsel Hm)
      as (i' & Hopen & Hflags).
    exists (lastrowid m), i'. split; [by apply the_open_incident_select|].
    destruct Hflags as (_ & _ & _ & _ & Hc & Hl). by rewrite Hc, Hl.
Qed.

(** The open incident of another target, after the call. *)
Lemma handled_other_target env r m res evs m' target_id :
  handled env r m res evs m' → one_open_per_target m →
  target_id ≠ r_target_id r →
  select_open_incident target_id m' = select_open_incident target_id m.
Proof.
  intros H Hinv Hne.
  pose proof (handled_one_open _ _ _ _ _ _ H Hinv) as Hinv'.
  destruct (select_open_incident target_id m) as [[id i]|] eqn:Hsel.
  - apply select_open_incident_Some in Hsel as (Hl & Ht & Hs & _).
    destruct (handled_same_origin _ _ _ _ _ _ id i H Hl) as (i' & Hl' & _ & Heq).
    rewrite Heq in Hl' by congruence.
    by apply select_open_incident_unique.
  - apply select_open_incident_None in Hsel.
    destruct (select_open_incident target_id m') as [[id' i']|] eqn:Hsel';
      [exfalso|done].
    apply select_open_incident_Some in Hsel' as (Hl' & Ht' & Hs' & _).
    pose proof (handled_row_after _ _ _ _ _ _ _ _ H Hl') as Hrow.
    unfold row_after in Hrow.
    destruct (m !! id') as [i0|] eqn:Hl0.
    + destruct Hrow as [->|[Hsel0 Hrow]]; [by apply (Hsel id' i0)|].
      apply select_open_incident_Some in Hsel0 as (_ & Ht0 & _).
      apply Hne. rewrite <- Ht', <- Ht0.
      case_decide; [destruct Hrow as [now ->]|subst i']; done.
    + destruct Hrow as (_ & _ & now & Ht & _). simpl in Ht. congruence.
Qed.

(** X9. After [handle_result], the store answering and the table holding
    at most one open incident per target, the target of the result has an
    open incident exactly when the check was not a success.  That
    incident then points to this check ([last_check_id]), and its count
    is one more than the count of the incident that was open before, or 1
    if none was.  The open incident of every other target is the one it
    was. *)
Theorem X9_open_incident_follows_the_check :
  ∀ env r w,
    store_ok env → one_open_per_target (incidents w) →
    (if decide (r_status r = success)
     then select_open_incident (r_target_id r)
            (incidents (handle_result r env w).2) = None
     else ∃ id i,
            select_open_incident (r_target_id r)
              (incidents (handle_result r env w).2) = Some (id, i) ∧
            i_last_check_id i = r_check_id r ∧
            i_failure_count i =
              match select_open_incident (r_target_id r) (incidents w) with
              | Some before => i_failure_count before.2 + 1
              | None => 1
              end) ∧
    (∀ target_id,
       target_id ≠ r_target_id r →
       select_open_incident target_id (incidents (handle_result r env w).2) =
       select_open_incident target_id (incidents w)).
Proof.
  intros env r w Hok Hinv.
  destruct (handle_result_handled r env w) as (res & evs & m' & -> & H).
  cbn [fst snd with_incidents incidents]. split.
  - by eapply handled_open_after.
  - intros target_id Hne. by eapply handled_other_target.
Qed.

(** ** A whole run *)

Lemma filter_no_probe evs :
  Forall (λ ev, is_probe ev = false) evs →
  filter (λ ev, is_probe ev = true) evs = [].
Proof.
  induction 1 as [|ev evs Hev _ IH]; [done|].
  rewrite filter_cons_False by congruence. done.
Qed.

(** The body of the loop of [run_checks], the store answering. *)
Lemma check_and_handle_world target env w :
  store_ok env → port_ok env →
  ∃ w1 row evs,
    check_and_handle target env w = (Ok tt, w1) ∧
    targets w1 = targets w ∧
    trace w1 = trace w ++ probe_of target :: evs ∧
    tick w1 = (tick w + S (length evs))%nat ∧
    Forall (λ ev, is_probe ev = false) evs ∧
    checks w1 = <[lastrowid (checks w) := row]> (checks w) ∧
    c_target_id row = t_id target ∧
    classified target (outcome_of env target w)
      (c_status row) (c_error_message row) (c_response_time row) ∧
    c_status_code row = code_of (outcome_of env target w) ∧
    (one_open_per_target (incidents w) →
     one_open_per_target (incidents w1) ∧
     (∀ target_id,
        target_id ≠ t_id target →
        select_open_incident target_id (incidents w1) =
        select_open_incident target_id (incidents w)) ∧
     if decide (c_status row = success)
     then select_open_incident (t_id target) (incidents w1) = None
     else ∃ id i,
            select_open_incident (t_id target) (incidents w1) = Some (id, i) ∧
            i_last_check_id i = lastrowid (checks w)).
Proof.
  intros Hok Hport. unfold check_and_handle. rewrite bind_eq.
  rewrite (check_target_cases target env w). cbv zeta.
  rewrite (Hok (S (tick w))).
  set (st := (classify target (outcome_of env target w)).1.1).
  set (r := check_result target st _ _ _ _).
  set (w0 := recorded _ r _).
  destruct (handle_result_handled r env w0) as (res & evs & m' & -> & H).
  assert (incidents w0 = incidents w) as Hi0.
  { unfold w0, recorded. cbn [incidents with_checks].
    by rewrite incidents_add_events. }
  rewrite Hi0 in H.
  assert (res = Ok tt) as -> by (by eapply handled_ok).
  destruct (handled_no_probe _ _ _ _ _ _ H) as (c & evs' & -> & Hevs).
  eexists _, _, _. split; [reflexivity|].
  cbn [with_incidents targets trace checks incidents tick].
  rewrite targets_add_events, trace_add_events, checks_add_events,
    tick_add_events.
  unfold w0, recorded. cbn [with_checks targets trace checks tick].
  rewrite targets_add_events, trace_add_events, checks_add_events,
    tick_add_events.
  split_and!.
  - done.
  - rewrite <- app_assoc. simpl. reflexivity.
  - simpl. lia.
  - constructor; [done|]. constructor; [done|]. exact Hevs.
  - reflexivity.
  - done.
  - apply classify_classified.
  - done.
  - intros Hinv. split_and!.
    + by eapply handled_one_open.
    + intros target_id Hne. by eapply handled_other_target.
    + pose proof (handled_open_after _ _ _ _ _ _ H Hok Hinv) as Hopen.
      simpl in Hopen |- *. fold st. destruct (decide (st = success)); [done|].
      destruct Hopen as (id & i & Hsel & Hl & _). eauto.
Qed.

Lemma run_loop env ts w :
  store_ok env → port_ok env →
  ∃ w' evs,
    for_each ts check_and_handle env w = (Ok tt, w') ∧
    targets w' = targets w ∧
    trace w' = trace w ++ evs ∧
    tick w' = (tick w + length evs)%nat ∧
    filter (λ ev, is_probe ev = true) evs = probe_of <$> ts ∧
    size (checks w') = (size (checks w) + length ts)%nat ∧
    (∀ id row, checks w !! id = Some row → checks w' !! id = Some row) ∧
    (one_open_per_target (incidents w) → one_open_per_target (incidents w')).
Proof.
  intros Hok Hport. revert w. induction ts as [|t ts IH]; intros w.
  - exists w, []. simpl. rewrite app_nil_r. split_and!; try done; lia.
  - destruct (check_and_handle_world t env w Hok Hport)
      as (w1 & row & evs1 & Hstep & Ht1 & Htr1 & Htick1 & Hevs1 & Hc1 & _ & _
          & _ & Hinv1).
    destruct (IH w1)
      as (w' & evs & Hrest & Ht & Htr & Htick & Hevs & Hsize & Hmono & Hinv).
    exists w', (probe_of t :: evs1 ++ evs).
    cbn [for_each]. rewrite bind_eq, Hstep. split_and!.
    + done.
    + congruence.
    + rewrite Htr, Htr1, <- app_assoc. done.
    + rewrite Htick, Htick1. simpl. rewrite length_app. lia.
    + rewrite filter_cons_True by done. rewrite filter_app.
      rewrite filter_no_probe by done. simpl. by rewrite Hevs.
    + rewrite Hsize, Hc1, map_size_insert_None by apply lastrowid_fresh.
      simpl. lia.
    + intros id row' Hl. apply Hmono. rewrite Hc1.
      rewrite lookup_insert_ne; [done|]. by eapply lastrowid_ne.
    + intros Hinv0. by apply Hinv, Hinv1.
Qed.

(** Where the run stands after the loop: for the target at each place of
    the list, its request in the trace, the check recorded for what the
    request met, and its open incident. *)
Lemma run_loop_incidents env ts w :
  store_ok env → port_ok env →
  one_open_per_target (incidents w) → NoDup (t_id <$> ts) →
  ∃ evs,
    trace (for_each ts check_and_handle env w).2 = trace w ++ evs ∧
    (∀ target_id,
       target_id ∉ t_id <$> ts →
       select_open_incident target_id
         (incidents (for_each ts check_and_handle env w).2) =
       select_open_incident target_id (incidents w)) ∧
    (∀ k t,
       ts !! k = Some t →
       ∃ before after id row,
         evs = before ++ probe_of t :: after ∧
         length (filter (λ ev, is_probe ev = true) before) = k ∧
         classified t
           (requests_request env (tick w + length before) (t_method t)
              (t_url t) (t_timeout t))
           (c_status row) (c_error_message row) (c_response_time row) ∧
         checks w !! id = None ∧
         checks (for_each ts check_and_handle env w).2 !! id = Some row ∧
         c_target_id row = t_id t ∧
         if decide (c_status row = success)
         then select_open_incident (t_id t)
                (incidents (for_each ts check_and_handle env w).2) = None
         else ∃ iid i,
                select_open_incident (t_id t)
                  (incidents (for_each ts check_and_handle env w).2) =
                  Some (iid, i) ∧
                i_last_check_id i = id).
Proof.
  intros Hok Hport. revert w. induction ts as [|t ts IH]; intros w Hinv Hnd.
  - exists []. simpl. rewrite app_nil_r. split_and!; [done|done|].
    intros k t Hk. by rewrite lookup_nil in Hk.
  - rewrite fmap_cons in Hnd. apply NoDup_cons in Hnd as [Hnotin Hnd].
    destruct (check_and_handle_world t env w Hok Hport)
      as (w1 & row & evs1 & Hstep & Ht1 & Htr1 & Htick1 & Hevs1 & Hc1 & Hrt
          & Hclass & _ & Hinv1).
    destruct (Hinv1 Hinv) as (Hinv' & Hother & Hown).
    destruct (IH w1 Hinv' Hnd) as (evs & Htr & IHother & IHown).
    destruct (run_loop env ts w1 Hok Hport)
      as (w' & evs' & Hrest & _ & _ & _ & _ & _ & Hmono & _).
    cbn [for_each]. rewrite bind_eq, Hstep.
    rewrite Hrest in Htr, IHother, IHown |- *. cbn [snd] in *.
    exists (probe_of t :: evs1 ++ evs). split_and!.
    + rewrite Htr, Htr1, <- app_assoc. done.
    + intros target_id Hnot. rewrite fmap_cons in Hnot.
      apply not_elem_of_cons in Hnot as [Hne Hnot].
      rewrite IHother by done. by apply Hother.
    + intros [|k] t' Hk.
      * injection Hk as <-.
        exists [], (evs1 ++ evs), (lastrowid (checks w)), row. split_and!.
        -- done.
        -- done.
        -- simpl. rewrite Nat.add_0_r. exact Hclass.
        -- apply lastrowid_fresh.
        -- apply Hmono. rewrite Hc1. apply lookup_insert_eq.
        -- done.
        -- rewrite IHother by done. exact Hown.
      * destruct (IHown k t' Hk)
          as (before & after & id & row' & -> & Hcount & Hclass' & Hnone
              & Hsome & Hrest').
        exists (probe_of t :: evs1 ++ before), after, id, row'. split_and!.
        -- simpl. by rewrite <- app_assoc.
        -- rewrite filter_cons_True by done. rewrite filter_app.
           rewrite filter_no_probe by done. simpl. by rewrite Hcount.
        -- rewrite Htick1 in Hclass'. simpl. rewrite length_app.
           replace (tick w + S (length evs1 + length before))%nat
             with (tick w + S (length evs1) + length before)%nat by lia.
           exact Hclass'.
        -- destruct (checks w !! id) as [row0|] eqn:Hl0; [|done].
           rewrite Hc1, lookup_insert_ne in Hnone by (by eapply lastrowid_ne).
           congruence.
        -- done.
        -- by destruct Hrest'.
        -- by destruct Hrest'.
Qed.


(** X11. After a run of [run_checks] in which the store answered
    ([SMTP_PORT] unset or an integer), from a table with at most one open
    incident per target and enabled targets of distinct ids.  The enabled
    target at place [k] of the table is the target of the [k]-th request
    of the run; the run has recorded a check for it, under an id that was
    not in use, whose status, message and response time are those the
    decision order of the spec gives to what that very request met; the
    target has an open incident exactly when that status is not
    [success], and the incident then points to that check.  The open
    incident of a target that is not enabled (or not in the table any
    more) is the one it was: the run neither updates nor resolves it. *)
Theorem X11_run_checks_settles_incidents :
  ∀ env w,
    store_ok env → port_ok env →
    one_open_per_target (incidents w) → NoDup (t_id <$> active w) →
    ∃ evs,
      trace (run_checks env w).2 = trace w ++ evs ∧
      (∀ k t,
         active w !! k = Some t →
         ∃ before after id row,
           evs = before ++ probe_of t :: after ∧
           length (filter (λ ev, is_probe ev = true) before) = k ∧
           classified t
             (requests_request env (tick w + length before) (t_method t)
                (t_url t) (t_timeout t))
             (c_status row) (c_error_message row) (c_response_time row) ∧
           checks w !! id = None ∧
           checks (run_checks env w).2 !! id = Some row ∧
           c_target_id row = t_id t ∧
           if decide (c_status row = success)
           then select_open_incident (t_id t)
                  (incidents (run_checks env w).2) = None
           else ∃ iid i,
                  select_open_incident (t_id t)
                    (incidents (run_checks env w).2) = Some (iid, i) ∧
                  i_last_check_id i = id) ∧
      (∀ target_id,
         target_id ∉ t_id <$> active w →
         select_open_incident target_id (incidents (run_checks env w).2) =
         select_open_incident target_id (incidents w)).
Proof.
  intros env w Hok Hport Hinv Hnd.
  rewrite run_checks_loop by apply Hok.
  set (w0 := log _ (log _ w)). fold (active w).
  destruct (run_loop_incidents env (active w) w0 Hok Hport Hinv Hnd)
    as (evs & Htr & Hother & Hown).
  exists (EvSql Connect true :: EvSql SelectActiveTargets true :: evs).
  split_and!.
  - rewrite Htr. unfold w0. simpl. by rewrite <- !app_assoc.
  - intros k t Hk.
    destruct (Hown k t Hk)
      as (before & after & id & row & -> & Hcount & Hclass & Hnone & Hsome
          & Htid & Hopen).
    exists (EvSql Connect true :: EvSql SelectActiveTargets true :: before),
      after, id, row.
    split_and!; [done| | |exact Hnone|exact Hsome|exact Htid|exact Hopen].
    + rewrite filter_cons_False by done.
      by rewrite filter_cons_False by done.
    + simpl.
      replace (tick w + S (S (length before)))%nat
        with (tick w0 + length before)%nat by (unfold w0; simpl; lia).
      exact Hclass.
  - exact Hother.
Qed.

(** ** A result without [alert_channels] *)

Lemma silent_events env r m res evs m' :
  handled env r m res evs m' → alert_channels_of r = [] →
  Forall (λ ev, is_store_event ev = true) evs.
Proof.
  intros [msg Hf| Hst Hsel |id i msg Hst Hsel Hf | id i now evs0 Hst Hsel Hev
         | id i msg Hst Hsel Hf | id i res0 evs0 Hst Hsel Hev
         | msg Hst Hsel Hf | now evs_a res0 evs_m m0 Hst Hsel Hev Hm] Hnone;
    try (by repeat constructor).
  - apply recovery_events_slack in Hev as (_ & Hev & _).
    rewrite Hev by (rewrite Hnone; apply not_elem_of_nil).
    by repeat constructor.
  - apply escalation_events_class in Hev as (_ & Hev & _).
    destruct evs0 as [|ev evs0]; [by repeat constructor|exfalso].
    unfold email_due, sms_due in Hev. rewrite Hnone in Hev.
    rewrite (bool_decide_eq_false_2 ("email" ∈ [])) in Hev
      by apply not_elem_of_nil.
    rewrite (bool_decide_eq_false_2 ("sms" ∈ [])) in Hev
      by apply not_elem_of_nil.
    rewrite !andb_false_r in Hev. simpl in Hev.
    destruct Hev as [?|?]; done.
  - apply initial_events_slack in Hev as (_ & Hev & _).
    rewrite Hev by (rewrite Hnone; apply not_elem_of_nil).
    constructor; [done|]. constructor; [done|].
    by eapply marking_store_events.
Qed.

(** X12. The two readers of [alert_channels] fall back differently when
    the result has no such key: the alerter on no channel at all,
    [handle_result] on [['slack']].  For such a result no notification of
    any kind is attempted, on any path and whatever the configuration:
    everything the call does is a statement to the store.  Yet when the
    result opens an incident (the store answering), the call ends
    normally with exactly three statements, the last of which sets
    [slack_alerted]: the new incident is marked as alerted on Slack and on
    nothing else, though nobody was told. *)
Theorem X12_missing_channels_mark_without_alert :
  ∀ env r w,
    r_alert_channels r = None →
    (∃ evs,
       trace (handle_result r env w).2 = trace w ++ evs ∧
       Forall (λ ev, is_store_event ev = true) evs) ∧
    (store_ok env → r_status r ≠ success →
     select_open_incident (r_target_id r) (incidents w) = None →
     (handle_result r env w).1 = Ok tt ∧
     trace (handle_result r env w).2 =
       trace w ++
       [EvSql (SelectOpenIncident (r_target_id r)) true;
        EvSql (InsertIncident (r_target_id r) (r_check_id r)) true;
        EvSql (SetColumn "slack_alerted" (lastrowid (incidents w))) true] ∧
     ∃ i,
       incidents (handle_result r env w).2 !! lastrowid (incidents w) =
         Some i ∧
       i_slack_alerted i = true ∧ i_email_alerted i = false ∧
       i_sms_alerted i = false).
Proof.
  intros env r w Hnone.
  assert (alert_channels_of r = []) as Hchannels
    by (unfold alert_channels_of; by rewrite Hnone).
  destruct (handle_result_handled r env w) as (res & evs & m' & -> & H).
  cbn [fst snd with_incidents trace incidents]. rewrite trace_add_events.
  split.
  - exists evs. split; [done|]. by eapply silent_events.
  - intros Hok Hst Hsel.
    destruct H as [msg Hf| Hst' Hsel' |id i msg Hst' Hsel' Hf
                  | id i now evs0 Hst' Hsel' Hev
                  | id i msg Hst' Hsel' Hf | id i res0 evs0 Hst' Hsel' Hev
                  | msg Hst' Hsel' Hf
                  | now evs_a res0 evs_m m0 Hst' Hsel' Hev Hm];
      try (exfalso; eapply store_ok_not_faulty; eassumption);
      try congruence.
    apply initial_events_slack in Hev as (_ & Hev & _).
    rewrite Hev by (rewrite Hchannels; apply not_elem_of_nil).
    rewrite Hnone in Hm. simpl in Hm.
    inversion Hm as [|c cs m1 res1 evs1 m1' Hc Hm1|c cs m1 set msg Hc Hset Hf
                    |c cs m1 set res1 evs1 m1' Hc Hset Hm1]; subst.
    + exfalso. apply Hc. apply elem_of_cons. by left.
    + exfalso. by eapply store_ok_not_faulty.
    + inversion Hm1; subst. split_and!; [done|done|].
      rewrite lookup_alter_eq, lookup_insert_eq. simpl.
      eexists. split; [done|].
      vm_compute in Hset. injection Hset as <-. done.
Qed.

(** ** The incident API of [WatchdogDB] *)

Lemma inserted_the_open_incident now target_id check_id m :
  select_open_incident target_id m = None →
  the_open_incident target_id
    (<[lastrowid m := new_incident now target_id check_id]> m)
    (lastrowid m) (new_incident now target_id check_id).
Proof.
  intros Hsel%select_open_incident_None. split_and!.
  - apply lookup_insert_eq.
  - done.
  - intros id' i' Hl Hopen.
    destruct (decide (id' = lastrowid m)) as [|Hid]; [done|].
    rewrite lookup_insert_ne in Hl by done. by destruct (Hsel id' i' Hl).
Qed.

Lemma marked_the_open_incident target_id column set m id i :
  set_column column = Some set →
  the_open_incident target_id m id i →
  the_open_incident target_id (alter set id m) id (set i).
Proof.
  intros Hset (Hl & [Ht Hs] & Huniq).
  destruct (set_column_frame _ _ i Hset) as (Ht' & Hs' & _).
  split_and!.
  - by rewrite lookup_alter_eq, Hl.
  - split; simpl in *; congruence.
  - intros id' i' Hl' Hopen.
    apply lookup_alter_Some in Hl' as [(-> & _)|[? Hl']]; [done|].
    by eapply Huniq.
Qed.

Lemma get_open_incident_ok target_id env w :
  store_ok env →
  (get_open_incident target_id env w).1 =
  Ok (select_open_incident target_id (incidents w)).
Proof.
  intros Hok.
  destruct (get_open_incident_cases target_id env w) as [(msg & Hf & _)| ->];
    [|done].
  exfalso. by eapply store_ok_not_faulty.
Qed.

(** X13. The incident API of [WatchdogDB], the store answering, for a
    target without an open incident.  [create_incident] returns the next
    rowid, and [get_open_incident] then returns the row under that id:
    open, with count 1, pointing to the given check, not resolved and
    with no channel alerted.  From there: after [update_incident] with
    [increment_count] set, [get_open_incident] returns the same incident
    with count 2 and the new check, and with [increment_count] unset the
    count stays 1; after [mark_alert_sent] for slack, email or sms it
    returns the same incident with that flag set and nothing else
    changed; after [resolve_incident] it returns nothing. *)
Theorem X13_incident_round_trip :
  ∀ env w target_id check_id,
    store_ok env →
    select_open_incident target_id (incidents w) = None →
    ∃ w1 i,
      create_incident target_id check_id env w =
        (Ok (lastrowid (incidents w)), w1) ∧
      (get_open_incident target_id env w1).1 =
        Ok (Some (lastrowid (incidents w), i)) ∧
      i = new_incident (i_started_at i) target_id check_id ∧
      (∀ next increment_count,
         (get_open_incident target_id env
            (update_incident (lastrowid (incidents w)) next increment_count
               env w1).2).1 =
         Ok (Some (lastrowid (incidents w),
                   updated next increment_count i))) ∧
      (∀ channel,
         channel ∈ ["slack"; "email"; "sms"] →
         ∃ i',
           (get_open_incident target_id env
              (mark_alert_sent (lastrowid (incidents w)) channel env w1).2).1 =
           Ok (Some (lastrowid (incidents w), i')) ∧
           same_but_flags i i' ∧
           ∀ c, alerted c i' = bool_decide (c = channel)) ∧
      (get_open_incident target_id env
         (resolve_incident (lastrowid (incidents w)) env w1).2).1 = Ok None.
Proof.
  intros env w target_id check_id Hok Hsel.
  destruct (create_incident_cases target_id check_id env w)
    as [(msg & Hf & _)|[now Hcreate]];
    [exfalso; by eapply store_ok_not_faulty|].
  set (id := lastrowid (incidents w)) in *.
  set (i := new_incident now target_id check_id) in *.
  set (w1 := with_incidents _ _) in Hcreate.
  assert (the_open_incident target_id (incidents w1) id i) as Hopen
    by (by apply inserted_the_open_incident).
  exists w1, i. split_and!.
  - done.
  - rewrite get_open_incident_ok by done.
    by rewrite (the_open_incident_select _ _ _ _ Hopen).
  - done.
  - intros next incr. rewrite get_open_incident_ok by done.
    destruct (update_incident_cases id next incr env w1)
      as [(msg & Hf & _)| ->]; [exfalso; by eapply store_ok_not_faulty|].
    cbn [snd with_incidents incidents]. do 2 f_equal.
    apply the_open_incident_select.
    destruct Hopen as (Hl & [Ht Hs] & Huniq). split_and!.
    + by rewrite lookup_alter_eq, Hl.
    + done.
    + intros id' i' Hl' Hopen'.
      apply lookup_alter_Some in Hl' as [(-> & _)|[? Hl']]; [done|].
      by eapply Huniq.
  - intros channel Hc.
    destruct (known_channel_column channel Hc) as [set Hset].
    exists (set i). rewrite get_open_incident_ok by done.
    destruct (mark_alert_sent_cases id channel set env w1 Hset)
      as [(msg & Hf & _)| ->]; [exfalso; by eapply store_ok_not_faulty|].
    cbn [snd with_incidents incidents]. split_and!.
    + do 2 f_equal. apply the_open_incident_select.
      by eapply marked_the_open_incident.
    + destruct (set_column_frame _ _ i Hset) as (?&?&?&?&?&?).
      by split_and!.
    + intros c. unfold alerted.
      repeat (apply elem_of_cons in Hc as [->|Hc]);
        [| | |by apply elem_of_nil in Hc];
        vm_compute in Hset; injection Hset as <-; simpl;
        repeat case_decide; subst; by rewrite ?bool_decide_eq_true_2,
          ?bool_decide_eq_false_2 by done.
  - rewrite get_open_incident_ok by done.
    destruct (resolve_incident_cases id env w1)
      as [(msg & Hf & _)|[now' ->]]; [exfalso; by eapply store_ok_not_faulty|].
    cbn [snd with_incidents incidents]. f_equal.
    by eapply resolved_none_open.
Qed.

(** ** The errors that end a run *)

Lemma marking_errors env id cs m res evs m' e :
  marking env id cs m res evs m' → res = Raise e →
  ∃ msg, e = StoreError msg ∧ faulty env msg.
Proof.
  induction 1 as [| |c cs m set msg Hc Hset Hf|]; intros Hres; try done; auto.
  injection Hres as <-. eauto.
Qed.

Lemma handled_errors env r m res evs m' e :
  handled env r m res evs m' → res = Raise e →
  store_or_port_error env e ∧
  (∀ msg, e = ValueError msg →
          r_status r ≠ success ∧
          is_Some (select_open_incident (r_target_id r) m)).
Proof.
  intros [msg Hf| Hst Hsel |id i msg Hst Hsel Hf | id i now evs0 Hst Hsel Hev
         | id i msg Hst Hsel Hf | id i res0 evs0 Hst Hsel Hev
         | msg Hst Hsel Hf | now evs_a res0 evs_m m0 Hst Hsel Hev Hm] Hres;
    try done;
    try (injection Hres as <-; split; [left; eauto|done]).
  - destruct Hev as (? & ? & _ & _ & [->|[Hport [msg ->]]] & _); [done|].
    injection Hres as <-. split; [right; eauto|].
    intros _ _. split; [done|]. rewrite Hsel. eauto.
  - destruct (marking_errors _ _ _ _ _ _ _ _ Hm Hres) as (msg & -> & Hf).
    split; [left; eauto|done].
Qed.

Lemma for_each_errors {A} (P : exn → Prop) (body : A → M unit) xs env w e :
  (∀ x w e, (body x env w).1 = Raise e → P e) →
  (for_each xs body env w).1 = Raise e → P e.
Proof.
  intros Hbody. revert w. induction xs as [|x xs IH]; intros w; [done|].
  cbn [for_each]. rewrite bind_eq.
  destruct (body x env w) as [[[]|e'] w'] eqn:Hx.
  - apply IH.
  - intros [= <-]. apply (Hbody x w). by rewrite Hx.
Qed.

Lemma check_and_handle_errors target env w e :
  (check_and_handle target env w).1 = Raise e → store_or_port_error env e.
Proof.
  unfold check_and_handle. rewrite bind_eq.
  pose proof (check_target_frames target env w)
    as (_ & _ & _ & evs0 & _ & _ & Hres).
  destruct (check_target target env w) as [[r|e'] w1]; simpl in Hres.
  - destruct (handle_result_handled r env w1) as (res & evs & m' & -> & H).
    simpl. intros Hraise. by eapply handled_errors.
  - intros [= <-]. destruct Hres as ((msg & -> & Hf) & _). left. eauto.
Qed.

(** X14. No failure of an endpoint and no failure of a transport (the
    Slack CLI, the SMTP session, Twilio) ever ends [handle_result] or
    [run_checks].  When one of them raises, the error is one of the store
    (raised by a statement that was refused), or the [ValueError] of
    [int()] on a malformed [SMTP_PORT]; the latter leaves [handle_result]
    only for a check that is not a success and continues an incident that
    was already open. *)
Theorem X14_only_store_and_port_errors_escape :
  ∀ env w e,
    (∀ r,
       (handle_result r env w).1 = Raise e →
       store_or_port_error env e ∧
       (∀ msg, e = ValueError msg →
               r_status r ≠ success ∧
               is_Some (select_open_incident (r_target_id r) (incidents w)))) ∧
    ((run_checks env w).1 = Raise e → store_or_port_error env e).
Proof.
  intros env w e. split.
  - intros r.
    destruct (handle_result_handled r env w) as (res & evs & m' & -> & H).
    simpl. intros Hraise. by eapply handled_errors.
  - destruct (db_fault env (tick w)) as [msg|] eqn:H0.
    { rewrite (run_checks_unreachable env w msg H0). intros [= <-].
      left. exists msg. split; [done|]. by exists (tick w). }
    destruct (db_fault env (S (tick w))) as [msg|] eqn:H1.
    { unfold run_checks, connect, get_active_targets, execute.
      monad_unfold. rewrite H0. simpl. rewrite H1. simpl. intros [= <-].
      left. exists msg. split; [done|]. by exists (S (tick w)). }
    rewrite run_checks_loop by done.
    apply for_each_errors. intros target w1 e1.
    apply check_and_handle_errors.
Qed.

(** ** Concrete runs of senders, probes and whole runs *)

Lemma port_ok_test_env : port_ok test_env.
Proof. unfold port_ok. simpl. by eexists. Defined.

(** An empty [SMTP_PORT] raises; port 587 delivers. *)
Lemma X2_witness :
  (_send_email GatewaySubject (BriefMessage "Test Service" 5 None)
     ["test@example.com"] blank_port_env fresh_store).1 =
    Raise (ValueError "invalid literal for int() with base 10: ''") ∧
  (_send_email GatewaySubject (BriefMessage "Test Service" 5 None)
     ["test@example.com"] test_env fresh_store).1 = Ok tt.
Proof.
  split.
  - rewrite (proj1 (X2_send_email_port_before_credentials blank_port_env
                      GatewaySubject (BriefMessage "Test Service" 5 None)
                      ["test@example.com"] fresh_store) "");
      reflexivity.
  - rewrite (proj2 (X2_send_email_port_before_credentials test_env
                      GatewaySubject (BriefMessage "Test Service" 5 None)
                      ["test@example.com"] fresh_store) 587);
      [reflexivity|].
    right. exists "587". split; reflexivity.
Defined.

(** Three numbers, the client raising on the second: two messages are
    created, the third number is never tried. *)
Lemma X3_witness :
  _send_sms_twilio (BriefMessage "Test Service" 5 None) three_numbers
    twilio_env fresh_store =
  (Ok tt,
   add_events
     [EvTwilio "+15551234567" (BriefMessage "Test Service" 5 None);
      EvTwilio "+15557654321" (BriefMessage "Test Service" 5 None)]
     fresh_store).
Proof.
  destruct (X3_twilio_stops_at_first_failure twilio_env
              (BriefMessage "Test Service" 5 None) three_numbers fresh_store)
    as (k & Heq & Hle & _ & Hbefore & Hlast).
  rewrite Heq.
  destruct k as [|[|[|[|k]]]].
  - destruct Hlast as [Hpos _]; [reflexivity|reflexivity|simpl; lia|lia].
  - destruct Hlast as [_ [e He]]; [reflexivity|reflexivity|simpl; lia|].
    discriminate He.
  - reflexivity.
  - discriminate (Hbefore 1%nat ltac:(lia)).
  - simpl in Hle. lia.
Defined.

(** The test configuration sends its SMS through the gateway: the
    numbers it lists make no difference. *)
Lemma X4_witness :
  sms_method (sms_config_of test_env) ≠ Some "twilio" ∧
  _send_sms (BriefMessage "Test Service" 5 None) no_sms_config test_env
    fresh_store =
  _send_sms (BriefMessage "Test Service" 5 None) (sms_config_of test_env)
    test_env fresh_store.
Proof.
  split; [done|].
  apply (proj1 (X4_sms_gateway_ignores_recipients test_env
                  (BriefMessage "Test Service" 5 None)
                  (sms_config_of test_env) fresh_store ltac:(done))).
  done.
Defined.

(** The third failure with [SMTP_PORT] left empty. *)
Lemma X5_witness :
  (send_escalation_alert (down 3 ["slack"; "email"; "sms"])
     (1, new_incident 1700000000 1 1) 3 blank_port_env fresh_store).1 =
  Raise (ValueError "invalid literal for int() with base 10: ''").
Proof.
  rewrite (proj1 (X5_failed_mail_skips_sms blank_port_env
                    (down 3 ["slack"; "email"; "sms"])
                    (1, new_incident 1700000000 1 1) 3 fresh_store) "");
    reflexivity.
Defined.

(** A healthy endpoint and a store that raises on the first INSERT: the
    check is recorded as an error, under id 1 when [execute] raised and
    under id 2, after the row of the first INSERT, when [commit] did. *)
Lemma X6_witness :
  (check_target test_service busy_env fresh_store).1 =
    Ok (check_result test_service error None None
          (Some "database is locked") 1) ∧
  (check_target test_service busy_commit_env fresh_store).1 =
    Ok (check_result test_service error None None
          (Some "database is locked") 2).
Proof.
  split.
  - destruct (X6_store_error_inside_try busy_env test_service fresh_store
                "database is locked" eq_refl) as (Hretry & _ & _).
    destruct (Hretry 200 "OK" 150.5%float eq_refl eq_refl)
      as (w' & now & Heq & _).
    rewrite Heq. reflexivity.
  - destruct (X6_store_error_inside_try busy_commit_env test_service
                fresh_store "database is locked" eq_refl)
      as (Hretry & _ & _).
    destruct (Hretry 200 "OK" 150.5%float eq_refl eq_refl)
      as (w' & now & Heq & _).
    rewrite Heq. reflexivity.
Defined.

(** The two rows that a [commit] raising once leaves for one request. *)
Example checked_twice :
  (λ row, (c_status row, c_status_code row, c_error_message row)) <$>
    checks (check_target test_service busy_commit_env fresh_store).2 =
  {[ 1 := (success, Some 200, None);
     2 := (error, None, Some "database is locked") ]}.
Proof. vm_compute. reflexivity. Qed.

(** A first failure: the incident is open and points to the check. *)
Lemma X9_witness :
  ∃ id i,
    select_open_incident 1
      (incidents (handle_result (down 1 ["slack"]) test_env fresh_store).2) =
      Some (id, i) ∧
    i_last_check_id i = 1 ∧ i_failure_count i = 1.
Proof.
  destruct (X9_open_incident_follows_the_check test_env (down 1 ["slack"])
              fresh_store store_ok_test_env one_open_empty) as [Hown _].
  exact Hown.
Defined.


Lemma X11_witness :
  ∃ id i,
    select_open_incident 1 (incidents (run_checks test_env fresh_store).2) =
      Some (id, i).
Proof.
  destruct (X11_run_checks_settles_incidents test_env fresh_store
              store_ok_test_env port_ok_test_env one_open_empty)
    as (evs & _ & Hown & _).
  { repeat constructor; vm_compute; intros H; inversion H as [|? ? ? H'];
      inversion H'. }
  destruct (Hown 0%nat test_service eq_refl)
    as (before & after & id & row & _ & _ & Hclass & _ & _ & _ & Hopen).
  destruct (decide (c_status row = success)) as [Hst|_].
  - exfalso. simpl in Hclass. rewrite Hst in Hclass.
    inversion Hclass as [| | | |? ? ? Hcode]. discriminate Hcode.
  - destruct Hopen as (iid & i & Hsel & _). exists iid, i. exact Hsel.
Defined.

(** A first failure in a dict without [alert_channels]. *)
Lemma X12_witness :
  (handle_result (bare 1) test_env fresh_store).1 = Ok tt ∧
  ∃ i,
    incidents (handle_result (bare 1) test_env fresh_store).2 !! 1 = Some i ∧
    i_slack_alerted i = true.
Proof.
  destruct (proj2 (X12_missing_channels_mark_without_alert test_env (bare 1)
                     fresh_store eq_refl))
    as (Hres & _ & i & Hi & Hslack & _).
  - exact store_ok_test_env.
  - done.
  - reflexivity.
  - split; [exact Hres|]. exists i. split; [exact Hi|exact Hslack].
Defined.

(** Created, then resolved: no open incident is found. *)
Lemma X13_witness :
  (get_open_incident 1 test_env
     (resolve_incident 1 test_env
        (create_incident 1 1 test_env fresh_store).2).2).1 = Ok None.
Proof.
  destruct (X13_incident_round_trip test_env fresh_store 1 1
              store_ok_test_env eq_refl)
    as (w1 & i & Hcreate & _ & _ & _ & _ & Hresolved).
  rewrite Hcreate. exact Hresolved.
Defined.

(** The third failure with [SMTP_PORT] left empty: the error of [int()]
    leaves [handle_result]. *)
Lemma X14_witness :
  store_or_port_error blank_port_env
    (ValueError "invalid literal for int() with base 10: ''").
Proof.
  apply (proj1 (X14_only_store_and_port_errors_escape blank_port_env
                  (handle_results blank_port_env
                     [down 1 ["slack"; "email"]; down 2 ["slack"; "email"]]
                     fresh_store)
                  (ValueError "invalid literal for int() with base 10: ''"))
               (down 3 ["slack"; "email"])).
  vm_compute. reflexivity.
Defined.
